(** * A shallow embedding of the go-yaml scanner and parser

    The development follows [parser/parser.go] and [scanner/scanner.go].
    Go's [int] is a 64-bit two's-complement integer: it is modelled as [Z]
    with the wrap-around written out in [Int.wrap].  Go strings are
    [string]; rune buffers ([[]rune]) are [list ascii], so the model covers
    sources made of one-byte characters.  A nil pointer is [None]; a
    dereference of nil is the outcome [NilDeref]. *)

From Stdlib Require Import List String Ascii ZArith Bool Lia.
Import ListNotations.

Set Warnings "-register-all".

Local Open Scope Z_scope.

(** ** Machine integers *)

Module Int.

Definition wrap (x : Z) : Z := (x + 2 ^ 63) mod 2 ^ 64 - 2 ^ 63.

Definition add (a b : Z) : Z := wrap (a + b).
Definition sub (a b : Z) : Z := wrap (a - b).

Definition in_range (x : Z) : Prop := - 2 ^ 63 <= x < 2 ^ 63.

End Int.

(** ** Go's [strings] helpers used by the two packages *)

Module strings.

Local Open Scope string_scope.

(** [strings.TrimLeft(s, string(c))] for a one-character cutset. *)
Fixpoint TrimLeft (s : string) (c : ascii) : string :=
  match s with
  | String a s' => if Ascii.eqb a c then TrimLeft s' c else s
  | EmptyString => EmptyString
  end.

(** [strings.TrimRight(s, string(c))] for a one-character cutset. *)
Fixpoint TrimRight (s : string) (c : ascii) : string :=
  match s with
  | String a s' =>
      match TrimRight s' c with
      | EmptyString => if Ascii.eqb a c then EmptyString else String a EmptyString
      | t => String a t
      end
  | EmptyString => EmptyString
  end.

(** [strings.Index(s, string(c))]: the first index of [c], or -1. *)
Fixpoint Index (s : string) (c : ascii) : Z :=
  match s with
  | String a s' =>
      if Ascii.eqb a c then 0
      else match Index s' c with
           | Zneg _ => -1
           | i => i + 1
           end
  | EmptyString => -1
  end.

Definition len (s : string) : Z := Z.of_nat (String.length s).

End strings.

(** ** Package [token]

    Modelled from the spec: the [token] package is not part of the sources
    at hand; kinds, positions and tokens follow the data model (kind,
    semantic value, original lexeme, position, forward link). *)

Module token.

Inductive Type_ : Set :=
| MappingStartType | MappingEndType | SequenceStartType | SequenceEndType
| CollectEntryType | SequenceEntryType | MappingValueType
| DocumentHeaderType | DocumentEndType
| AnchorType | AliasType | TagType | DirectiveType | MergeKeyType
| CommentType
| StringType | SingleQuoteType | DoubleQuoteType | LiteralType | FoldedType
| NullType | BoolType
| IntegerType | BinaryIntegerType | OctetIntegerType | HexIntegerType
| FloatType | InfinityType | NanType.

Definition Type_eq_dec (a b : Type_) : {a = b} + {a <> b}.
Proof. decide equality. Defined.

Definition Type_eqb (a b : Type_) : bool :=
  if Type_eq_dec a b then true else false.

Record Position : Set := {
  Line : Z;
  Column : Z;
  Offset : Z;
  IndentNum : Z;
  IndentLevel : Z
}.

(** [Next] is the forward link: the kind of the token that follows, once
    the stream is finalized ([None] for the last token). *)
Record Token : Set := {
  Typ : Type_;
  Value : string;
  Origin : string;
  Position_ : Position;
  Next : option Type_
}.

Definition Tokens := list Token.

Definition NextTypeIs (t : Token) (k : Type_) : bool :=
  match Next t with
  | Some k' => Type_eqb k' k
  | None => false
  end.

(** *** Kind classification at flush time

    Modelled from the spec: the classification of a plain lexeme is part
    of the [token] package.  The literal is matched, in order, against
    the null, boolean, infinity, nan, binary, octal, hexadecimal and
    decimal integer forms, then against the textual form of a float
    (sign, digits, fraction, exponent); anything else is a string. *)

Local Open Scope string_scope.

Definition isDigit (c : ascii) : bool :=
  (Nat.leb 48 (nat_of_ascii c) && Nat.leb (nat_of_ascii c) 57)%bool.

Definition isOctDigit (c : ascii) : bool :=
  (Nat.leb 48 (nat_of_ascii c) && Nat.leb (nat_of_ascii c) 55)%bool.

Definition isBinDigit (c : ascii) : bool :=
  (Nat.leb 48 (nat_of_ascii c) && Nat.leb (nat_of_ascii c) 49)%bool.

Definition toLower (c : ascii) : ascii :=
  let n := nat_of_ascii c in
  if (Nat.leb 65 n && Nat.leb n 90)%bool then ascii_of_nat (n + 32) else c.

Definition isHexDigit (c : ascii) : bool :=
  let n := nat_of_ascii (toLower c) in
  (isDigit c || (Nat.leb 97 n && Nat.leb n 102))%bool.

Fixpoint lower (s : string) : string :=
  match s with
  | String a s' => String (toLower a) (lower s')
  | EmptyString => EmptyString
  end.

Fixpoint all (p : ascii -> bool) (s : string) : bool :=
  match s with
  | String a s' => (p a && all p s')%bool
  | EmptyString => true
  end.

Definition run (p : ascii -> bool) (s : string) : bool :=
  (negb (String.eqb s EmptyString) && all p s)%bool.

Definition dropSign (s : string) : string :=
  match s with
  | String "+" s' | String "-" s' => s'
  | _ => s
  end.

Fixpoint span (p : ascii -> bool) (s : string) : string * string :=
  match s with
  | String a s' =>
      if p a then let (l, r) := span p s' in (String a l, r)
      else (EmptyString, s)
  | EmptyString => (EmptyString, EmptyString)
  end.

Definition isFloatText (s : string) : bool :=
  let (int, r) := span isDigit (dropSign s) in
  let (frac, r') :=
    match r with
    | String "." t => span isDigit t
    | _ => (EmptyString, r)
    end in
  (negb (String.eqb (int ++ frac) EmptyString) &&
   match r' with
   | EmptyString => true
   | String e t => Ascii.eqb (toLower e) "e" && run isDigit (dropSign t)
   end)%bool.

Definition classify (value : string) : Type_ :=
  let l := lower value in
  if ((value =? "null") || (value =? "~") || (value =? EmptyString))%bool%string
  then NullType
  else if ((l =? "true") || (l =? "false") || (l =? "yes") || (l =? "no")
           || (l =? "on") || (l =? "off"))%bool%string
  then BoolType
  else if ((value =? ".inf") || (value =? "-.inf"))%bool%string
  then InfinityType
  else if (value =? ".nan")%string then NanType
  else match value with
       | String "0" (String "b" t) =>
           if run isBinDigit t then BinaryIntegerType else StringType
       | String "0" (String "x" t) =>
           if run isHexDigit t then HexIntegerType else StringType
       | String "0" (String "o" t) =>
           if run isOctDigit t then OctetIntegerType else StringType
       | _ =>
           if match value with
              | String "0" t => run isOctDigit t
              | _ => false
              end
           then OctetIntegerType
           else if run isDigit (dropSign value) then IntegerType
           else if isFloatText value then FloatType
           else StringType
       end.

(** *** Constructors *)

Definition mk (k : Type_) (value org : string) (pos : Position) : Token :=
  {| Typ := k; Value := value; Origin := org; Position_ := pos; Next := None |}.

Definition New (value org : string) (pos : Position) : Token :=
  mk (classify value) value org pos.

Definition MappingStart org pos := mk MappingStartType "{" org pos.
Definition MappingEnd org pos := mk MappingEndType "}" org pos.
Definition SequenceStart org pos := mk SequenceStartType "[" org pos.
Definition SequenceEnd org pos := mk SequenceEndType "]" org pos.
Definition CollectEntry org pos := mk CollectEntryType "," org pos.
Definition SequenceEntry org pos := mk SequenceEntryType "-" org pos.
Definition MergeKey org pos := mk MergeKeyType "<<" org pos.
Definition Anchor org pos := mk AnchorType "&" org pos.
Definition Alias org pos := mk AliasType "*" org pos.
Definition MappingValue pos := mk MappingValueType ":" ":" pos.
Definition DocumentHeader pos := mk DocumentHeaderType "---" "---" pos.
Definition DocumentEnd pos := mk DocumentEndType "..." "..." pos.
Definition Directive pos := mk DirectiveType "%" "%" pos.
Definition Literal value org pos := mk LiteralType value org pos.
Definition Folded value org pos := mk FoldedType value org pos.
Definition Tag value org pos := mk TagType value org pos.
Definition Comment value org pos := mk CommentType value org pos.
Definition SingleQuote value org pos := mk SingleQuoteType value org pos.
Definition DoubleQuote value org pos := mk DoubleQuoteType value org pos.

(** The forward links of a finalized stream. *)
Fixpoint link (tks : list Token) : list Token :=
  match tks with
  | t :: ((t' :: _) as rest) =>
      {| Typ := Typ t; Value := Value t; Origin := Origin t;
         Position_ := Position_ t; Next := Some (Typ t') |} :: link rest
  | _ => tks
  end.

End token.

Import token.

(** ** Package [ast]

    Modelled from the spec: the [ast] package is not part of the sources at
    hand; the node variants and their fields follow the data model, and the
    fields the parser assigns are the ones named in [parser.go].  A field
    that holds a Go pointer or interface which the parser may leave nil is
    an [option]. *)

Module ast.

Inductive NodeType : Set :=
| NullType | BoolType | IntegerType | FloatType | InfinityType | NanType
| StringType | MergeKeyType | LiteralType
| MappingValueType | MappingType | SequenceType
| AnchorType | AliasType | TagType | DirectiveType | DocumentType.

Definition NodeType_eq_dec (a b : NodeType) : {a = b} + {a <> b}.
Proof. decide equality. Defined.

Inductive Node : Type :=
| NullNode (Token : Token)
| BoolNode (Token : Token)
| IntegerNode (Token : Token)
| FloatNode (Token : Token)
| InfinityNode (Token : Token)
| NanNode (Token : Token)
| StringNode (Token : Token)
| MergeKeyNode (Token : Token)
| LiteralNode (Start : option Token) (Value : Token)
| MappingValueNode (mv : MappingValue)
| MappingNode (Start End : option Token) (IsFlowStyle : bool)
              (Values : list MappingValue)
| SequenceNode (Start End : option Token) (IsFlowStyle : bool)
               (Values : list (option Node))
| AnchorNode (Start : option Token) (Name Value : option Node)
| AliasNode (Start : option Token) (Value : option Node)
| TagNode (Start : option Token) (Value : option Node)
| DirectiveNode (Start : option Token) (Value : option Node)
| DocumentNode (doc : Document)
with MappingValue : Type :=
| mkMappingValue (Start : option Token) (Key Value : Node)
with Document : Type :=
| mkDocument (Start End : option Token) (Body : option Node).

Record File : Type := { Name : string; Docs : list Document }.

Definition Type_ (n : Node) : NodeType :=
  match n with
  | NullNode _ => NullType
  | BoolNode _ => BoolType
  | IntegerNode _ => IntegerType
  | FloatNode _ => FloatType
  | InfinityNode _ => InfinityType
  | NanNode _ => NanType
  | StringNode _ => StringType
  | MergeKeyNode _ => MergeKeyType
  | LiteralNode _ _ => LiteralType
  | MappingValueNode _ => MappingValueType
  | MappingNode _ _ _ _ => MappingType
  | SequenceNode _ _ _ _ => SequenceType
  | AnchorNode _ _ _ => AnchorType
  | AliasNode _ _ => AliasType
  | TagNode _ _ => TagType
  | DirectiveNode _ _ => DirectiveType
  | DocumentNode _ => DocumentType
  end.

(** [GetToken]: a scalar's originating token, a composite's [Start]. *)
Definition GetToken (n : Node) : option Token :=
  match n with
  | NullNode t | BoolNode t | IntegerNode t | FloatNode t
  | InfinityNode t | NanNode t | StringNode t | MergeKeyNode t => Some t
  | LiteralNode s _ => s
  | MappingValueNode (mkMappingValue s _ _) => s
  | MappingNode s _ _ _ => s
  | SequenceNode s _ _ _ => s
  | AnchorNode s _ _ => s
  | AliasNode s _ => s
  | TagNode s _ => s
  | DirectiveNode s _ => s
  | DocumentNode (mkDocument s _ _) => s
  end.

(** The [ScalarNode] interface: the scalars and the merge-key placeholder. *)
Definition isScalarNode (n : Node) : bool :=
  match n with
  | NullNode _ | BoolNode _ | IntegerNode _ | FloatNode _
  | InfinityNode _ | NanNode _ | StringNode _ | MergeKeyNode _ => true
  | _ => false
  end.

Definition DocBody (d : Document) : option Node :=
  match d with mkDocument _ _ b => b end.

Definition DocStart (d : Document) : option Token :=
  match d with mkDocument s _ _ => s end.

Definition DocEnd (d : Document) : option Token :=
  match d with mkDocument _ e _ => e end.

Definition MVStart (m : MappingValue) : option Token :=
  match m with mkMappingValue s _ _ => s end.

Definition MVKey (m : MappingValue) : Node :=
  match m with mkMappingValue _ k _ => k end.

Definition MVValue (m : MappingValue) : Node :=
  match m with mkMappingValue _ _ v => v end.

End ast.

(** ** Errors ([internal/errors] and [xerrors])

    Modelled from the spec: the error packages are not part of the sources
    at hand.  An error carries a short message and the offending token;
    [Wrapf] adds a message around an error, [Errorf] formats one. *)

Module errors.

Inductive error : Type :=
| ErrSyntax (msg : string) (tk : option Token)
| Errorf (format : string) (arg : ast.NodeType)
| Wrapf (err : error) (msg : string).

(** The innermost error of a chain of [Wrapf]. *)
Fixpoint Cause (e : error) : error :=
  match e with
  | Wrapf e' _ => Cause e'
  | _ => e
  end.

End errors.

(** ** Package [scanner] *)

Module scanner.

Local Open Scope Z_scope.

(** [IndentState]: state for indent. *)
Inductive IndentState : Set :=
| IndentStateEqual   (* equals previous indent *)
| IndentStateUp      (* more indent than previous *)
| IndentStateDown    (* less indent than previous *)
| IndentStateKeep.   (* uses not indent token *)

Definition IndentState_eqb (a b : IndentState) : bool :=
  match a, b with
  | IndentStateEqual, IndentStateEqual
  | IndentStateUp, IndentStateUp
  | IndentStateDown, IndentStateDown
  | IndentStateKeep, IndentStateKeep => true
  | _, _ => false
  end.

(** [Scanner] holds the scanner's internal state while processing a text. *)
Record Scanner : Type := {
  source : string;
  sourcePos : Z;
  sourceSize : Z;
  line : Z;
  column : Z;
  offset : Z;
  prevIndentLevel : Z;
  prevIndentNum : Z;
  prevIndentColumn : Z;
  indentLevel : Z;
  indentNum : Z;
  isFirstCharAtLine : bool;
  isAnchor : bool;
  isStartedFlowSequence : bool;
  isStartedFlowMap : bool;
  indentState : IndentState;
  savedPos : option Position
}.

Definition set_sourcePos (v : Z) (s : Scanner) : Scanner :=
  {| source := source s; sourcePos := v; sourceSize := sourceSize s;
     line := line s; column := column s; offset := offset s;
     prevIndentLevel := prevIndentLevel s;
     prevIndentNum := prevIndentNum s;
     prevIndentColumn := prevIndentColumn s; indentLevel := indentLevel s;
     indentNum := indentNum s; isFirstCharAtLine := isFirstCharAtLine s;
     isAnchor := isAnchor s;
     isStartedFlowSequence := isStartedFlowSequence s;
     isStartedFlowMap := isStartedFlowMap s; indentState := indentState s;
     savedPos := savedPos s |}.

Definition set_line (v : Z) (s : Scanner) : Scanner :=
  {| source := source s; sourcePos := sourcePos s;
     sourceSize := sourceSize s; line := v; column := column s;
     offset := offset s; prevIndentLevel := prevIndentLevel s;
     prevIndentNum := prevIndentNum s;
     prevIndentColumn := prevIndentColumn s; indentLevel := indentLevel s;
     indentNum := indentNum s; isFirstCharAtLine := isFirstCharAtLine s;
     isAnchor := isAnchor s;
     isStartedFlowSequence := isStartedFlowSequence s;
     isStartedFlowMap := isStartedFlowMap s; indentState := indentState s;
     savedPos := savedPos s |}.

Definition set_column (v : Z) (s : Scanner) : Scanner :=
  {| source := source s; sourcePos := sourcePos s;
     sourceSize := sourceSize s; line := line s; column := v;
     offset := offset s; prevIndentLevel := prevIndentLevel s;
     prevIndentNum := prevIndentNum s;
     prevIndentColumn := prevIndentColumn s; indentLevel := indentLevel s;
     indentNum := indentNum s; isFirstCharAtLine := isFirstCharAtLine s;
     isAnchor := isAnchor s;
     isStartedFlowSequence := isStartedFlowSequence s;
     isStartedFlowMap := isStartedFlowMap s; indentState := indentState s;
     savedPos := savedPos s |}.

Definition set_offset (v : Z) (s : Scanner) : Scanner :=
  {| source := source s; sourcePos := sourcePos s;
     sourceSize := sourceSize s; line := line s; column := column s;
     offset := v; prevIndentLevel := prevIndentLevel s;
     prevIndentNum := prevIndentNum s;
     prevIndentColumn := prevIndentColumn s; indentLevel := indentLevel s;
     indentNum := indentNum s; isFirstCharAtLine := isFirstCharAtLine s;
     isAnchor := isAnchor s;
     isStartedFlowSequence := isStartedFlowSequence s;
     isStartedFlowMap := isStartedFlowMap s; indentState := indentState s;
     savedPos := savedPos s |}.

Definition set_prevIndentLevel (v : Z) (s : Scanner) : Scanner :=
  {| source := source s; sourcePos := sourcePos s;
     sourceSize := sourceSize s; line := line s; column := column s;
     offset := offset s; prevIndentLevel := v;
     prevIndentNum := prevIndentNum s;
     prevIndentColumn := prevIndentColumn s; indentLevel := indentLevel s;
     indentNum := indentNum s; isFirstCharAtLine := isFirstCharAtLine s;
     isAnchor := isAnchor s;
     isStartedFlowSequence := isStartedFlowSequence s;
     isStartedFlowMap := isStartedFlowMap s; indentState := indentState s;
     savedPos := savedPos s |}.

Definition set_prevIndentNum (v : Z) (s : Scanner) : Scanner :=
  {| source := source s; sourcePos := sourcePos s;
     sourceSize := sourceSize s; line := line s; column := column s;
     offset := offset s; prevIndentLevel := prevIndentLevel s;
     prevIndentNum := v; prevIndentColumn := prevIndentColumn s;
     indentLevel := indentLevel s; indentNum := indentNum s;
     isFirstCharAtLine := isFirstCharAtLine s; isAnchor := isAnchor s;
     isStartedFlowSequence := isStartedFlowSequence s;
     isStartedFlowMap := isStartedFlowMap s; indentState := indentState s;
     savedPos := savedPos s |}.

Definition set_prevIndentColumn (v : Z) (s : Scanner) : Scanner :=
  {| source := source s; sourcePos := sourcePos s;
     sourceSize := sourceSize s; line := line s; column := column s;
     offset := offset s; prevIndentLevel := prevIndentLevel s;
     prevIndentNum := prevIndentNum s; prevIndentColumn := v;
     indentLevel := indentLevel s; indentNum := indentNum s;
     isFirstCharAtLine := isFirstCharAtLine s; isAnchor := isAnchor s;
     isStartedFlowSequence := isStartedFlowSequence s;
     isStartedFlowMap := isStartedFlowMap s; indentState := indentState s;
     savedPos := savedPos s |}.

Definition set_indentLevel (v : Z) (s : Scanner) : Scanner :=
  {| source := source s; sourcePos := sourcePos s;
     sourceSize := sourceSize s; line := line s; column := column s;
     offset := offset s; prevIndentLevel := prevIndentLevel s;
     prevIndentNum := prevIndentNum s;
     prevIndentColumn := prevIndentColumn s; indentLevel := v;
     indentNum := indentNum s; isFirstCharAtLine := isFirstCharAtLine s;
     isAnchor := isAnchor s;
     isStartedFlowSequence := isStartedFlowSequence s;
     isStartedFlowMap := isStartedFlowMap s; indentState := indentState s;
     savedPos := savedPos s |}.

Definition set_indentNum (v : Z) (s : Scanner) : Scanner :=
  {| source := source s; sourcePos := sourcePos s;
     sourceSize := sourceSize s; line := line s; column := column s;
     offset := offset s; prevIndentLevel := prevIndentLevel s;
     prevIndentNum := prevIndentNum s;
     prevIndentColumn := prevIndentColumn s; indentLevel := indentLevel s;
     indentNum := v; isFirstCharAtLine := isFirstCharAtLine s;
     isAnchor := isAnchor s;
     isStartedFlowSequence := isStartedFlowSequence s;
     isStartedFlowMap := isStartedFlowMap s; indentState := indentState s;
     savedPos := savedPos s |}.

Definition set_isFirstCharAtLine (v : bool) (s : Scanner) : Scanner :=
  {| source := source s; sourcePos := sourcePos s;
     sourceSize := sourceSize s; line := line s; column := column s;
     offset := offset s; prevIndentLevel := prevIndentLevel s;
     prevIndentNum := prevIndentNum s;
     prevIndentColumn := prevIndentColumn s; indentLevel := indentLevel s;
     indentNum := indentNum s; isFirstCharAtLine := v;
     isAnchor := isAnchor s;
     isStartedFlowSequence := isStartedFlowSequence s;
     isStartedFlowMap := isStartedFlowMap s; indentState := indentState s;
     savedPos := savedPos s |}.

Definition set_isAnchor (v : bool) (s : Scanner) : Scanner :=
  {| source := source s; sourcePos := sourcePos s;
     sourceSize := sourceSize s; line := line s; column := column s;
     offset := offset s; prevIndentLevel := prevIndentLevel s;
     prevIndentNum := prevIndentNum s;
     prevIndentColumn := prevIndentColumn s; indentLevel := indentLevel s;
     indentNum := indentNum s; isFirstCharAtLine := isFirstCharAtLine s;
     isAnchor := v; isStartedFlowSequence := isStartedFlowSequence s;
     isStartedFlowMap := isStartedFlowMap s; indentState := indentState s;
     savedPos := savedPos s |}.

Definition set_isStartedFlowSequence (v : bool) (s : Scanner) : Scanner :=
  {| source := source s; sourcePos := sourcePos s;
     sourceSize := sourceSize s; line := line s; column := column s;
     offset := offset s; prevIndentLevel := prevIndentLevel s;
     prevIndentNum := prevIndentNum s;
     prevIndentColumn := prevIndentColumn s; indentLevel := indentLevel s;
     indentNum := indentNum s; isFirstCharAtLine := isFirstCharAtLine s;
     isAnchor := isAnchor s; isStartedFlowSequence := v;
     isStartedFlowMap := isStartedFlowMap s; indentState := indentState s;
     savedPos := savedPos s |}.

Definition set_isStartedFlowMap (v : bool) (s : Scanner) : Scanner :=
  {| source := source s; sourcePos := sourcePos s;
     sourceSize := sourceSize s; line := line s; column := column s;
     offset := offset s; prevIndentLevel := prevIndentLevel s;
     prevIndentNum := prevIndentNum s;
     prevIndentColumn := prevIndentColumn s; indentLevel := indentLevel s;
     indentNum := indentNum s; isFirstCharAtLine := isFirstCharAtLine s;
     isAnchor := isAnchor s;
     isStartedFlowSequence := isStartedFlowSequence s;
     isStartedFlowMap := v; indentState := indentState s;
     savedPos := savedPos s |}.

Definition set_indentState (v : IndentState) (s : Scanner) : Scanner :=
  {| source := source s; sourcePos := sourcePos s;
     sourceSize := sourceSize s; line := line s; column := column s;
     offset := offset s; prevIndentLevel := prevIndentLevel s;
     prevIndentNum := prevIndentNum s;
     prevIndentColumn := prevIndentColumn s; indentLevel := indentLevel s;
     indentNum := indentNum s; isFirstCharAtLine := isFirstCharAtLine s;
     isAnchor := isAnchor s;
     isStartedFlowSequence := isStartedFlowSequence s;
     isStartedFlowMap := isStartedFlowMap s; indentState := v;
     savedPos := savedPos s |}.

Definition set_savedPos (v : option Position) (s : Scanner) : Scanner :=
  {| source := source s; sourcePos := sourcePos s;
     sourceSize := sourceSize s; line := line s; column := column s;
     offset := offset s; prevIndentLevel := prevIndentLevel s;
     prevIndentNum := prevIndentNum s;
     prevIndentColumn := prevIndentColumn s; indentLevel := indentLevel s;
     indentNum := indentNum s; isFirstCharAtLine := isFirstCharAtLine s;
     isAnchor := isAnchor s;
     isStartedFlowSequence := isStartedFlowSequence s;
     isStartedFlowMap := isStartedFlowMap s; indentState := indentState s;
     savedPos := v |}.

Definition pos (s : Scanner) : Position :=
  {| Line := line s; Column := column s; Offset := offset s;
     IndentNum := indentNum s; IndentLevel := indentLevel s |}.

(** *** The scanning context

    Modelled from the spec: [scanner/context.go] is not part of the sources
    at hand.  The context is the work area of one [Scan] call: the
    remaining source and a cursor into it, the semantic buffer [buf], the
    original buffer [obuf] (every character observed since the last token
    boundary), the tokens accumulated so far, and the block-scalar flags
    with the option of the header. *)

Record Context : Type := {
  src : list ascii;
  idx : nat;
  size : nat;
  buf : list ascii;
  obuf : list ascii;
  tokens : Tokens;
  isRawFolded : bool;
  isLiteral : bool;
  isFolded : bool;
  literalOpt : string
}.

Definition with_idx (v : nat) (c : Context) : Context :=
  {| src := src c; idx := v; size := size c; buf := buf c; obuf := obuf c;
     tokens := tokens c; isRawFolded := isRawFolded c;
     isLiteral := isLiteral c; isFolded := isFolded c;
     literalOpt := literalOpt c |}.

Definition with_buf (v : list ascii) (c : Context) : Context :=
  {| src := src c; idx := idx c; size := size c; buf := v; obuf := obuf c;
     tokens := tokens c; isRawFolded := isRawFolded c;
     isLiteral := isLiteral c; isFolded := isFolded c;
     literalOpt := literalOpt c |}.

Definition with_obuf (v : list ascii) (c : Context) : Context :=
  {| src := src c; idx := idx c; size := size c; buf := buf c; obuf := v;
     tokens := tokens c; isRawFolded := isRawFolded c;
     isLiteral := isLiteral c; isFolded := isFolded c;
     literalOpt := literalOpt c |}.

Definition with_tokens (v : Tokens) (c : Context) : Context :=
  {| src := src c; idx := idx c; size := size c; buf := buf c;
     obuf := obuf c; tokens := v; isRawFolded := isRawFolded c;
     isLiteral := isLiteral c; isFolded := isFolded c;
     literalOpt := literalOpt c |}.

Definition with_isRawFolded (v : bool) (c : Context) : Context :=
  {| src := src c; idx := idx c; size := size c; buf := buf c;
     obuf := obuf c; tokens := tokens c; isRawFolded := v;
     isLiteral := isLiteral c; isFolded := isFolded c;
     literalOpt := literalOpt c |}.

Definition with_isLiteral (v : bool) (c : Context) : Context :=
  {| src := src c; idx := idx c; size := size c; buf := buf c;
     obuf := obuf c; tokens := tokens c; isRawFolded := isRawFolded c;
     isLiteral := v; isFolded := isFolded c; literalOpt := literalOpt c |}.

Definition with_isFolded (v : bool) (c : Context) : Context :=
  {| src := src c; idx := idx c; size := size c; buf := buf c;
     obuf := obuf c; tokens := tokens c; isRawFolded := isRawFolded c;
     isLiteral := isLiteral c; isFolded := v; literalOpt := literalOpt c |}.

Definition with_literalOpt (v : string) (c : Context) : Context :=
  {| src := src c; idx := idx c; size := size c; buf := buf c;
     obuf := obuf c; tokens := tokens c; isRawFolded := isRawFolded c;
     isLiteral := isLiteral c; isFolded := isFolded c; literalOpt := v |}.

Definition str (l : list ascii) : string := string_of_list_ascii l.

Definition newContext (source : string) : Context :=
  {| src := list_ascii_of_string source; idx := 0;
     size := String.length source; buf := []; obuf := []; tokens := [];
     isRawFolded := false; isLiteral := false; isFolded := false;
     literalOpt := EmptyString |}.

Definition addBuf (r : ascii) (c : Context) : Context :=
  with_buf (buf c ++ [r]) c.

Definition addOriginBuf (r : ascii) (c : Context) : Context :=
  with_obuf (obuf c ++ [r]) c.

Definition progress (num : nat) (c : Context) : Context :=
  with_idx (idx c + num)%nat c.

Definition resetBuffer (c : Context) : Context :=
  with_obuf [] (with_buf [] c).

(** [bufferedSrc]: the left-trimmed semantic buffer. *)
Definition bufferedSrc (c : Context) : string :=
  strings.TrimLeft (str (buf c)) " ".

Definition next (c : Context) : bool := Nat.ltb (idx c) (size c).

Definition nextPos (c : Context) : Z := Z.of_nat (idx c + 1).

Definition charAt (c : Context) (i : nat) : ascii :=
  nth i (src c) zero.

Definition currentChar (c : Context) : ascii := charAt c (idx c).

Definition previousChar (c : Context) : ascii :=
  match idx c with
  | O => zero
  | S i => charAt c i
  end.

Definition nextChar (c : Context) : ascii :=
  if Nat.ltb (idx c + 1) (size c) then charAt c (idx c + 1) else zero.

(** [repeatNum ch]: the count of consecutive [ch] starting at the cursor. *)
Fixpoint countPrefix (ch : ascii) (l : list ascii) : Z :=
  match l with
  | a :: l' => if Ascii.eqb a ch then 1 + countPrefix ch l' else 0
  | [] => 0
  end.

Definition repeatNum (ch : ascii) (c : Context) : Z :=
  countPrefix ch (skipn (idx c) (src c)).

(** The cursor is on the last character (or past it). *)
Definition isEOS (c : Context) : bool :=
  Nat.leb (size c - 1) (idx c).

(** The next character is the last one (or past it). *)
Definition isNextEOS (c : Context) : bool :=
  Nat.leb (size c - 1) (idx c + 1).

(** [source s e]: the characters of the source from [s] up to [e]. *)
Definition source_ (s e : nat) (c : Context) : string :=
  str (firstn (e - s) (skipn s (src c))).

(** Block-scalar mode, in which spaces keep their place in the buffer. *)
Definition isSaveIndentMode (c : Context) : bool :=
  (isLiteral c || isFolded c || isRawFolded c)%bool.

(** [breakLiteral] leaves block-scalar mode; the scanner has flushed the
    accumulated body just before it calls this. *)
Definition breakLiteral (c : Context) : Context :=
  with_literalOpt EmptyString
    (with_isFolded false (with_isRawFolded false (with_isLiteral false c))).

(** [addToken] appends a token; a nil token is ignored. *)
Definition addToken (tk : option Token) (c : Context) : Context :=
  match tk with
  | Some t => with_tokens (tokens c ++ [t]) c
  | None => c
  end.

(** [bufferedToken pos] flushes the buffer as one token, or yields nil
    when nothing but spaces is buffered. *)
Definition ctx_bufferedToken (p : Position) (c : Context)
  : option Token * Context :=
  let source := bufferedSrc c in
  if String.eqb source EmptyString then (None, c)
  else (Some (New source (str (obuf c)) p), resetBuffer c).

(** *** The scanner proper ([scanner/scanner.go]) *)

Definition bufferedToken (s : Scanner) (ctx : Context)
  : option Token * Scanner * Context :=
  match savedPos s with
  | Some p =>
      let (tk, ctx') := ctx_bufferedToken p ctx in
      (tk, set_savedPos None s, ctx')
  | None =>
      let trimmedSrc := strings.TrimLeft (str (buf ctx)) " " in
      let size := strings.len trimmedSrc in
      let (tk, ctx') :=
        ctx_bufferedToken
          {| Line := line s;
             Column := Int.sub (column s) size;
             Offset := Int.sub (offset s) size;
             IndentNum := indentNum s;
             IndentLevel := indentLevel s |} ctx in
      (tk, s, ctx')
  end.

Definition progressColumn (s : Scanner) (ctx : Context) (num : Z)
  : Scanner * Context :=
  (set_offset (Int.add (offset s) num) (set_column (Int.add (column s) num) s),
   progress (Z.to_nat num) ctx).

Definition progressLine (s : Scanner) (ctx : Context) : Scanner * Context :=
  (set_isAnchor false
     (set_isFirstCharAtLine true
        (set_indentNum 0
           (set_offset (Int.add (offset s) 1)
              (set_line (Int.add (line s) 1)
                 (set_column 1 s))))),
   progress 1 ctx).

Definition updateIndent (s : Scanner) (c : ascii) : Scanner :=
  if (isFirstCharAtLine s && Ascii.eqb c " ")%bool
  then set_indentNum (Int.add (indentNum s) 1) s
  else if negb (isFirstCharAtLine s)
  then set_indentState IndentStateKeep s
  else
    let s :=
      if prevIndentNum s <? indentNum s
      then set_indentState IndentStateUp
             (set_indentLevel (Int.add (prevIndentLevel s) 1) s)
      else if prevIndentNum s =? indentNum s
      then set_indentState IndentStateEqual
             (set_indentLevel (prevIndentLevel s) s)
      else
        let s := set_indentState IndentStateDown s in
        if 0 <? prevIndentLevel s
        then set_indentLevel (Int.sub (prevIndentLevel s) 1) s
        else s in
    let s :=
      if 0 <? prevIndentColumn s
      then
        if prevIndentColumn s <? column s
        then set_indentState IndentStateUp s
        else if prevIndentColumn s =? column s
        then set_indentState IndentStateEqual s
        else set_indentState IndentStateDown s
      else s in
    set_isFirstCharAtLine false
      (set_prevIndentLevel (indentLevel s)
         (set_prevIndentColumn 0
            (set_prevIndentNum (indentNum s) s))).

Definition isChangedToIndentStateDown (s : Scanner) : bool :=
  IndentState_eqb (indentState s) IndentStateDown.

Definition isChangedToIndentStateUp (s : Scanner) : bool :=
  IndentState_eqb (indentState s) IndentStateUp.

Definition isChangedToIndentStateEqual (s : Scanner) : bool :=
  IndentState_eqb (indentState s) IndentStateEqual.

Definition addBufferedTokenIfExists (s : Scanner) (ctx : Context)
  : Scanner * Context :=
  let '(tk, s', ctx') := bufferedToken s ctx in
  (s', addToken tk ctx').

Definition backslash : ascii := "\"%char.
Definition newline : ascii := "010"%char.
Definition squote : ascii := "'"%char.
Definition dquote : ascii := Ascii.ascii_of_nat 34.

(** The loop of [scanQuote] over [ctx.src[startIndex:]]; [i] is the index
    of [c] in that slice. *)
Fixpoint scanQuote_loop (s : Scanner) (ch : ascii) (startIndex : nat)
         (rest : list ascii) (i : nat) (p : Z) (ctx : Context)
  : option Token * Z * Context :=
  match rest with
  | [] => (None, p, ctx)
  | c :: rest' =>
      let p := Int.add (Z.of_nat i) 1 in
      let ctx := addOriginBuf c ctx in
      if Ascii.eqb c ch then
        if Ascii.eqb (previousChar ctx) backslash
        then scanQuote_loop s ch startIndex rest' (S i) p ctx
        else
          let value := source_ startIndex (startIndex + i) ctx in
          let tk :=
            if Ascii.eqb ch squote
            then Some (SingleQuote value (str (obuf ctx)) (pos s))
            else if Ascii.eqb ch dquote
            then Some (DoubleQuote value (str (obuf ctx)) (pos s))
            else None in
          (tk, Int.add (strings.len value) 1, ctx)
      else scanQuote_loop s ch startIndex rest' (S i) p ctx
  end.

Definition scanQuote (s : Scanner) (ctx : Context) (ch : ascii)
  : option Token * Z * Context :=
  let ctx := addOriginBuf ch ctx in
  let startIndex := (idx ctx + 1)%nat in
  let ctx := progress 1 ctx in
  scanQuote_loop s ch startIndex (skipn startIndex (src ctx)) 0 0 ctx.

Fixpoint scanTag_loop (s : Scanner) (rest : list ascii) (i : nat) (p : Z)
         (ctx : Context) : option Token * Z * Context :=
  match rest with
  | [] => (None, p, ctx)
  | c :: rest' =>
      let p := Int.add (Z.of_nat i) 1 in
      let ctx := addOriginBuf c ctx in
      if (Ascii.eqb c " " || Ascii.eqb c newline)%bool then
        let value := source_ (idx ctx - 1) (idx ctx + i) ctx in
        (Some (Tag value (str (obuf ctx)) (pos s)), strings.len value, ctx)
      else scanTag_loop s rest' (S i) p ctx
  end.

Definition scanTag (s : Scanner) (ctx : Context)
  : option Token * Z * Context :=
  let ctx := addOriginBuf "!" ctx in
  let ctx := progress 1 ctx in
  scanTag_loop s (skipn (idx ctx) (src ctx)) 0 0 ctx.

Fixpoint scanComment_loop (s : Scanner) (rest : list ascii) (i : nat) (p : Z)
         (ctx : Context) : option Token * Z * Context :=
  match rest with
  | [] => (None, p, ctx)
  | c :: rest' =>
      let p := Int.add (Z.of_nat i) 1 in
      let ctx := addOriginBuf c ctx in
      if Ascii.eqb c newline then
        if Ascii.eqb (previousChar ctx) backslash
        then scanComment_loop s rest' (S i) p ctx
        else
          let value := source_ (idx ctx) (idx ctx + i) ctx in
          (Some (Comment value (str (obuf ctx)) (pos s)),
           Int.add (strings.len value) 1, ctx)
      else scanComment_loop s rest' (S i) p ctx
  end.

Definition scanComment (s : Scanner) (ctx : Context)
  : option Token * Z * Context :=
  let ctx := addOriginBuf "#" ctx in
  let ctx := progress 1 ctx in
  scanComment_loop s (skipn (idx ctx) (src ctx)) 0 0 ctx.

Definition scanLiteral (s : Scanner) (ctx : Context) (c : ascii)
  : Scanner * Context :=
  let ctx :=
    if isEOS ctx
    then addToken (Some (New (bufferedSrc ctx) (str (obuf ctx)) (pos s))) ctx
    else ctx in
  let '(s, ctx) :=
    if Ascii.eqb c newline then
      let ctx := if isLiteral ctx then addBuf c ctx else addBuf " " ctx in
      progressLine s ctx
    else if (isFirstCharAtLine s && Ascii.eqb c " ")%bool then
      progressColumn s ctx 1
    else
      progressColumn s (addBuf c ctx) 1 in
  (s, addOriginBuf c ctx).

(** The options a block-scalar header may carry. *)
Definition isLiteralOpt (opt : string) : bool :=
  match opt with
  | EmptyString => true
  | String a EmptyString =>
      (Ascii.eqb a "+" || Ascii.eqb a "-" || isDigit a)%bool
  | _ => false
  end.

(** The loop of [scanLiteralHeader].  The [break] after the inner switch
    leaves the switch on [c], not the loop: after a bad header the loop
    goes on to the end of the source, and the error is raised there. *)
Fixpoint scanLiteralHeader_loop (s : Scanner) (header : ascii)
         (rest : list ascii) (i : nat) (p : Z) (ctx : Context)
  : Z * option string * Context :=
  match rest with
  | [] => (p, Some "invalid literal header"%string, ctx)
  | c :: rest' =>
      let p := Z.of_nat i in
      let ctx := addOriginBuf c ctx in
      if Ascii.eqb c newline then
        let value := source_ (idx ctx) (idx ctx + i) ctx in
        let opt := strings.TrimRight value " " in
        if isLiteralOpt opt then
          let ctx :=
            if Ascii.eqb header "|"
            then with_isLiteral true
                   (addToken (Some (Literal (String "|" opt) (str (obuf ctx)) (pos s)))
                             ctx)
            else if Ascii.eqb header ">"
            then with_isFolded true
                   (addToken (Some (Folded (String ">" opt) (str (obuf ctx)) (pos s)))
                             ctx)
            else ctx in
          (p, None, with_literalOpt opt (resetBuffer ctx))
        else scanLiteralHeader_loop s header rest' (S i) p ctx
      else scanLiteralHeader_loop s header rest' (S i) p ctx
  end.

Definition scanLiteralHeader (s : Scanner) (ctx : Context)
  : Z * option string * Context :=
  let header := currentChar ctx in
  let ctx := addOriginBuf header ctx in
  let ctx := progress 1 ctx in
  scanLiteralHeader_loop s header (skipn (idx ctx) (src ctx)) 0 0 ctx.

Definition scanNewLine (s : Scanner) (ctx : Context) (c : ascii)
  : Scanner * Context :=
  let s :=
    match buf ctx, savedPos s with
    | _ :: _, None =>
        let p := pos s in
        set_savedPos
          (Some {| Line := Line p;
                   Column := Int.sub (Column p) (strings.len (bufferedSrc ctx));
                   Offset := Offset p;
                   IndentNum := IndentNum p;
                   IndentLevel := IndentLevel p |}) s
    | _, _ => s
    end in
  let '(s, ctx) :=
    if isEOS ctx then addBufferedTokenIfExists s ctx
    else if isAnchor s then addBufferedTokenIfExists s ctx
    else (s, ctx) in
  progressLine s (addOriginBuf c (addBuf " " ctx)).

(** One turn of the loop of [scan] either goes on ([continue], or the end
    of the loop body) or leaves the function ([return]) with [pos]. *)
Inductive Control : Type :=
| Continue (s : Scanner) (ctx : Context)
| Done (p : Z) (s : Scanner) (ctx : Context).

(** The end of the loop body, reached when no case of the switch has
    returned or continued. *)
Definition scanDefault (s : Scanner) (ctx : Context) (c : ascii) : Control :=
  let '(s, ctx) := progressColumn s (addOriginBuf c (addBuf c ctx)) 1 in
  Continue s ctx.

Definition noBuffer (ctx : Context) : bool :=
  String.eqb (bufferedSrc ctx) EmptyString.

(** The switch on the current character. *)
Definition scanSwitch (s : Scanner) (ctx : Context) (p : Z) (c : ascii)
  : Control :=
  if Ascii.eqb c "{" then
    if noBuffer ctx then
      let ctx := addOriginBuf c ctx in
      let ctx := addToken (Some (MappingStart (str (obuf ctx)) (pos s))) ctx in
      let s := set_isStartedFlowMap true s in
      let '(s, ctx) := progressColumn s ctx 1 in
      Done p s ctx
    else scanDefault s ctx c
  else if Ascii.eqb c "}" then
    if (noBuffer ctx || isStartedFlowMap s)%bool then
      let '(s, ctx) := addBufferedTokenIfExists s ctx in
      let ctx := addOriginBuf c ctx in
      let ctx := addToken (Some (MappingEnd (str (obuf ctx)) (pos s))) ctx in
      let s := set_isStartedFlowMap false s in
      let '(s, ctx) := progressColumn s ctx 1 in
      Done p s ctx
    else scanDefault s ctx c
  else if Ascii.eqb c "." then
    if ((indentNum s =? 0) && (repeatNum "." ctx =? 3))%bool then
      let ctx := addToken (Some (DocumentEnd (pos s))) ctx in
      let '(s, ctx) := progressColumn s ctx 3 in
      Done (Int.add p 2) s ctx
    else scanDefault s ctx c
  else if Ascii.eqb c "<" then
    if repeatNum "<" ctx =? 2 then
      let s := set_prevIndentColumn (column s) s in
      let ctx :=
        addToken (Some (MergeKey (str (obuf ctx) ++ "<<") (pos s))) ctx in
      let '(s, ctx) := progressColumn s ctx 1 in
      Done (Int.add p 1) s ctx
    else scanDefault s ctx c
  else if Ascii.eqb c "-" then
    if ((indentNum s =? 0) && (repeatNum "-" ctx =? 3))%bool then
      let '(s, ctx) := addBufferedTokenIfExists s ctx in
      let ctx := addToken (Some (DocumentHeader (pos s))) ctx in
      let '(s, ctx) := progressColumn s ctx 3 in
      Done (Int.add p 2) s ctx
    else if (negb (noBuffer ctx) && isChangedToIndentStateUp s)%bool then
      (* raw folded *)
      let ctx := with_isRawFolded true ctx in
      let ctx := addOriginBuf c (addBuf c ctx) in
      let '(s, ctx) := progressColumn s ctx 1 in
      Continue s ctx
    else if Ascii.eqb (nextChar ctx) " " then
      let '(s, ctx) := addBufferedTokenIfExists s ctx in
      let ctx := addOriginBuf c ctx in
      let tk := SequenceEntry (str (obuf ctx)) (pos s) in
      let s := set_prevIndentColumn (Column (Position_ tk)) s in
      let ctx := addToken (Some tk) ctx in
      let '(s, ctx) := progressColumn s ctx 1 in
      Done p s ctx
    else scanDefault s ctx c
  else if Ascii.eqb c "[" then
    if noBuffer ctx then
      let ctx := addOriginBuf c ctx in
      let ctx := addToken (Some (SequenceStart (str (obuf ctx)) (pos s))) ctx in
      let s := set_isStartedFlowSequence true s in
      let '(s, ctx) := progressColumn s ctx 1 in
      Done p s ctx
    else scanDefault s ctx c
  else if Ascii.eqb c "]" then
    if (noBuffer ctx || isStartedFlowSequence s)%bool then
      let '(s, ctx) := addBufferedTokenIfExists s ctx in
      let ctx := addOriginBuf c ctx in
      let ctx := addToken (Some (SequenceEnd (str (obuf ctx)) (pos s))) ctx in
      let s := set_isStartedFlowSequence false s in
      let '(s, ctx) := progressColumn s ctx 1 in
      Done p s ctx
    else scanDefault s ctx c
  else if Ascii.eqb c "," then
    if (isStartedFlowSequence s || isStartedFlowMap s)%bool then
      let '(s, ctx) := addBufferedTokenIfExists s ctx in
      let ctx := addOriginBuf c ctx in
      let ctx := addToken (Some (CollectEntry (str (obuf ctx)) (pos s))) ctx in
      let '(s, ctx) := progressColumn s ctx 1 in
      Done p s ctx
    else scanDefault s ctx c
  else if Ascii.eqb c ":" then
    let nc := nextChar ctx in
    if (Ascii.eqb nc " " || Ascii.eqb nc newline || isNextEOS ctx)%bool then
      (* mapping value *)
      let '(tk, s, ctx) := bufferedToken s ctx in
      let '(s, ctx) :=
        match tk with
        | Some t =>
            (set_prevIndentColumn (Column (Position_ t)) s, addToken tk ctx)
        | None => (s, ctx)
        end in
      let ctx := addToken (Some (MappingValue (pos s))) ctx in
      let '(s, ctx) := progressColumn s ctx 1 in
      Done p s ctx
    else scanDefault s ctx c
  else if (Ascii.eqb c "|" || Ascii.eqb c ">")%bool then
    if noBuffer ctx then
      let '(progress, err, ctx) := scanLiteralHeader s ctx in
      match err with
      | Some _ =>
          (* TODO: returns syntax error object *)
          Done p s ctx
      | None =>
          let '(s, ctx) := progressColumn s ctx progress in
          let '(s, ctx) := progressLine s ctx in
          Continue s ctx
      end
    else scanDefault s ctx c
  else if Ascii.eqb c "!" then
    if noBuffer ctx then
      let '(token, progress, ctx) := scanTag s ctx in
      let ctx := addToken token ctx in
      let '(s, ctx) := progressColumn s ctx progress in
      let '(s, ctx) :=
        if Ascii.eqb (previousChar ctx) newline
        then progressLine s ctx else (s, ctx) in
      Done (Int.add p progress) s ctx
    else scanDefault s ctx c
  else if Ascii.eqb c "%" then
    if (noBuffer ctx && (indentNum s =? 0))%bool then
      let ctx := addToken (Some (Directive (pos s))) ctx in
      let '(s, ctx) := progressColumn s ctx 1 in
      Done p s ctx
    else scanDefault s ctx c
  else if Ascii.eqb c "?" then
    let nc := nextChar ctx in
    if (noBuffer ctx && Ascii.eqb nc " ")%bool then
      let ctx := addToken (Some (Directive (pos s))) ctx in
      let '(s, ctx) := progressColumn s ctx 1 in
      Done p s ctx
    else scanDefault s ctx c
  else if Ascii.eqb c "&" then
    if noBuffer ctx then
      let '(s, ctx) := addBufferedTokenIfExists s ctx in
      let ctx := addOriginBuf c ctx in
      let ctx := addToken (Some (Anchor (str (obuf ctx)) (pos s))) ctx in
      let '(s, ctx) := progressColumn s ctx 1 in
      let s := set_isAnchor true s in
      Done p s ctx
    else scanDefault s ctx c
  else if Ascii.eqb c "*" then
    if noBuffer ctx then
      let '(s, ctx) := addBufferedTokenIfExists s ctx in
      let ctx := addOriginBuf c ctx in
      let ctx := addToken (Some (Alias (str (obuf ctx)) (pos s))) ctx in
      let '(s, ctx) := progressColumn s ctx 1 in
      Done p s ctx
    else scanDefault s ctx c
  else if Ascii.eqb c "#" then
    let '(s, ctx) := addBufferedTokenIfExists s ctx in
    let '(token, progress, ctx) := scanComment s ctx in
    let ctx := addToken token ctx in
    let '(s, ctx) := progressColumn s ctx progress in
    let '(s, ctx) := progressLine s ctx in
    Done (Int.add p progress) s ctx
  else if (Ascii.eqb c squote || Ascii.eqb c dquote)%bool then
    let '(token, progress, ctx) := scanQuote s ctx c in
    let ctx := addToken token ctx in
    let '(s, ctx) := progressColumn s ctx progress in
    Done (Int.add p progress) s ctx
  else if Ascii.eqb c newline then
    let '(s, ctx) := scanNewLine s ctx c in
    Continue s ctx
  else if Ascii.eqb c " " then
    if (isSaveIndentMode ctx ||
        (negb (isAnchor s) && negb (isFirstCharAtLine s)))%bool then
      let ctx := addOriginBuf c (addBuf c ctx) in
      let '(s, ctx) := progressColumn s ctx 1 in
      Continue s ctx
    else if isFirstCharAtLine s then
      let '(s, ctx) := progressColumn s ctx 1 in
      Continue s (addOriginBuf c ctx)
    else
      let '(s, ctx) := addBufferedTokenIfExists s ctx in
      let '(s, ctx) := progressColumn s ctx 1 in
      Done p (set_isAnchor false s) ctx
  else scanDefault s ctx c.

(** The body of the loop of [scan] for the current character [c]. *)
Definition scanStep (s : Scanner) (ctx : Context) (p : Z) (c : ascii)
  : Control :=
  let s := updateIndent s c in
  if isChangedToIndentStateDown s then
    let '(s, ctx) := addBufferedTokenIfExists s ctx in
    scanSwitch s (breakLiteral ctx) p c
  else if (isLiteral ctx || isFolded ctx || isRawFolded ctx)%bool then
    let '(s, ctx) := scanLiteral s ctx c in
    Continue s ctx
  else if isChangedToIndentStateEqual s then
    (* if first character is \n, buffer expect to raw folded literal *)
    match obuf ctx with
    | o :: _ =>
        if negb (Ascii.eqb o newline)
        then
          (* doesn't raw folded literal *)
          let '(s, ctx) := addBufferedTokenIfExists s ctx in
          scanSwitch s ctx p c
        else scanSwitch s ctx p c
    | [] => scanSwitch s ctx p c
    end
  else scanSwitch s ctx p c.

(** [scan]: every turn of the loop advances the cursor, so the number of
    characters left bounds the turns; [None] says [fuel] was too small. *)
Fixpoint scan_loop (fuel : nat) (s : Scanner) (ctx : Context) (p : Z)
  : option (Z * Scanner * Context) :=
  if next ctx then
    match fuel with
    | O => None
    | S fuel' =>
        let p := nextPos ctx in
        match scanStep s ctx p (currentChar ctx) with
        | Continue s' ctx' => scan_loop fuel' s' ctx' p
        | Done p' s' ctx' => Some (p', s', ctx')
        end
    end
  else
    let '(s, ctx) := addBufferedTokenIfExists s ctx in
    Some (p, s, ctx).

Definition scan (s : Scanner) (ctx : Context)
  : option (Z * Scanner * Context) :=
  scan_loop (size ctx) s ctx 0.

(** A scanner as Go allocates it, before [Init]. *)
Definition zeroScanner : Scanner :=
  {| source := EmptyString; sourcePos := 0; sourceSize := 0;
     line := 0; column := 0; offset := 0;
     prevIndentLevel := 0; prevIndentNum := 0; prevIndentColumn := 0;
     indentLevel := 0; indentNum := 0;
     isFirstCharAtLine := false; isAnchor := false;
     isStartedFlowSequence := false; isStartedFlowMap := false;
     indentState := IndentStateEqual; savedPos := None |}.

(** [Init] prepares the scanner [s] to tokenize the text [src] by setting
    the scanner at the beginning of [src]. *)
Definition Init (s : Scanner) (src : string) : Scanner :=
  {| source := src; sourcePos := 0; sourceSize := strings.len src;
     line := 1; column := 1; offset := 1;
     prevIndentLevel := 0; prevIndentNum := 0; prevIndentColumn := 0;
     indentLevel := 0; indentNum := 0;
     isFirstCharAtLine := true; isAnchor := isAnchor s;
     isStartedFlowSequence := isStartedFlowSequence s;
     isStartedFlowMap := isStartedFlowMap s;
     indentState := indentState s; savedPos := savedPos s |}.

(** The errors of [Scan]: [io.EOF] is the only one. *)
Inductive ScanError : Set := EOF.

Fixpoint dropString (n : nat) (s : string) : string :=
  match n, s with
  | S n', String _ s' => dropString n' s'
  | _, _ => s
  end.

(** [Scan] scans the next token and returns the token collection; the
    source end is indicated by [EOF]. *)
Definition Scan (s : Scanner)
  : option (option Tokens * option ScanError * Scanner) :=
  if sourceSize s <=? sourcePos s then Some (None, Some EOF, s)
  else
    let ctx := newContext (dropString (Z.to_nat (sourcePos s)) (source s)) in
    match scan s ctx with
    | Some (progress, s, ctx) =>
        Some (Some (tokens ctx), None,
              set_sourcePos (Int.add (sourcePos s) progress) s)
    | None => None
    end.

(** *** Notions used to state the properties of the scanner *)

(** A call of [updateIndent] classifies the indent when it is made on the
    first character of a line that is not a space. *)
Definition classifies (s : Scanner) (c : ascii) : bool :=
  (isFirstCharAtLine s && negb (Ascii.eqb c " "))%bool.

(** The indent state given by two columns, or by two indent counts. *)
Definition compareIndent (prev cur : Z) : IndentState :=
  if prev <? cur then IndentStateUp
  else if prev =? cur then IndentStateEqual
  else IndentStateDown.

(** The characters on which the switch of [scan] has a case. *)
Definition indicators : list ascii :=
  ["{"; "}"; "."; "<"; "-"; "["; "]"; ","; ":"; "|"; ">"; "!"; "%"; "?";
   "&"; "*"; "#"; squote; dquote; newline; " "]%char.

(** A plain character: one that the switch sends to its default. *)
Definition plainChar (c : ascii) : bool :=
  negb (existsb (Ascii.eqb c) indicators).

(** A character of the body of a plain scalar: plain, or a space. *)
Definition wordChar (c : ascii) : bool :=
  (plainChar c || Ascii.eqb c " ")%bool.

(** [src[lo:hi]]; out of range it is a run-time panic, here [None]. *)
Definition slice (src : string) (lo hi : Z) : option string :=
  if ((0 <=? lo) && (lo <=? hi) && (hi <=? strings.len src))%bool
  then Some (substring (Z.to_nat lo) (Z.to_nat (hi - lo)) src)
  else None.

(** The token's offset and original lexeme locate it in the source:
    [src[t.Offset-1 : t.Offset-1+len(t.Origin)] == t.Origin]. *)
Definition originAtOffset (src : string) (t : Token) : Prop :=
  slice src (Offset (Position_ t) - 1)
            (Offset (Position_ t) - 1 + strings.len (Origin t))
  = Some (Origin t).

(** The token's offset locates its semantic value, and its original
    lexeme starts [lead] characters earlier. *)
Definition valueAtOffset (src : string) (lead : Z) (t : Token) : Prop :=
  slice src (Offset (Position_ t) - 1)
            (Offset (Position_ t) - 1 + strings.len (Value t))
  = Some (Value t) /\
  slice src (Offset (Position_ t) - 1 - lead)
            (Offset (Position_ t) - 1 - lead + strings.len (Origin t))
  = Some (Origin t).

(** *** Sources on one line

    A simple character is one that starts no quoted scalar, tag, comment,
    block scalar, merge key or explicit key, and is not a newline.  On a
    source of simple characters the scanner keeps the invariant [Inv]
    at the head of the loop of [scan], for the [Scan] call that started
    [b] characters into the source [SRC]; [Post] is what holds when the
    call returns. *)

Definition simpleChar (c : ascii) : bool :=
  negb (existsb (Ascii.eqb c)
          [newline; squote; dquote; "|"; ">"; "!"; "#"; "<"; "?"]%char).

Definition simpleSource (src : string) : bool :=
  forallb simpleChar (list_ascii_of_string src).

(** The original lexeme ends where the semantic value ends: with
    [e = t.Offset - 1 + len(t.Value)], [src[e - len(t.Origin) : e] ==
    t.Origin]. *)
Definition originEndsValue (src : string) (t : Token) : Prop :=
  let e := Offset (Position_ t) - 1 + strings.len (Value t) in
  slice src (e - strings.len (Origin t)) e = Some (Origin t).

Section OneLine.

Variable SRC : list ascii.

(** The same, on the characters of the source. *)
Definition tokenOk (t : Token) : Prop :=
  let e := Offset (Position_ t) - 1 + strings.len (Value t) in
  1 <= Offset (Position_ t) /\
  e <= Z.of_nat (List.length SRC) /\
  exists pre, firstn (Z.to_nat e) SRC = pre ++ list_ascii_of_string (Origin t).

(** What [scan] leaves alone: the source and the place of the call. *)
Record Fixed (b : nat) (s : Scanner) : Prop := {
  fixed_source : source s = str SRC;
  fixed_size : sourceSize s = Z.of_nat (List.length SRC);
  fixed_pos : sourcePos s = Z.of_nat b
}.

Record Inv (b : nat) (s : Scanner) (ctx : Context) : Prop := {
  inv_fixed : Fixed b s;
  inv_le : (b <= List.length SRC)%nat;
  inv_src : src ctx = skipn b SRC;
  inv_size : size ctx = (List.length SRC - b)%nat;
  inv_idx : (idx ctx <= size ctx)%nat;
  inv_offset : offset s = Z.of_nat (b + idx ctx) + 1;
  inv_saved : savedPos s = None;
  inv_mode : isSaveIndentMode ctx = false;
  inv_buf : exists lead, obuf ctx = lead ++ buf ctx;
  inv_obuf : exists pre, firstn (b + idx ctx) SRC = pre ++ obuf ctx;
  inv_first : isFirstCharAtLine s = true -> buf ctx = [];
  inv_tokens : Forall tokenOk (tokens ctx)
}.

Record Post (b : nat) (p : Z) (s : Scanner) (ctx : Context) : Prop := {
  post_fixed : Fixed b s;
  post_pos : p = Z.of_nat (idx ctx);
  post_progress : (1 <= idx ctx)%nat;
  post_idx : (b + idx ctx <= List.length SRC)%nat;
  post_offset : offset s = Z.of_nat (b + idx ctx) + 1;
  post_saved : savedPos s = None;
  post_tokens : Forall tokenOk (tokens ctx)
}.

(** One turn of the loop keeps the invariant and moves the cursor by one
    character, or returns. *)
Definition StepOk (b : nat) (ctx : Context) (r : Control) : Prop :=
  match r with
  | Continue s' ctx' => Inv b s' ctx' /\ idx ctx' = S (idx ctx)
  | Done p s' ctx' => Post b p s' ctx'
  end.

(** Between two calls of [Scan]. *)
Record Between (b : nat) (s : Scanner) : Prop := {
  between_fixed : Fixed b s;
  between_le : (b <= List.length SRC)%nat;
  between_offset : offset s = Z.of_nat b + 1;
  between_saved : savedPos s = None
}.

End OneLine.

(** *** The states of a scan over a plain word

    The source is a word [w] (a plain character, then plain characters
    and spaces) after [k] spaces.  The
    scanner and the context are given after [j] of the spaces, after [i]
    characters of the word, and at the end. *)

Section PlainWord.

Variables (k : nat) (w : list ascii).

Definition wordSource : list ascii := repeat " "%char k ++ w.

Definition wordLevel : Z := if 0 <? Z.of_nat k then 1 else 0.

Definition inIndent (j : nat) : Scanner :=
  {| source := str wordSource; sourcePos := 0;
     sourceSize := Z.of_nat (List.length wordSource);
     line := 1; column := 1 + Z.of_nat j; offset := 1 + Z.of_nat j;
     prevIndentLevel := 0; prevIndentNum := 0; prevIndentColumn := 0;
     indentLevel := 0; indentNum := Z.of_nat j;
     isFirstCharAtLine := true; isAnchor := false;
     isStartedFlowSequence := false; isStartedFlowMap := false;
     indentState := IndentStateEqual; savedPos := None |}.

Definition ctxInIndent (j : nat) : Context :=
  {| src := wordSource; idx := j; size := List.length wordSource;
     buf := []; obuf := repeat " "%char j; tokens := [];
     isRawFolded := false; isLiteral := false; isFolded := false;
     literalOpt := EmptyString |}.

Definition inWord (i : nat) (st : IndentState) : Scanner :=
  {| source := str wordSource; sourcePos := 0;
     sourceSize := Z.of_nat (List.length wordSource);
     line := 1; column := 1 + Z.of_nat (k + i); offset := 1 + Z.of_nat (k + i);
     prevIndentLevel := wordLevel; prevIndentNum := Z.of_nat k;
     prevIndentColumn := 0;
     indentLevel := wordLevel; indentNum := Z.of_nat k;
     isFirstCharAtLine := false; isAnchor := false;
     isStartedFlowSequence := false; isStartedFlowMap := false;
     indentState := st; savedPos := None |}.

Definition ctxInWord (i : nat) : Context :=
  {| src := wordSource; idx := k + i; size := List.length wordSource;
     buf := firstn i w; obuf := repeat " "%char k ++ firstn i w; tokens := [];
     isRawFolded := false; isLiteral := false; isFolded := false;
     literalOpt := EmptyString |}.

(** The one token of the word: its value is the word, its original
    lexeme the whole source, its position that of the word's first
    character. *)
Definition wordToken : Token :=
  New (str w) (str wordSource)
      {| Line := 1; Column := 1 + Z.of_nat k; Offset := 1 + Z.of_nat k;
         IndentNum := Z.of_nat k; IndentLevel := wordLevel |}.

Definition ctxDone : Context :=
  {| src := wordSource; idx := k + List.length w;
     size := List.length wordSource;
     buf := []; obuf := []; tokens := [wordToken];
     isRawFolded := false; isLiteral := false; isFolded := false;
     literalOpt := EmptyString |}.

End PlainWord.

(** *** The value inside the original lexeme

    The original lexeme of a token ends in its value, and the offset of
    the token locates the value in the source:
    [src[t.Offset-1 : t.Offset-1+len(t.Value)] == t.Value]. *)

Definition originEndsInValue (t : Token) : Prop :=
  exists lead, Origin t = (lead ++ Value t)%string.

Definition valueAt (src : string) (t : Token) : Prop :=
  slice src (Offset (Position_ t) - 1)
            (Offset (Position_ t) - 1 + strings.len (Value t))
  = Some (Value t).

(** The tokens a turn of the loop leaves in the context. *)
Definition finalTokens (r : Control) : Tokens :=
  match r with
  | Continue _ ctx' => tokens ctx'
  | Done _ _ ctx' => tokens ctx'
  end.

(** The value the loop of [scanLiteralHeader] cuts out of the text after
    the indicator at its turn [i]. *)
Definition headerValue (text : list ascii) (i : nat) : string :=
  str (firstn i text).

(** *** What every turn of the loop of [scan] does

    A turn leaves the source of the scanner and the text of the context
    alone; it goes on with the cursor further on, or returns a progress
    of one character at least. *)

Definition sameSource (s s' : Scanner) : Prop :=
  source s' = source s /\ sourceSize s' = sourceSize s /\
  sourcePos s' = sourcePos s.

Definition sameText (c c' : Context) : Prop :=
  src c' = src c /\ size c' = size c.

Definition Advances (s : Scanner) (ctx : Context) (r : Control) : Prop :=
  match r with
  | Continue s' ctx' =>
      sameSource s s' /\ sameText ctx ctx' /\ (idx ctx < idx ctx')%nat
  | Done p s' ctx' =>
      sameSource s s' /\ 1 <= p <= 2 * Z.of_nat (size ctx) + 3
  end.

(** *** The first character of a source

    [started src] is the scanner after [updateIndent] has seen the first
    character of [src], which is not a space: the indent is classified as
    equal, at level 0. *)

Definition started (src : string) : Scanner :=
  {| source := src; sourcePos := 0; sourceSize := strings.len src;
     line := 1; column := 1; offset := 1;
     prevIndentLevel := 0; prevIndentNum := 0; prevIndentColumn := 0;
     indentLevel := 0; indentNum := 0;
     isFirstCharAtLine := false; isAnchor := false;
     isStartedFlowSequence := false; isStartedFlowMap := false;
     indentState := IndentStateEqual; savedPos := None |}.

Definition startPos : Position :=
  {| Line := 1; Column := 1; Offset := 1; IndentNum := 0; IndentLevel := 0 |}.

(** The token of a quoted scalar at the start of a source. *)
Definition quoteToken (q : ascii) (body : list ascii) : Token :=
  mk (if Ascii.eqb q squote then SingleQuoteType else DoubleQuoteType)
     (str body) (str (q :: body ++ [q])) startPos.

End scanner.

(** ** Package [lexer]

    Modelled from the spec: [lexer/lexer.go] is not part of the sources at
    hand.  [Tokenize] iterates [Scan] until the input is exhausted,
    collects the tokens in order and sets the forward links. *)

Module lexer.

Fixpoint Tokenize_loop (fuel : nat) (s : scanner.Scanner) (acc : Tokens)
  : option Tokens :=
  match scanner.Scan s with
  | None => None
  | Some (_, Some scanner.EOF, _) => Some acc
  | Some (subTokens, None, s') =>
      match fuel with
      | O => None
      | S fuel' =>
          Tokenize_loop fuel' s'
            (acc ++ match subTokens with Some l => l | None => [] end)
      end
  end.

Definition Tokenize (src : string) : option Tokens :=
  match Tokenize_loop (String.length src)
          (scanner.Init scanner.zeroScanner src) [] with
  | Some tks => Some (link tks)
  | None => None
  end.

End lexer.

(** ** Package [parser] *)

Module parser.

Import errors.
Local Open Scope nat_scope.

(** *** Outcomes

    A Go call returns, fails with an error, or panics on a nil
    dereference.  [NoFuel] is the model's own: the recursion of the
    parser is bounded by a counter, and [NoFuel] says the counter was too
    small (see [parse_has_fuel]). *)

Inductive Outcome (A : Type) : Type :=
| Return (a : A)
| Fail (e : error)
| NilDeref
| NoFuel.

Arguments Return {A} a.
Arguments Fail {A} e.
Arguments NilDeref {A}.
Arguments NoFuel {A}.

(** *** The token cursor

    Modelled from the spec: [parser/context.go] is not part of the
    sources at hand.  The context holds the token sequence, a cursor and
    the mode; [currentToken], [nextToken] and [afterNextToken] look at
    the cursor and one or two tokens ahead and are nil past the end;
    [progress] advances; [next] holds while a current token exists;
    comment tokens are filtered at construction unless [ParseComments]
    is set. *)

Definition Mode := N.

Definition ParseComments : Mode := 1%N.

Record context : Type := {
  idx : nat;
  tokens : Tokens;
  mode : Mode
}.

Definition newContext (tks : Tokens) (m : Mode) : context :=
  let filteredTokens :=
    if N.eqb (N.land m ParseComments) 0%N
    then filter (fun tk => negb (Type_eqb (Typ tk) CommentType)) tks
    else tks in
  {| idx := 0; tokens := filteredTokens; mode := m |}.

(** The parser mutates one context through a pointer and returns
    [(node, error)]: a state and error monad over [context]. *)

Definition M (A : Type) : Type := context -> Outcome (A * context).

Definition ret {A} (a : A) : M A := fun c => Return (a, c).

Definition bind {A B} (m : M A) (k : A -> M B) : M B :=
  fun c =>
    match m c with
    | Return (a, c') => k a c'
    | Fail e => Fail e
    | NilDeref => NilDeref
    | NoFuel => NoFuel
    end.

Definition throw {A} (e : error) : M A := fun _ => Fail e.
Definition panic {A} : M A := fun _ => NilDeref.
Definition noFuel {A} : M A := fun _ => NoFuel.

(** [if err != nil { return nil, errors.Wrapf(err, msg) }] *)
Definition wrapf {A} (m : M A) (msg : string) : M A :=
  fun c =>
    match m c with
    | Fail e => Fail (Wrapf e msg)
    | r => r
    end.

Declare Scope parser_scope.
Delimit Scope parser_scope with parser.
Notation "x <- m ;; k" := (bind m (fun x => k))
  (at level 61, m at next level, right associativity) : parser_scope.
Notation "m ;;; k" := (bind m (fun _ => k))
  (at level 61, right associativity) : parser_scope.
Local Open Scope parser_scope.

Definition next : M bool :=
  fun c => Return (Nat.ltb (idx c) (List.length (tokens c)), c).

Definition currentToken : M (option Token) :=
  fun c => Return (nth_error (tokens c) (idx c), c).

Definition nextToken : M (option Token) :=
  fun c => Return (nth_error (tokens c) (idx c + 1), c).

Definition afterNextToken : M (option Token) :=
  fun c => Return (nth_error (tokens c) (idx c + 2), c).

Definition progress (num : nat) : M unit :=
  fun c => Return (tt, {| idx := idx c + num; tokens := tokens c; mode := mode c |}).

(** The number of tokens from the cursor on; it bounds the iterations of
    every loop of the parser, each of which advances the cursor. *)
Definition remaining : M nat :=
  fun c => Return (List.length (tokens c) - idx c, c).

(** Dereferencing a token pointer. *)
Definition deref {A} (tk : option A) : M A :=
  match tk with
  | Some t => ret t
  | None => panic
  end.

(** *** Scalars and keys *)

Definition parseStringValue (tk : Token) : option ast.Node :=
  match Typ tk with
  | StringType | SingleQuoteType | DoubleQuoteType => Some (ast.StringNode tk)
  | _ => None
  end.

Definition parseMapKey (tk : Token) : option ast.Node :=
  match parseStringValue tk with
  | Some node => Some node
  | None =>
      match Typ tk with
      | MergeKeyType => Some (ast.MergeKeyNode tk)
      | NullType => Some (ast.NullNode tk)
      | _ => None
      end
  end.

Definition parseScalarValue (tk : Token) : option ast.Node :=
  match parseStringValue tk with
  | Some node => Some node
  | None =>
      match Typ tk with
      | NullType => Some (ast.NullNode tk)
      | BoolType => Some (ast.BoolNode tk)
      | IntegerType | BinaryIntegerType | OctetIntegerType | HexIntegerType =>
          Some (ast.IntegerNode tk)
      | FloatType => Some (ast.FloatNode tk)
      | InfinityType => Some (ast.InfinityNode tk)
      | NanType => Some (ast.NanNode tk)
      | _ => None
      end
  end.

(** [validateMapKey] returns the error, if any. *)
Definition validateMapKey (tk : Token) : option error :=
  match Typ tk with
  | StringType =>
      let origin := strings.TrimLeft (Origin tk) "010" in
      if Z.ltb 0 (strings.Index origin "010")
      then Some (ErrSyntax "unexpected key name" (Some tk))
      else None
  | _ => None
  end.

(** [x.GetToken().Position.Column]: a nil token is a nil dereference. *)
Definition tokenColumn (n : ast.Node) : M Z :=
  t <- deref (ast.GetToken n) ;; ret (Column (Position_ t)).

(** *** The sub-parsers

    Each of them calls back into [parseToken]; here that call is the
    variable [parseToken], and the knot is tied below. *)

Section SubParsers.

Variable parseToken : option Token -> M (option ast.Node).

Fixpoint parseMapping_loop (n : nat) (start : option Token)
         (values : list ast.MappingValue) : M (option ast.Node) :=
  more <- next ;;
  if negb more then ret (Some (ast.MappingNode start None true values))
  else
    cur <- currentToken ;;
    tk <- deref cur ;;
    if Type_eqb (Typ tk) MappingEndType
    then ret (Some (ast.MappingNode start (Some tk) true values))
    else
      match n with
      | O => noFuel
      | S n' =>
          if Type_eqb (Typ tk) CollectEntryType
          then progress 1 ;;; parseMapping_loop n' start values
          else
            value <- wrapf (parseToken (Some tk))
                       "failed to parse mapping value in mapping node" ;;
            match value with
            | Some (ast.MappingValueNode mvnode) =>
                progress 1 ;;;
                parseMapping_loop n' start (values ++ [mvnode])
            | Some v =>
                throw (ErrSyntax "failed to parse flow mapping value node"
                                 (ast.GetToken v))
            | None => panic
            end
      end.

Definition parseMapping : M (option ast.Node) :=
  start <- currentToken ;;
  progress 1 ;;;
  n <- remaining ;;
  parseMapping_loop n start [].

Fixpoint parseSequence_loop (n : nat) (start : option Token)
         (values : list (option ast.Node)) : M (option ast.Node) :=
  more <- next ;;
  if negb more then ret (Some (ast.SequenceNode start None true values))
  else
    cur <- currentToken ;;
    tk <- deref cur ;;
    if Type_eqb (Typ tk) SequenceEndType
    then ret (Some (ast.SequenceNode start (Some tk) true values))
    else
      match n with
      | O => noFuel
      | S n' =>
          if Type_eqb (Typ tk) CollectEntryType
          then progress 1 ;;; parseSequence_loop n' start values
          else
            value <- wrapf (parseToken (Some tk))
                       "failed to parse sequence value in flow sequence node" ;;
            progress 1 ;;;
            parseSequence_loop n' start (values ++ [value])
      end.

Definition parseSequence : M (option ast.Node) :=
  start <- currentToken ;;
  progress 1 ;;;
  n <- remaining ;;
  parseSequence_loop n start [].

Definition parseTag : M (option ast.Node) :=
  start <- currentToken ;;
  progress 1 ;;;
  cur <- currentToken ;;
  value <- wrapf (parseToken cur) "failed to parse tag value" ;;
  ret (Some (ast.TagNode start value)).

(** The loop that absorbs the sibling pairs of a block mapping. *)
Fixpoint parseMappingValue_loop (n : nat) (keyColumn : Z)
         (ntk antk : option Token) (values : list ast.MappingValue)
  : M (list ast.MappingValue) :=
  match antk with
  | None => ret values
  | Some a =>
      if negb (Type_eqb (Typ a) MappingValueType) then ret values
      else
        nt <- deref ntk ;;
        if negb (Z.eqb (Column (Position_ nt)) keyColumn) then ret values
        else
          match n with
          | O => noFuel
          | S n' =>
              progress 1 ;;;
              cur <- currentToken ;;
              value <- wrapf (parseToken cur) "failed to parse mapping node" ;;
              v <- deref value ;;
              match v with
              | ast.MappingNode _ _ _ cvalues =>
                  ntk' <- nextToken ;;
                  antk' <- afterNextToken ;;
                  parseMappingValue_loop n' keyColumn ntk' antk'
                                         (values ++ cvalues)
              | ast.MappingValueNode mv =>
                  ntk' <- nextToken ;;
                  antk' <- afterNextToken ;;
                  parseMappingValue_loop n' keyColumn ntk' antk'
                                         (values ++ [mv])
              | _ =>
                  throw (Errorf "failed to parse mapping value node node is %s"
                                (ast.Type_ v))
              end
          end
  end.

Definition parseMappingValue : M (option ast.Node) :=
  cur <- currentToken ;;
  ktk <- deref cur ;;
  match parseMapKey ktk with
  | None =>
      throw (ErrSyntax "unexpected mapping 'key'. key is undefined" (Some ktk))
  | Some key =>
      kt <- deref (ast.GetToken key) ;;
      match validateMapKey kt with
      | Some err => throw (Wrapf err "validate mapping key error")
      | None =>
          if negb (ast.isScalarNode key)
          then throw (ErrSyntax "unexpected mapping 'key', key is not scalar value"
                                (ast.GetToken key))
          else
            progress 1 ;;;
            tk <- currentToken ;;
            progress 1 ;;;
            vtk <- currentToken ;;
            value <- match vtk with
                     | None =>
                         t <- deref tk ;;
                         ret (ast.NullNode (New "null" "null" (Position_ t)))
                     | Some _ =>
                         v <- wrapf (parseToken vtk)
                                "failed to parse mapping 'value' node" ;;
                         deref v
                     end ;;
            keyColumn <- tokenColumn key ;;
            valueColumn <- tokenColumn value ;;
            check <-
              (if Z.eqb keyColumn valueColumn
               then
                 if ast.NodeType_eq_dec (ast.Type_ value) ast.StringType
                 then
                   ntk <- nextToken ;;
                   match ntk with
                   | None =>
                       throw (ErrSyntax "could not found expected ':' token"
                                        (ast.GetToken value))
                   | Some nt =>
                       if (negb (Type_eqb (Typ nt) MappingValueType) &&
                           negb (Type_eqb (Typ nt) SequenceEntryType))%bool
                       then throw (ErrSyntax "could not found expected ':' token"
                                             (ast.GetToken value))
                       else ret tt
                   end
                 else ret tt
               else ret tt) ;;
            let mvnode := ast.mkMappingValue tk key value in
            ntk <- nextToken ;;
            antk <- afterNextToken ;;
            n <- remaining ;;
            values <- parseMappingValue_loop n keyColumn ntk antk [mvnode] ;;
            if Nat.eqb (List.length values) 1
            then ret (Some (ast.MappingValueNode mvnode))
            else ret (Some (ast.MappingNode tk None false values))
      end
  end.

Fixpoint parseSequenceEntry_loop (n : nat) (start : option Token)
         (curColumn : Z) (tk : Token) (values : list (option ast.Node))
  : M (option ast.Node) :=
  if negb (Type_eqb (Typ tk) SequenceEntryType)
  then ret (Some (ast.SequenceNode start None false values))
  else
    match n with
    | O => noFuel
    | S n' =>
        progress 1 ;;;
        cur <- currentToken ;;
        value <- wrapf (parseToken cur) "failed to parse sequence" ;;
        let values' := values ++ [value] in
        ntk <- nextToken ;;
        match ntk with
        | None => ret (Some (ast.SequenceNode start None false values'))
        | Some tk' =>
            if negb (Type_eqb (Typ tk') SequenceEntryType)
            then ret (Some (ast.SequenceNode start None false values'))
            else if negb (Z.eqb (Column (Position_ tk')) curColumn)
            then ret (Some (ast.SequenceNode start None false values'))
            else
              progress 1 ;;;
              parseSequenceEntry_loop n' start curColumn tk' values'
        end
    end.

Definition parseSequenceEntry : M (option ast.Node) :=
  cur <- currentToken ;;
  tk <- deref cur ;;
  n <- remaining ;;
  parseSequenceEntry_loop n cur (Column (Position_ tk)) tk [].

Definition parseAnchor : M (option ast.Node) :=
  tk <- currentToken ;;
  ntk <- nextToken ;;
  match ntk with
  | None =>
      throw (ErrSyntax "unexpected anchor. anchor name is undefined" tk)
  | Some _ =>
      progress 1 ;;;
      cur <- currentToken ;;
      name <- wrapf (parseToken cur) "failed to parser anchor name node" ;;
      ntk' <- nextToken ;;
      match ntk' with
      | None =>
          cur' <- currentToken ;;
          throw (ErrSyntax "unexpected anchor. anchor value is undefined" cur')
      | Some _ =>
          progress 1 ;;;
          cur' <- currentToken ;;
          value <- wrapf (parseToken cur') "failed to parser anchor name node" ;;
          ret (Some (ast.AnchorNode tk name value))
      end
  end.

Definition parseAlias : M (option ast.Node) :=
  tk <- currentToken ;;
  ntk <- nextToken ;;
  match ntk with
  | None =>
      throw (ErrSyntax "unexpected alias. alias name is undefined" tk)
  | Some _ =>
      progress 1 ;;;
      cur <- currentToken ;;
      name <- wrapf (parseToken cur) "failed to parser alias name node" ;;
      ret (Some (ast.AliasNode tk name))
  end.

Definition parseDirective : M (option ast.Node) :=
  start <- currentToken ;;
  progress 1 ;;;
  cur <- currentToken ;;
  value <- wrapf (parseToken cur) "failed to parse directive value" ;;
  progress 1 ;;;
  cur' <- currentToken ;;
  tk <- deref cur' ;;
  if negb (Type_eqb (Typ tk) DocumentHeaderType)
  then throw (ErrSyntax "unexpected directive value. document not started" cur')
  else ret (Some (ast.DirectiveNode start value)).

Definition parseLiteral : M (option ast.Node) :=
  start <- currentToken ;;
  progress 1 ;;;
  cur <- currentToken ;;
  value <- wrapf (parseToken cur) "failed to parse literal/folded value" ;;
  match value with
  | Some (ast.StringNode stk) => ret (Some (ast.LiteralNode start stk))
  | Some v =>
      throw (ErrSyntax "unexpected token. required string token" (ast.GetToken v))
  | None => panic
  end.

Definition parseDocument : M (option ast.Node) :=
  start <- currentToken ;;
  progress 1 ;;;
  cur <- currentToken ;;
  body <- wrapf (parseToken cur) "failed to parse document body" ;;
  ntk <- nextToken ;;
  match ntk with
  | Some nt =>
      if Type_eqb (Typ nt) DocumentEndType
      then progress 1 ;;;
           ret (Some (ast.DocumentNode (ast.mkDocument start ntk body)))
      else ret (Some (ast.DocumentNode (ast.mkDocument start None body)))
  | None => ret (Some (ast.DocumentNode (ast.mkDocument start None body)))
  end.

(** The body of [parseToken], for a token that is not nil. *)
Definition parseToken_body (tk : Token) : M (option ast.Node) :=
  if NextTypeIs tk MappingValueType then parseMappingValue
  else
    match parseScalarValue tk with
    | Some node => ret (Some node)
    | None =>
        match Typ tk with
        | DocumentHeaderType => parseDocument
        | MappingStartType => parseMapping
        | SequenceStartType => parseSequence
        | SequenceEntryType => parseSequenceEntry
        | AnchorType => parseAnchor
        | AliasType => parseAlias
        | DirectiveType => parseDirective
        | TagType => parseTag
        | LiteralType | FoldedType => parseLiteral
        | _ => ret None
        end
    end.

End SubParsers.

(** [parseToken]: [tk.NextType()] dereferences [tk], so a nil token is a
    nil dereference.  [fuel] bounds the depth of the recursion. *)
Fixpoint parseToken (fuel : nat) (tk : option Token) : M (option ast.Node) :=
  match tk with
  | None => panic
  | Some t =>
      match fuel with
      | O => noFuel
      | S fuel' => parseToken_body (parseToken fuel') t
      end
  end.

Fixpoint parse_loop (fuel n : nat) (docs : list ast.Document)
  : M (list ast.Document) :=
  more <- next ;;
  if negb more then ret docs
  else
    match n with
    | O => noFuel
    | S n' =>
        cur <- currentToken ;;
        node <- wrapf (parseToken fuel cur) "failed to parse" ;;
        progress 1 ;;;
        match node with
        | None => parse_loop fuel n' docs
        | Some (ast.DocumentNode doc) => parse_loop fuel n' (docs ++ [doc])
        | Some nd =>
            parse_loop fuel n' (docs ++ [ast.mkDocument None None (Some nd)])
        end
    end.

Definition finish {A B} (f : A -> B) (r : Outcome (A * context)) : Outcome B :=
  match r with
  | Return (a, _) => Return (f a)
  | Fail e => Fail e
  | NilDeref => NilDeref
  | NoFuel => NoFuel
  end.

(** [parser.parse].  Every nested call of [parseToken] comes after the
    cursor has advanced, so the number of tokens bounds the depth. *)
Definition parse (tks : Tokens) (m : Mode) : Outcome ast.File :=
  let ctx := newContext tks m in
  let size := List.length (tokens ctx) in
  finish (fun docs => {| ast.Name := EmptyString; ast.Docs := docs |})
         (parse_loop size size [] ctx).

Definition wrapOutcome {A} (r : Outcome A) (msg : string) : Outcome A :=
  match r with
  | Fail e => Fail (Wrapf e msg)
  | _ => r
  end.

Definition Parse (tks : Tokens) (m : Mode) : Outcome ast.File :=
  wrapOutcome (parse tks m) "failed to parse".

(** [ParseBytes] parse from byte slice, and returns [ast.File]. *)
Definition ParseBytes (bytes : string) (m : Mode) : Outcome ast.File :=
  match lexer.Tokenize bytes with
  | Some tks => wrapOutcome (Parse tks m) "failed to parse"
  | None => NoFuel
  end.

(** *** Notions used to state the properties of the parser *)

(** A computation is [forward] when every run that returns leaves the
    token sequence and the mode as they were and the cursor where it was
    or further on. *)
Definition forward {A} (m : M A) : Prop :=
  forall c r c', m c = Return (r, c') ->
    tokens c' = tokens c /\ mode c' = mode c /\ idx c <= idx c'.

(** A computation [produces] when every run that returns gives a node. *)
Definition produces (m : M (option ast.Node)) : Prop :=
  forall c r c', m c = Return (r, c') -> r <> None.

(** The tokens for which [parseToken] selects a sub-parser or builds a
    scalar: those followed by [':'], the scalars, and the kinds of the
    dispatch. *)
Definition isSome {A} (o : option A) : bool :=
  match o with
  | Some _ => true
  | None => false
  end.

Definition yieldsNode (t : Token) : bool :=
  (NextTypeIs t MappingValueType
   || isSome (parseScalarValue t)
   || match Typ t with
      | DocumentHeaderType | MappingStartType | SequenceStartType
      | SequenceEntryType | AnchorType | AliasType | DirectiveType
      | TagType | LiteralType | FoldedType => true
      | _ => false
      end)%bool.

(** A scalar token that is not a mapping key. *)
Definition isScalarToken (t : Token) : bool :=
  (negb (NextTypeIs t MappingValueType) && isSome (parseScalarValue t))%bool.

(** The items of a flat flow sequence: commas and scalars. *)
Definition flowItem (t : Token) : bool :=
  (Type_eqb (Typ t) CollectEntryType || isScalarToken t)%bool.

Fixpoint flowValues (body : list Token) : list (option ast.Node) :=
  match body with
  | [] => []
  | t :: rest =>
      if Type_eqb (Typ t) CollectEntryType then flowValues rest
      else parseScalarValue t :: flowValues rest
  end.

(** The number of tokens from the cursor on. *)
Definition left_ (c : context) : nat := List.length (tokens c) - idx c.

(** *** Block sequences, in the words of the design

    [continues col c] holds when the token after the cursor of [c] is a
    [SequenceEntry] whose column is [col].  [BlockEntries rec col c vs c']
    describes the entries of a block sequence read from a context [c]
    whose cursor is on a ['-'] token: skip the ['-'], parse the value,
    append it; go on to the next ['-'] while [continues] holds, and stop
    the first time it does not, leaving the cursor on the last value. *)

Definition continues (col : Z) (c : context) : bool :=
  match nth_error (tokens c) (idx c + 1) with
  | Some tk =>
      (Type_eqb (Typ tk) SequenceEntryType && Z.eqb (Column (Position_ tk)) col)%bool
  | None => false
  end.

Definition skip (c : context) : context :=
  {| idx := idx c + 1; tokens := tokens c; mode := mode c |}.

Inductive BlockEntries (rec : option Token -> M (option ast.Node)) (col : Z)
  : context -> list (option ast.Node) -> context -> Prop :=
| BlockEntries_last c v c1 :
    rec (nth_error (tokens c) (idx c + 1)) (skip c) = Return (v, c1) ->
    continues col c1 = false ->
    BlockEntries rec col c [v] c1
| BlockEntries_more c v c1 vs c2 :
    rec (nth_error (tokens c) (idx c + 1)) (skip c) = Return (v, c1) ->
    continues col c1 = true ->
    BlockEntries rec col (skip c1) vs c2 ->
    BlockEntries rec col c (v :: vs) c2.

(** *** Block mapping groups, in the words of the design

    [FirstPair rec c ktk mv c1] describes the first pair of a group read
    from a context [c] whose cursor is on the key token [ktk]: the key
    is one that [parseMapKey] builds and [validateMapKey] accepts; the
    pair [mv] holds the token after the key (the [':']) as its start,
    the key, and the value -- a Null at the position of the [':'] when
    the stream ends there, else the node [rec] parses from the token
    after the [':']; a plain string value in the column of the key is
    accepted only when a [':'] or a ['-'] follows it.  [c1] is the
    context the value leaves.

    [follows kc c] holds when the token after the cursor of [c] is at the
    column [kc] and the token after that one is a [':']: one more pair
    of the group follows.  [Siblings rec kc c vs c'] describes the pairs
    accumulated after the first: while [follows] holds, step to the next
    token and parse it with [rec]; a pair is appended, the pairs of a
    mapping are appended one by one; stop the first time [follows] does
    not hold. *)

Definition valueFits (ktk vt : Token) (value : ast.Node) (c : context) : bool :=
  if Z.eqb (Column (Position_ ktk)) (Column (Position_ vt)) then
    if ast.NodeType_eq_dec (ast.Type_ value) ast.StringType then
      match nth_error (tokens c) (idx c + 1) with
      | Some nt =>
          (Type_eqb (Typ nt) MappingValueType
           || Type_eqb (Typ nt) SequenceEntryType)%bool
      | None => false
      end
    else true
  else true.

Inductive FirstPair (rec : option Token -> M (option ast.Node))
  : context -> Token -> ast.MappingValue -> context -> Prop :=
| FirstPair_null c ktk key colon :
    nth_error (tokens c) (idx c) = Some ktk ->
    parseMapKey ktk = Some key ->
    validateMapKey ktk = None ->
    nth_error (tokens c) (idx c + 1) = Some colon ->
    nth_error (tokens c) (idx c + 2) = None ->
    FirstPair rec c ktk
      (ast.mkMappingValue (Some colon) key
         (ast.NullNode (New "null" "null" (Position_ colon))))
      (skip (skip c))
| FirstPair_value c ktk key vtk value vt c1 :
    nth_error (tokens c) (idx c) = Some ktk ->
    parseMapKey ktk = Some key ->
    validateMapKey ktk = None ->
    nth_error (tokens c) (idx c + 2) = Some vtk ->
    rec (Some vtk) (skip (skip c)) = Return (Some value, c1) ->
    ast.GetToken value = Some vt ->
    valueFits ktk vt value c1 = true ->
    FirstPair rec c ktk
      (ast.mkMappingValue (nth_error (tokens c) (idx c + 1)) key value) c1.

Definition follows (kc : Z) (c : context) : bool :=
  match nth_error (tokens c) (idx c + 2), nth_error (tokens c) (idx c + 1) with
  | Some a, Some nt =>
      (Type_eqb (Typ a) MappingValueType
       && Z.eqb (Column (Position_ nt)) kc)%bool
  | _, _ => false
  end.

Inductive Siblings (rec : option Token -> M (option ast.Node)) (kc : Z)
  : context -> list ast.MappingValue -> context -> Prop :=
| Siblings_end c :
    follows kc c = false ->
    Siblings rec kc c [] c
| Siblings_pair c mv c1 vs c2 :
    follows kc c = true ->
    rec (nth_error (tokens c) (idx c + 1)) (skip c)
      = Return (Some (ast.MappingValueNode mv), c1) ->
    Siblings rec kc c1 vs c2 ->
    Siblings rec kc c (mv :: vs) c2
| Siblings_mapping c s e f cvalues c1 vs c2 :
    follows kc c = true ->
    rec (nth_error (tokens c) (idx c + 1)) (skip c)
      = Return (Some (ast.MappingNode s e f cvalues), c1) ->
    Siblings rec kc c1 vs c2 ->
    Siblings rec kc c (cvalues ++ vs) c2.

(** The node a group is returned as: the bare pair, or the mapping that
    starts where the first pair starts and holds every pair. *)
Definition groupNode (mv : ast.MappingValue) (vs : list ast.MappingValue)
  : ast.Node :=
  match vs with
  | [] => ast.MappingValueNode mv
  | _ :: _ => ast.MappingNode (ast.MVStart mv) None false (mv :: vs)
  end.

(** *** The top-level nodes, in the words of the design

    [TopLevel rec c nodes] describes the nodes read from the context [c]
    to the end of the stream: while a token is left, parse one node with
    [rec] from the token at the cursor and step over the token the
    cursor is left on; a nil result is no node.  [docOf] is the document
    of a node: the node itself when it is a document, else a document
    without markers that has the node for its body. *)

Inductive TopLevel (rec : option Token -> M (option ast.Node))
  : context -> list ast.Node -> Prop :=
| TopLevel_end c :
    List.length (tokens c) <= idx c ->
    TopLevel rec c []
| TopLevel_nil c c1 nodes :
    idx c < List.length (tokens c) ->
    rec (nth_error (tokens c) (idx c)) c = Return (None, c1) ->
    TopLevel rec (skip c1) nodes ->
    TopLevel rec c nodes
| TopLevel_node c nd c1 nodes :
    idx c < List.length (tokens c) ->
    rec (nth_error (tokens c) (idx c)) c = Return (Some nd, c1) ->
    TopLevel rec (skip c1) nodes ->
    TopLevel rec c (nd :: nodes).

Definition docOf (nd : ast.Node) : ast.Document :=
  match nd with
  | ast.DocumentNode doc => doc
  | _ => ast.mkDocument None None (Some nd)
  end.

(** *** Block mappings of scalar pairs

    A pair is a key token, the [':'] token and a value token.  [pairOk kc]
    says the key is a plain string at column [kc] that [validateMapKey]
    accepts and that is followed by [':'], and the value a scalar at
    another column. *)

Definition Pair : Type := (Token * Token * Token)%type.

Definition pairTokens (p : Pair) : Tokens :=
  let '(k, c, v) := p in [k; c; v].

Definition pairOk (kc : Z) (p : Pair) : Prop :=
  let '(k, c, v) := p in
  Typ k = StringType /\ NextTypeIs k MappingValueType = true /\
  validateMapKey k = None /\ Column (Position_ k) = kc /\
  Typ c = MappingValueType /\
  isScalarToken v = true /\ Column (Position_ v) <> kc.

Definition pairValue (p : Pair) : ast.MappingValue :=
  let '(k, c, v) := p in
  ast.mkMappingValue (Some c) (ast.StringNode k)
    (match parseScalarValue v with
     | Some nd => nd
     | None => ast.NullNode v
     end).

(** The node of a group of pairs: the bare pair, or the mapping that
    starts at the first [':']. *)
Definition pairsNode (p : Pair) (ps : list Pair) : ast.Node :=
  match ps with
  | [] => ast.MappingValueNode (pairValue p)
  | _ :: _ =>
      ast.MappingNode (Some (snd (fst p))) None false
        (map pairValue (p :: ps))
  end.

(** *** Streams with their forward links set

    In a [linked] stream the [Next] of each token is the kind of the token
    that follows it, and nil for the last one: the state in which the
    lexer hands a stream over. *)

Definition optType_eqb (a b : option Type_) : bool :=
  match a, b with
  | Some x, Some y => Type_eqb x y
  | None, None => true
  | _, _ => false
  end.

Fixpoint linked (tks : Tokens) : bool :=
  match tks with
  | [] => true
  | t :: rest =>
      (optType_eqb (Next t)
         (match rest with t' :: _ => Some (Typ t') | [] => None end)
       && linked rest)%bool
  end.

(** [errors.Cause(err)] is a syntax error. *)
Definition isSyntaxError (e : error) : bool :=
  match Cause e with
  | ErrSyntax _ _ => true
  | _ => false
  end.

(** A computation that, on a linked stream, fails with syntax errors
    only. *)
Definition failsSyntax {A} (m : M A) : Prop :=
  forall c e, linked (tokens c) = true -> m c = Fail e ->
    isSyntaxError e = true.

(** The nodes a block mapping group is returned as. *)
Definition isPairs (r : option ast.Node) : bool :=
  match r with
  | Some (ast.MappingValueNode _) | Some (ast.MappingNode _ _ _ _) => true
  | _ => false
  end.

End parser.

(** ** Sample streams

    Token streams of small sources, with their forward links set. *)

Module samples.

Local Open Scope string_scope.

Definition at_ (l c o : Z) : Position :=
  {| Line := l; Column := c; Offset := o; IndentNum := 0; IndentLevel := 0 |}.

(** [a: 1] *)
Definition pairStream : Tokens :=
  link [New "a" "a" (at_ 1 1 1); MappingValue (at_ 1 2 2);
        New "1" " 1" (at_ 1 4 4)].

(** [a: 1], then [b: 2] on the next line *)
Definition twoPairStream : Tokens :=
  link [New "a" "a" (at_ 1 1 1); MappingValue (at_ 1 2 2);
        New "1" " 1" (at_ 1 4 4);
        New "b" "b" (at_ 2 1 6); MappingValue (at_ 2 2 7);
        New "2" " 2" (at_ 2 4 9)].

(** [x: 1], then [a #c], then [: 2]: a comment between a key and its
    [':']. *)
Definition commentedKey : string :=
  "x: 1" ++ String "010" ("a #c" ++ String "010" ": 2").

(** [a:] *)
Definition keyStream : Tokens :=
  link [New "a" "a" (at_ 1 1 1); MappingValue (at_ 1 2 2)].

(** [- 1], then [- 2] on the next line *)
Definition entryStream : Tokens :=
  link [SequenceEntry "-" (at_ 1 1 1); New "1" " 1" (at_ 1 3 3);
        SequenceEntry "-" (at_ 2 1 5); New "2" " 2" (at_ 2 3 7)].

(** A flow mapping with a scalar for an element. *)
Definition scalarInMapStream : Tokens :=
  link [MappingStart "{" (at_ 1 1 1); New "a" "a" (at_ 1 2 2);
        MappingEnd "}" (at_ 1 3 3)].

(** A directive followed by one scalar and nothing else: the text [%x]. *)
Definition directiveStream : Tokens :=
  link [Directive (at_ 1 1 1); New "x" "x" (at_ 1 2 2)].

(** Streams that end right after a marker token. *)
Definition loneDirective : Tokens := [Directive (at_ 1 1 1)].
Definition loneTag : Tokens := [Tag "!t" "!t " (at_ 1 1 1)].
Definition loneLiteral : Tokens := [Literal "|" "|" (at_ 1 1 1)].
Definition loneHeader : Tokens := [DocumentHeader (at_ 1 1 1)].
Definition loneAnchor : Tokens := [Anchor "&" (at_ 1 1 1)].

(** An opening brace and nothing else. *)
Definition openMapStream : Tokens := [MappingStart "{" (at_ 1 1 1)].

(** An opening bracket and one scalar. *)
Definition openSeqStart : Token := SequenceStart "[" (at_ 1 1 1).
Definition openSeqBody : Tokens := [New "a" "a" (at_ 1 2 2)].

(** One scalar. *)
Definition scalarStream : Tokens := [New "a" "a" (at_ 1 1 1)].

(** [1: a], the key an integer. *)
Definition intKeyStream : Tokens :=
  link [New "1" "1" (at_ 1 1 1); MappingValue (at_ 1 2 2);
        New "a" " a" (at_ 1 4 4)].

(** A closing bracket for the element of a flow mapping. *)
Definition bracketInMapStream : Tokens :=
  [MappingStart "{" (at_ 1 1 1); SequenceEnd "]" (at_ 1 2 2)].

(** [a: 1], then [b: 2] on the next line, the forward link of [b] not
    set. *)
Definition unlinkedPairs : Tokens :=
  [ {| Typ := StringType; Value := "a"; Origin := "a";
       Position_ := at_ 1 1 1; Next := Some MappingValueType |};
    MappingValue (at_ 1 2 2); New "1" " 1" (at_ 1 4 4);
    New "b" "b" (at_ 2 1 6); MappingValue (at_ 2 2 7);
    New "2" " 2" (at_ 2 4 9) ].

(** A key written over two lines. *)
Definition twoLineKey : Token :=
  New "a b" (String "a" (String "010" "b")) (at_ 1 1 1).

Definition cursorAt (i : nat) (tks : Tokens) : parser.context :=
  {| parser.idx := i; parser.tokens := tks; parser.mode := 0%N |}.

(** A block-scalar header with a bad option: a bar, an [x], a newline. *)
Definition badHeader : string := String "|" (String "x" (String "010" EmptyString)).

End samples.

(** * Properties of the parser *)

Module ParserFacts.

Import errors parser.
Local Open Scope nat_scope.
Local Open Scope parser_scope.

(** ** The monad *)

Lemma bind_Return {A B} (m : M A) (k : A -> M B) c r :
  bind m k c = Return r ->
  exists a c1, m c = Return (a, c1) /\ k a c1 = Return r.
Proof.
  unfold bind; intros H.
  destruct (m c) as [[a c1]| | |]; try discriminate.
  exists a, c1; split; [reflexivity | exact H].
Qed.

Lemma bind_step {A B} (m : M A) (k : A -> M B) c a c1 :
  m c = Return (a, c1) -> bind m k c = k a c1.
Proof. unfold bind; intros ->; reflexivity. Qed.

Lemma bind_assoc {A B C} (m : M A) (f : A -> M B) (g : B -> M C) c :
  bind (bind m f) g c = bind m (fun a => bind (f a) g) c.
Proof. unfold bind; destruct (m c) as [[a c1]| | |]; reflexivity. Qed.

Lemma wrapf_Return {A} (m : M A) msg c r :
  wrapf m msg c = Return r -> m c = Return r.
Proof.
  unfold wrapf; destruct (m c); intros H; try discriminate; exact H.
Qed.

Lemma wrapf_step {A} (m : M A) msg c r :
  m c = Return r -> wrapf m msg c = Return r.
Proof. unfold wrapf; intros ->; reflexivity. Qed.

Lemma deref_Return {A} (o : option A) c a c1 :
  deref o c = Return (a, c1) -> o = Some a /\ c1 = c.
Proof.
  destruct o; cbn; intros H; inversion H; auto.
Qed.

(** Inversion of a run that returned: split the binds, name the pieces. *)
Ltac run_inv H :=
  repeat match type of H with
    | bind _ _ _ = Return _ =>
        let a := fresh "a" in
        let c := fresh "c" in
        let E := fresh "E" in
        apply bind_Return in H as (a & c & E & H)
    end.

(** ** Block mapping groups *)

Lemma parseMappingValue_loop_acc rec n kc ntk antk values c values' c' :
  parseMappingValue_loop rec n kc ntk antk values c = Return (values', c') ->
  exists extra, values' = values ++ extra.
Proof.
  revert ntk antk values c.
  induction n as [|n IH]; intros ntk antk values c H; cbn in H.
  - destruct antk as [a|]; [|inversion H; exists []; now rewrite app_nil_r].
    destruct (negb (Type_eqb (Typ a) MappingValueType));
      [inversion H; exists []; now rewrite app_nil_r|].
    run_inv H.
    destruct (negb (Column (Position_ a0) =? kc)%Z);
      [inversion H; exists []; now rewrite app_nil_r|discriminate].
  - destruct antk as [a|]; [|inversion H; exists []; now rewrite app_nil_r].
    destruct (negb (Type_eqb (Typ a) MappingValueType));
      [inversion H; exists []; now rewrite app_nil_r|].
    run_inv H.
    destruct (negb (Column (Position_ a0) =? kc)%Z);
      [inversion H; exists []; now rewrite app_nil_r|].
    run_inv H.
    destruct a4; try discriminate; run_inv H; apply IH in H as [extra ->].
    + exists (mv :: extra). now rewrite <- app_assoc.
    + exists (Values ++ extra). now rewrite <- app_assoc.
Qed.

(** Keys built by [parseMapKey] are scalars that hold the key token. *)
Lemma parseMapKey_Some ktk key :
  parseMapKey ktk = Some key ->
  ast.GetToken key = Some ktk /\ ast.isScalarNode key = true.
Proof.
  unfold parseMapKey, parseStringValue.
  destruct (Typ ktk); intros H; inversion H; subst; cbn; auto.
Qed.

(** C6.  In a block mapping group whose [':'] token is the last token of
    the stream (a key token [ktk] at the cursor, linked to a following
    [':'], the token [colon] after it, and nothing behind), the parser
    returns the pair whose value is a Null node synthesized at the
    position of the [':'] token. *)
Theorem parseMappingValue_null_at_colon fuel c ktk key colon :
  nth_error (tokens c) (idx c) = Some ktk ->
  NextTypeIs ktk MappingValueType = true ->
  parseMapKey ktk = Some key ->
  validateMapKey ktk = None ->
  nth_error (tokens c) (idx c + 1) = Some colon ->
  List.length (tokens c) = idx c + 2 ->
  let null := New "null" "null" (Position_ colon) in
  parseToken (S fuel) (Some ktk) c =
    Return (Some (ast.MappingValueNode
                    (ast.mkMappingValue (Some colon) key (ast.NullNode null))),
            {| idx := idx c + 1 + 1; tokens := tokens c; mode := mode c |})
  /\ Position_ null = Position_ colon.
Proof.
  intros Hk Hnext Hkey Hval Hcolon Hlen null.
  split; [|reflexivity].
  destruct (parseMapKey_Some _ _ Hkey) as [Hget Hscalar].
  cbn [parseToken]. unfold parseToken_body. rewrite Hnext.
  unfold parseMappingValue.
  unfold bind at 1. unfold currentToken at 1. rewrite Hk.
  unfold bind at 1. cbn [deref ret]. rewrite Hkey.
  unfold bind at 1. rewrite Hget. cbn [deref ret].
  rewrite Hval, Hscalar. cbn [negb].
  unfold bind at 1. unfold progress at 1.
  unfold bind at 1. unfold currentToken at 1. cbn [idx tokens]. rewrite Hcolon.
  unfold bind at 1. unfold progress at 1. cbn [idx tokens mode].
  unfold bind at 1. unfold currentToken at 1. cbn [idx tokens].
  assert (Hend : forall k, nth_error (tokens c) (idx c + 1 + 1 + k) = None)
    by (intros k; apply nth_error_None; lia).
  generalize (Hend 0); rewrite Nat.add_0_r; intros ->.
  unfold bind at 1. cbn [deref ret bind].
  unfold tokenColumn. rewrite Hget. cbn [deref ret bind ast.GetToken].
  fold null.
  assert (Hty : ast.Type_ (ast.NullNode null) = ast.NullType) by reflexivity.
  replace (List.length (tokens c) - (idx c + 1 + 1)) with 0 in * by lia.
  destruct (Column (Position_ ktk) =? Column (Position_ null))%Z;
    rewrite ?Hty;
    unfold bind, nextToken, afterNextToken, remaining, ret;
    cbn -[nth_error Nat.add Nat.sub];
    rewrite (Hend 1), (Hend 2);
    replace (List.length (tokens c) - (idx c + 1 + 1)) with 0 by lia;
    reflexivity.
Qed.

(** ** The cursor only moves forward *)

Lemma forward_ret {A} (a : A) : forward (ret a).
Proof. intros c r c' H; inversion H; subst; auto. Qed.

Lemma forward_bind {A B} (m : M A) (k : A -> M B) :
  forward m -> (forall a, forward (k a)) -> forward (bind m k).
Proof.
  intros Hm Hk c r c' H.
  apply bind_Return in H as (a & c1 & E & H).
  apply Hm in E as (? & ? & ?). apply Hk in H as (? & ? & ?).
  repeat split; try congruence; lia.
Qed.

Lemma forward_wrapf {A} (m : M A) msg : forward m -> forward (wrapf m msg).
Proof. intros Hm c r c' H; apply wrapf_Return in H; exact (Hm _ _ _ H). Qed.

Lemma forward_throw {A} e : forward (@throw A e).
Proof. intros c r c' H; discriminate. Qed.

Lemma forward_panic {A} : forward (@panic A).
Proof. intros c r c' H; discriminate. Qed.

Lemma forward_noFuel {A} : forward (@noFuel A).
Proof. intros c r c' H; discriminate. Qed.

Lemma forward_deref {A} (o : option A) : forward (deref o).
Proof. destruct o; [apply forward_ret | apply forward_panic]. Qed.

Lemma forward_next : forward next.
Proof. intros c r c' H; inversion H; subst; auto. Qed.

Lemma forward_currentToken : forward currentToken.
Proof. intros c r c' H; inversion H; subst; auto. Qed.

Lemma forward_nextToken : forward nextToken.
Proof. intros c r c' H; inversion H; subst; auto. Qed.

Lemma forward_afterNextToken : forward afterNextToken.
Proof. intros c r c' H; inversion H; subst; auto. Qed.

Lemma forward_remaining : forward remaining.
Proof. intros c r c' H; inversion H; subst; auto. Qed.

Lemma forward_progress n : forward (progress n).
Proof. intros c r c' H; inversion H; subst; cbn; repeat split; lia. Qed.

Lemma forward_tokenColumn n : forward (tokenColumn n).
Proof.
  unfold tokenColumn. apply forward_bind; [apply forward_deref|].
  intros; apply forward_ret.
Qed.

Create HintDb forward.

#[local] Hint Resolve forward_ret forward_wrapf forward_throw forward_panic
  forward_noFuel forward_deref forward_next forward_currentToken
  forward_nextToken forward_afterNextToken forward_remaining
  forward_progress forward_tokenColumn : forward.

(** Walk through a monadic term: binds, conditionals and matches. *)
Ltac forward_step :=
  match goal with
  | |- forward (bind _ _) => apply forward_bind; [|intros ?]
  | |- forward (wrapf _ _) => apply forward_wrapf
  | |- forward (if ?b then _ else _) => destruct b
  | |- forward (match ?x with _ => _ end) => destruct x
  | |- forward _ => solve [auto with forward]
  end.

Ltac forward_auto := repeat forward_step.

Section ForwardSubParsers.

Variable rec : option Token -> M (option ast.Node).
Hypothesis rec_forward : forall tk, forward (rec tk).

Local Hint Resolve rec_forward : forward.

Lemma forward_parseMapping_loop n start values :
  forward (parseMapping_loop rec n start values).
Proof.
  revert values; induction n as [|n IH]; intros values; cbn; forward_auto.
Qed.

Lemma forward_parseSequence_loop n start values :
  forward (parseSequence_loop rec n start values).
Proof.
  revert values; induction n as [|n IH]; intros values; cbn; forward_auto.
Qed.

Lemma forward_parseMappingValue_loop n kc ntk antk values :
  forward (parseMappingValue_loop rec n kc ntk antk values).
Proof.
  revert ntk antk values; induction n as [|n IH]; intros ntk antk values;
    cbn; forward_auto.
Qed.

Lemma forward_parseSequenceEntry_loop n start col tk values :
  forward (parseSequenceEntry_loop rec n start col tk values).
Proof.
  revert tk values; induction n as [|n IH]; intros tk values;
    cbn; forward_auto.
Qed.

Local Hint Resolve forward_parseMapping_loop forward_parseSequence_loop
  forward_parseMappingValue_loop forward_parseSequenceEntry_loop : forward.

Lemma forward_parseToken_body tk : forward (parseToken_body rec tk).
Proof.
  unfold parseToken_body, parseMappingValue, parseDocument, parseMapping,
    parseSequence, parseSequenceEntry, parseAnchor, parseAlias,
    parseDirective, parseTag, parseLiteral.
  forward_auto.
Qed.

End ForwardSubParsers.

Lemma forward_parseToken fuel tk : forward (parseToken fuel tk).
Proof.
  revert tk; induction fuel as [|fuel IH]; intros [t|]; cbn;
    auto with forward.
  now apply forward_parseToken_body.
Qed.

(** ** Token kinds *)

Lemma Type_eqb_true a b : Type_eqb a b = true <-> a = b.
Proof.
  unfold Type_eqb; destruct (Type_eq_dec a b); split; intros; subst;
    congruence.
Qed.

Lemma Type_eqb_false a b : Type_eqb a b = false <-> a <> b.
Proof.
  unfold Type_eqb; destruct (Type_eq_dec a b); split; intros; subst;
    congruence.
Qed.

Lemma Type_eqb_refl a : Type_eqb a a = true.
Proof. now apply Type_eqb_true. Qed.

(** ** Flow mappings *)

(** C8.  In the loop of a flow mapping, with any pairs accumulated so far:
    when the element at the cursor is neither [MappingEnd] nor
    [CollectEntry] and parses into a node that is not a [MappingValue],
    the loop fails with the syntax error "failed to parse flow mapping
    value node", which carries the token of that node. *)
Theorem parseMapping_rejects_other_nodes fuel n start values c tk v c1 :
  nth_error (tokens c) (idx c) = Some tk ->
  Typ tk <> MappingEndType ->
  Typ tk <> CollectEntryType ->
  parseToken fuel (Some tk) c = Return (Some v, c1) ->
  (forall mv, v <> ast.MappingValueNode mv) ->
  parseMapping_loop (parseToken fuel) (S n) start values c =
    Fail (ErrSyntax "failed to parse flow mapping value node" (ast.GetToken v)).
Proof.
  intros Hcur Hend Hcomma Hv Hkind.
  assert (Hlt : idx c < List.length (tokens c))
    by (apply nth_error_Some; congruence).
  apply Nat.ltb_lt in Hlt.
  apply Type_eqb_false in Hend, Hcomma.
  cbn [parseMapping_loop].
  unfold bind at 1. unfold next at 1. rewrite Hlt. cbn [negb].
  unfold bind at 1. unfold currentToken at 1. rewrite Hcur.
  unfold bind at 1. cbn [deref ret]. rewrite Hend, Hcomma.
  unfold bind at 1. rewrite (wrapf_step _ _ _ _ Hv).
  destruct v; try reflexivity.
  exfalso; eapply Hkind; reflexivity.
Qed.

(** ** Flow containers that are never closed *)

Lemma parseToken_scalar fuel t c :
  isScalarToken t = true ->
  parseToken (S fuel) (Some t) c = Return (parseScalarValue t, c).
Proof.
  unfold isScalarToken; intros H.
  apply andb_prop in H as [Hn Hs]. apply negb_true_iff in Hn.
  cbn [parseToken]. unfold parseToken_body. rewrite Hn.
  destruct (parseScalarValue t); [reflexivity | discriminate].
Qed.

Lemma scalar_kind t k :
  isSome (parseScalarValue t) = true ->
  In k [CollectEntryType; SequenceEndType; MappingEndType; CommentType;
        SequenceStartType; MappingStartType; SequenceEntryType] ->
  Type_eqb (Typ t) k = false.
Proof.
  unfold parseScalarValue, parseStringValue; intros Hs Hk.
  apply Type_eqb_false; intros E; rewrite E in Hs.
  cbn in Hk.
  repeat (destruct Hk as [<- | Hk]; [discriminate Hs|]).
  exact Hk.
Qed.

Lemma nth_error_middle {A} (pre : list A) t rest :
  nth_error (pre ++ t :: rest) (List.length pre) = Some t.
Proof. rewrite nth_error_app2, Nat.sub_diag by lia; reflexivity. Qed.

(** The loop of a flow sequence over commas and scalars runs to the end
    of the stream and returns the sequence, its [End] unset. *)
Lemma parseSequence_loop_flat fuel body :
  forall n pre start values m,
    Forall (fun t => flowItem t = true) body ->
    List.length body <= n ->
    parseSequence_loop (parseToken (S fuel)) n start values
      {| idx := List.length pre; tokens := pre ++ body; mode := m |} =
    Return (Some (ast.SequenceNode start None true (values ++ flowValues body)),
            {| idx := List.length pre + List.length body;
               tokens := pre ++ body; mode := m |}).
Proof.
  induction body as [|t body IH]; intros n pre start values m Hall Hn.
  - rewrite !app_nil_r, Nat.add_0_r.
    destruct n; cbn [parseSequence_loop]; unfold bind at 1; unfold next at 1;
      cbn [idx tokens]; rewrite Nat.ltb_irrefl; reflexivity.
  - inversion Hall as [|? ? Ht Hall']; subst.
    destruct n as [|n]; [cbn in Hn; lia|].
    cbn [parseSequence_loop].
    unfold bind at 1. unfold next at 1. cbn [idx tokens].
    replace (List.length pre <? List.length (pre ++ t :: body)) with true
      by (symmetry; apply Nat.ltb_lt; rewrite length_app; cbn; lia).
    cbn [negb].
    unfold bind at 1. unfold currentToken at 1. cbn [idx tokens].
    rewrite nth_error_middle.
    unfold bind at 1. cbn [deref ret].
    specialize (IH n (pre ++ [t]) start).
    rewrite length_app, <- app_assoc in IH. cbn [List.length app] in IH.
    unfold flowItem in Ht. cbn [flowValues].
    destruct (Type_eqb (Typ t) CollectEntryType) eqn:Hc.
    + assert (Hse : Type_eqb (Typ t) SequenceEndType = false).
      { apply Type_eqb_true in Hc. apply Type_eqb_false. congruence. }
      rewrite Hse.
      unfold bind at 1. unfold progress at 1. cbn [idx tokens mode].
      rewrite IH by (auto; cbn in Hn; lia).
      cbn [List.length]. now rewrite <- Nat.add_assoc.
    + cbn [orb] in Ht.
      assert (Hs : isSome (parseScalarValue t) = true)
        by (unfold isScalarToken in Ht; now apply andb_prop in Ht).
      rewrite (scalar_kind t SequenceEndType Hs) by (cbn; auto).
      unfold bind at 1. rewrite (wrapf_step _ _ _ _ (parseToken_scalar _ _ _ Ht)).
      unfold bind at 1. unfold progress at 1. cbn [idx tokens mode].
      rewrite IH by (auto; cbn in Hn; lia).
      cbn [List.length]. now rewrite <- app_assoc, <- Nat.add_assoc.
Qed.

(** The loop of a flow mapping over commas alone does the same. *)
Lemma parseMapping_loop_commas rec body :
  forall n pre start values m,
    Forall (fun t => Typ t = CollectEntryType) body ->
    List.length body <= n ->
    parseMapping_loop rec n start values
      {| idx := List.length pre; tokens := pre ++ body; mode := m |} =
    Return (Some (ast.MappingNode start None true values),
            {| idx := List.length pre + List.length body;
               tokens := pre ++ body; mode := m |}).
Proof.
  induction body as [|t body IH]; intros n pre start values m Hall Hn.
  - rewrite !app_nil_r, Nat.add_0_r.
    destruct n; cbn [parseMapping_loop]; unfold bind at 1; unfold next at 1;
      cbn [idx tokens]; rewrite Nat.ltb_irrefl; reflexivity.
  - inversion Hall as [|? ? Ht Hall']; subst.
    destruct n as [|n]; [cbn in Hn; lia|].
    cbn [parseMapping_loop].
    unfold bind at 1. unfold next at 1. cbn [idx tokens].
    replace (List.length pre <? List.length (pre ++ t :: body)) with true
      by (symmetry; apply Nat.ltb_lt; rewrite length_app; cbn; lia).
    cbn [negb].
    unfold bind at 1. unfold currentToken at 1. cbn [idx tokens].
    rewrite nth_error_middle.
    unfold bind at 1. cbn [deref ret]. rewrite Ht. cbn [Type_eqb].
    change (Type_eqb CollectEntryType MappingEndType) with false.
    rewrite Type_eqb_refl.
    specialize (IH n (pre ++ [t]) start).
    rewrite length_app, <- app_assoc in IH. cbn [List.length app] in IH.
    unfold bind at 1. unfold progress at 1. cbn [idx tokens mode].
    rewrite IH by (auto; cbn in Hn; lia).
    cbn [List.length]. now rewrite <- Nat.add_assoc.
Qed.

Lemma newContext_no_comments tks m :
  Forall (fun t => Typ t <> CommentType) tks ->
  newContext tks m = {| idx := 0; tokens := tks; mode := m |}.
Proof.
  intros H. unfold newContext.
  destruct (N.land m ParseComments =? 0)%N; [|reflexivity].
  f_equal. induction H as [|t l Ht _ IH]; [reflexivity|].
  cbn. apply Type_eqb_false in Ht. rewrite Ht. cbn. now rewrite IH.
Qed.

Lemma flowItem_not_comment t : flowItem t = true -> Typ t <> CommentType.
Proof.
  unfold flowItem, isScalarToken; intros H E.
  apply orb_prop in H as [H|H].
  - apply Type_eqb_true in H. congruence.
  - apply andb_prop in H as [_ H].
    pose proof (scalar_kind t CommentType H) as K.
    rewrite E in K. cbn in K.
    discriminate K. auto 10.
Qed.

Lemma parse_loop_done fuel n docs c :
  List.length (tokens c) <= idx c ->
  parse_loop fuel n docs c = Return (docs, c).
Proof.
  intros H. apply Nat.ltb_ge in H.
  destruct n; cbn [parse_loop]; unfold bind, next; rewrite H; reflexivity.
Qed.

(** C3, as amended.  A flow container whose end token never comes is not
    a syntax error.  For a stream that is a [SequenceStart] followed only
    by scalars and commas, or a [MappingStart] followed only by commas,
    [parse] returns a file whose single document is the container with
    the elements read up to the end of the stream and no [End] token. *)
Theorem parse_unterminated_flow_container st body m :
  NextTypeIs st MappingValueType = false ->
  (Typ st = SequenceStartType /\ Forall (fun t => flowItem t = true) body) \/
  (Typ st = MappingStartType /\ Forall (fun t => Typ t = CollectEntryType) body) ->
  parse (st :: body) m =
    Return {| ast.Name := EmptyString;
              ast.Docs :=
                [ast.mkDocument None None
                   (Some (if Type_eqb (Typ st) SequenceStartType
                          then ast.SequenceNode (Some st) None true (flowValues body)
                          else ast.MappingNode (Some st) None true []))] |}.
Proof.
  intros Hnext Hshape.
  assert (Hnc : Forall (fun t => Typ t <> CommentType) (st :: body)).
  { constructor.
    - destruct Hshape as [[E _]|[E _]]; rewrite E; discriminate.
    - destruct Hshape as [[_ H]|[_ H]]; eapply Forall_impl; try exact H;
        cbn; intros t Ht; [now apply flowItem_not_comment | congruence]. }
  unfold parse. rewrite (newContext_no_comments _ _ Hnc). cbn [tokens List.length].
  cbn [parse_loop].
  unfold bind at 1. unfold next at 1. cbn [idx tokens List.length Nat.ltb Nat.leb negb].
  unfold bind at 1. unfold currentToken at 1. cbn [idx tokens nth_error].
  unfold bind at 1.
  destruct Hshape as [[E Hall]|[E Hall]].
  - assert (Hrun :
      parseToken (S (List.length body)) (Some st)
        {| idx := 0; tokens := st :: body; mode := m |} =
      Return (Some (ast.SequenceNode (Some st) None true (flowValues body)),
              {| idx := 1 + List.length body; tokens := st :: body; mode := m |})).
    { cbn [parseToken]. unfold parseToken_body. rewrite Hnext.
      unfold parseScalarValue, parseStringValue. rewrite E.
      unfold parseSequence.
      unfold bind at 1. unfold currentToken at 1. cbn [idx tokens nth_error].
      unfold bind at 1. unfold progress at 1. cbn [idx tokens mode].
      unfold bind at 1. unfold remaining at 1. cbn [idx tokens mode List.length].
      replace (S (List.length body) - (0 + 1)) with (List.length body) by lia.
      change (0 + 1) with (List.length [st]).
      destruct body as [|b body'].
      - reflexivity.
      - apply (parseSequence_loop_flat (List.length body') (b :: body')
                 (S (List.length body')) [st] (Some st) [] m Hall).
        cbn; lia. }
    rewrite (wrapf_step _ _ _ _ Hrun).
    rewrite E. cbn [Type_eqb]. rewrite Type_eqb_refl.
    unfold bind at 1. unfold progress at 1. cbn [idx tokens mode].
    rewrite parse_loop_done by (cbn; lia). reflexivity.
  - assert (Hrun :
      parseToken (S (List.length body)) (Some st)
        {| idx := 0; tokens := st :: body; mode := m |} =
      Return (Some (ast.MappingNode (Some st) None true []),
              {| idx := 1 + List.length body; tokens := st :: body; mode := m |})).
    { cbn [parseToken]. unfold parseToken_body. rewrite Hnext.
      unfold parseScalarValue, parseStringValue. rewrite E.
      unfold parseMapping.
      unfold bind at 1. unfold currentToken at 1. cbn [idx tokens nth_error].
      unfold bind at 1. unfold progress at 1. cbn [idx tokens mode].
      unfold bind at 1. unfold remaining at 1. cbn [idx tokens mode List.length].
      replace (S (List.length body) - (0 + 1)) with (List.length body) by lia.
      change (0 + 1) with (List.length [st]).
      apply (parseMapping_loop_commas _ body (List.length body) [st]
               (Some st) [] m Hall).
      lia. }
    rewrite (wrapf_step _ _ _ _ Hrun).
    rewrite E. change (Type_eqb MappingStartType SequenceStartType) with false.
    unfold bind at 1. unfold progress at 1. cbn [idx tokens mode].
    rewrite parse_loop_done by (cbn; lia). reflexivity.
Qed.

(** ** One document per top-level node *)

Lemma produces_ret n : produces (ret (Some n)).
Proof. intros c r c' H; inversion H; discriminate. Qed.

Lemma produces_bind {A} (m : M A) k :
  (forall a, produces (k a)) -> produces (bind m k).
Proof.
  intros Hk c r c' H.
  apply bind_Return in H as (a & c1 & _ & H). exact (Hk _ _ _ _ H).
Qed.

Lemma produces_throw e : produces (throw e).
Proof. intros c r c' H; discriminate. Qed.

Lemma produces_panic : produces panic.
Proof. intros c r c' H; discriminate. Qed.

Lemma produces_noFuel : produces noFuel.
Proof. intros c r c' H; discriminate. Qed.

Create HintDb produces.

#[local] Hint Resolve produces_ret produces_throw produces_panic
  produces_noFuel : produces.

Ltac produces_step :=
  match goal with
  | |- produces (bind _ _) => apply produces_bind; intros ?
  | |- produces (if ?b then _ else _) => destruct b
  | |- produces (match ?x with _ => _ end) => destruct x
  | |- produces _ => solve [auto with produces]
  end.

Ltac produces_auto := repeat produces_step.

Section ProducesSubParsers.

Variable rec : option Token -> M (option ast.Node).

Lemma produces_parseMapping_loop n start values :
  produces (parseMapping_loop rec n start values).
Proof.
  revert values; induction n as [|n IH]; intros values; cbn; produces_auto.
Qed.

Lemma produces_parseSequence_loop n start values :
  produces (parseSequence_loop rec n start values).
Proof.
  revert values; induction n as [|n IH]; intros values; cbn; produces_auto.
Qed.

Lemma produces_parseSequenceEntry_loop n start col tk values :
  produces (parseSequenceEntry_loop rec n start col tk values).
Proof.
  revert tk values; induction n as [|n IH]; intros tk values;
    cbn; produces_auto.
Qed.

Local Hint Resolve produces_parseMapping_loop produces_parseSequence_loop
  produces_parseSequenceEntry_loop : produces.

(** Every sub-parser that [parseToken] selects returns a node. *)
Lemma produces_parseToken_body t :
  yieldsNode t = true -> produces (parseToken_body rec t).
Proof.
  unfold yieldsNode, parseToken_body; intros Hy.
  destruct (NextTypeIs t MappingValueType).
  - unfold parseMappingValue. produces_auto.
  - destruct (parseScalarValue t); [auto with produces|].
    cbn [orb isSome] in Hy.
    destruct (Typ t); try discriminate Hy;
      unfold parseDocument, parseMapping, parseSequence, parseSequenceEntry,
        parseAnchor, parseAlias, parseDirective, parseTag, parseLiteral;
      produces_auto.
Qed.

End ProducesSubParsers.

Lemma parseToken_produces fuel t c r c' :
  yieldsNode t = true ->
  parseToken fuel (Some t) c = Return (r, c') -> r <> None.
Proof.
  intros Hy. destruct fuel; cbn; [discriminate|].
  apply produces_parseToken_body; exact Hy.
Qed.

(** The loop of [parse] only appends documents. *)
Lemma parse_loop_acc fuel n :
  forall docs c docs' c',
    parse_loop fuel n docs c = Return (docs', c') ->
    exists extra, docs' = docs ++ extra.
Proof.
  induction n as [|n IH]; intros docs c docs' c' H; cbn [parse_loop] in H;
    run_inv H.
  - destruct (negb a); [|discriminate].
    inversion H; subst; exists []; now rewrite app_nil_r.
  - destruct (negb a).
    + inversion H; subst; exists []; now rewrite app_nil_r.
    + run_inv H.
      destruct a1 as [nd|]; [|eauto].
      destruct nd; apply IH in H as [extra ->];
        rewrite <- app_assoc; eauto.
Qed.

(** ** Block sequences *)

Section BlockSequence.

Variable rec : option Token -> M (option ast.Node).
Hypothesis rec_forward : forall tk, forward (rec tk).
Hypothesis rec_nil : forall c, rec None c = NilDeref.

(** One turn of the loop, once the value has been parsed. *)
Lemma parseSequenceEntry_loop_turn n start col tk values c v c1 :
  Typ tk = SequenceEntryType ->
  rec (nth_error (tokens c) (idx c + 1)) (skip c) = Return (v, c1) ->
  parseSequenceEntry_loop rec (S n) start col tk values c =
    match nth_error (tokens c1) (idx c1 + 1) with
    | Some tk' =>
        if continues col c1
        then parseSequenceEntry_loop rec n start col tk' (values ++ [v]) (skip c1)
        else Return (Some (ast.SequenceNode start None false (values ++ [v])), c1)
    | None => Return (Some (ast.SequenceNode start None false (values ++ [v])), c1)
    end.
Proof.
  intros Hty Hv. cbn [parseSequenceEntry_loop].
  rewrite Hty, Type_eqb_refl. cbn [negb].
  unfold bind at 1. unfold progress at 1. fold (skip c).
  unfold bind at 1. unfold currentToken at 1. cbn [skip idx tokens].
  fold (skip c). unfold bind at 1. rewrite (wrapf_step _ _ _ _ Hv).
  unfold bind at 1. unfold nextToken at 1. unfold continues.
  destruct (nth_error (tokens c1) (idx c1 + 1)) as [tk'|]; [|reflexivity].
  destruct (Type_eqb (Typ tk') SequenceEntryType); [|reflexivity].
  destruct (Column (Position_ tk') =? col)%Z; reflexivity.
Qed.

Lemma parseSequenceEntry_loop_sound n :
  forall start col tk values c r c',
    Typ tk = SequenceEntryType ->
    parseSequenceEntry_loop rec n start col tk values c = Return (r, c') ->
    exists vs, r = Some (ast.SequenceNode start None false (values ++ vs)) /\
               BlockEntries rec col c vs c'.
Proof.
  induction n as [|n IH]; intros start col tk values c r c' Hty H.
  - cbn in H. rewrite Hty, Type_eqb_refl in H. discriminate.
  - destruct (rec (nth_error (tokens c) (idx c + 1)) (skip c))
      as [[v c1]| | |] eqn:Hv.
    + rewrite (parseSequenceEntry_loop_turn _ _ _ _ _ _ _ _ Hty Hv) in H.
      destruct (continues col c1) eqn:Hc.
      * unfold continues in Hc.
        destruct (nth_error (tokens c1) (idx c1 + 1)) as [tk'|] eqn:Hn;
          [|discriminate].
        apply andb_prop in Hc as [Hc1 Hc2]. apply Type_eqb_true in Hc1.
        apply IH in H as (vs & -> & Hvs); [|exact Hc1].
        exists (v :: vs). rewrite <- app_assoc. split; [reflexivity|].
        eapply BlockEntries_more; eauto.
        unfold continues. rewrite Hn, Hc1, Hc2. reflexivity.
      * assert (r = Some (ast.SequenceNode start None false (values ++ [v]))
                /\ c' = c1) as [-> ->]
          by (destruct (nth_error (tokens c1) (idx c1 + 1));
              inversion H; auto).
        exists [v]. split; [reflexivity|]. now apply BlockEntries_last.
    + cbn [parseSequenceEntry_loop] in H.
      rewrite Hty, Type_eqb_refl in H. cbn [negb] in H.
      unfold bind at 1 in H. unfold progress at 1 in H. fold (skip c) in H.
      unfold bind at 1 in H. unfold currentToken at 1 in H.
      cbn [skip idx tokens] in H. fold (skip c) in H.
      unfold bind at 1, wrapf in H. rewrite Hv in H. discriminate.
    + cbn [parseSequenceEntry_loop] in H.
      rewrite Hty, Type_eqb_refl in H. cbn [negb] in H.
      unfold bind at 1 in H. unfold progress at 1 in H. fold (skip c) in H.
      unfold bind at 1 in H. unfold currentToken at 1 in H.
      cbn [skip idx tokens] in H. fold (skip c) in H.
      unfold bind at 1, wrapf in H. rewrite Hv in H. discriminate.
    + cbn [parseSequenceEntry_loop] in H.
      rewrite Hty, Type_eqb_refl in H. cbn [negb] in H.
      unfold bind at 1 in H. unfold progress at 1 in H. fold (skip c) in H.
      unfold bind at 1 in H. unfold currentToken at 1 in H.
      cbn [skip idx tokens] in H. fold (skip c) in H.
      unfold bind at 1, wrapf in H. rewrite Hv in H. discriminate.
Qed.

(** A value was parsed after the ['-']: a token stood there, and the
    cursor did not go back. *)
Lemma entry_parsed c v c1 :
  rec (nth_error (tokens c) (idx c + 1)) (skip c) = Return (v, c1) ->
  tokens c1 = tokens c /\ idx c + 1 <= idx c1 /\
  idx c + 1 < List.length (tokens c).
Proof.
  intros H.
  destruct (nth_error (tokens c) (idx c + 1)) eqn:Hn;
    [|rewrite rec_nil in H; discriminate].
  apply rec_forward in H as (Ht & _ & Hi). cbn in Ht, Hi.
  repeat split; auto.
  apply nth_error_Some. congruence.
Qed.

Lemma parseSequenceEntry_loop_complete col c vs c' :
  BlockEntries rec col c vs c' ->
  forall n start tk values,
    Typ tk = SequenceEntryType ->
    List.length (tokens c) - idx c <= S n ->
    parseSequenceEntry_loop rec n start col tk values c =
      Return (Some (ast.SequenceNode start None false (values ++ vs)), c').
Proof.
  induction 1 as [c v c1 Hv Hc | c v c1 vs c2 Hv Hc Hrest IH];
    intros n start tk values Hty Hn;
    destruct (entry_parsed _ _ _ Hv) as (Htk & Hidx & Hlt);
    (destruct n as [|n]; [lia|]);
    rewrite (parseSequenceEntry_loop_turn _ _ _ _ _ _ _ _ Hty Hv), Hc.
  - destruct (nth_error (tokens c1) (idx c1 + 1)); reflexivity.
  - unfold continues in Hc.
    destruct (nth_error (tokens c1) (idx c1 + 1)) as [tk'|] eqn:Hnx;
      [|discriminate].
    apply andb_prop in Hc as [Hc1 _]. apply Type_eqb_true in Hc1.
    rewrite (IH n start tk' (values ++ [v]) Hc1).
    + now rewrite <- app_assoc.
    + cbn [skip idx tokens]. rewrite Htk. lia.
Qed.

End BlockSequence.

Lemma parseToken_nil fuel c : parseToken fuel None c = NilDeref.
Proof. destruct fuel; reflexivity. Qed.

(** C7.  For a block sequence started at a [SequenceEntry] token [tk]:
    the sub-parser returns exactly the sequences described by
    [BlockEntries] at the column of [tk] -- one parsed value for each
    ['-'] it consumes, going on while the next token is a [SequenceEntry]
    at that column, and ending at a [SequenceEntry] of another column, at
    a token of another kind, or at the end of the stream. *)
Theorem parseSequenceEntry_entries fuel c tk r c' :
  nth_error (tokens c) (idx c) = Some tk ->
  Typ tk = SequenceEntryType ->
  parseSequenceEntry (parseToken fuel) c = Return (r, c') <->
  exists vs,
    r = Some (ast.SequenceNode (Some tk) None false vs) /\
    BlockEntries (parseToken fuel) (Column (Position_ tk)) c vs c'.
Proof.
  intros Hcur Hty. unfold parseSequenceEntry.
  unfold bind at 1. unfold currentToken at 1. rewrite Hcur.
  unfold bind at 1. cbn [deref ret].
  unfold bind at 1. unfold remaining at 1.
  split.
  - intros H.
    apply parseSequenceEntry_loop_sound in H; [|exact Hty].
    exact H.
  - intros (vs & -> & Hvs).
    rewrite (parseSequenceEntry_loop_complete (parseToken fuel)
               (forward_parseToken fuel) (parseToken_nil fuel)
               _ _ _ _ Hvs _ (Some tk) tk [] Hty); [reflexivity | lia].
Qed.

(** ** The counters are large enough

    [NoFuel] is never the outcome of [parse]: every nested call of
    [parseToken] comes after the cursor has advanced, and every turn of a
    loop advances it. *)

Lemma forward_facts {A} (m : M A) c r c' :
  forward m -> m c = Return (r, c') ->
  List.length (tokens c') = List.length (tokens c) /\
  tokens c' = tokens c /\ idx c <= idx c'.
Proof.
  intros Hm H. apply Hm in H as (Ht & _ & Hi). rewrite Ht. auto.
Qed.

Lemma nth_error_Some_lt {A} (l : list A) i x :
  nth_error l i = Some x -> i < List.length l.
Proof. intros H; apply nth_error_Some; congruence. Qed.

Lemma nth_error_None_ge {A} (l : list A) i :
  nth_error l i = None -> List.length l <= i.
Proof. apply nth_error_None. Qed.

(** Bring the facts about the cursor into the shape [lia] reads. *)
Ltac cursor_facts :=
  unfold left_ in *; cbn [idx tokens mode skip] in *;
  repeat match goal with
    | H : nth_error _ _ = Some _ |- _ =>
        apply nth_error_Some_lt in H
    | H : nth_error _ _ = None |- _ =>
        apply nth_error_None_ge in H
    | H : tokens ?a = tokens ?b |- _ => rewrite H in *; clear H
    | H : negb _ = true |- _ => apply negb_true_iff in H
    | H : negb _ = false |- _ => apply negb_false_iff in H
    | H : (_ <? _) = true |- _ => apply Nat.ltb_lt in H
    | H : (_ <? _) = false |- _ => apply Nat.ltb_ge in H
    end.

Ltac cursor_lia := cursor_facts; lia.

Section Fuel.

Variable rec : option Token -> M (option ast.Node).
Variable f : nat.
Hypothesis rec_forward : forall tk, forward (rec tk).
Hypothesis rec_fuel :
  forall tk c, tk = nth_error (tokens c) (idx c) -> left_ c <= f ->
               rec tk c <> NoFuel.

(** One step of a run towards [_ <> NoFuel]. *)
Ltac fuel_rec :=
  match goal with
  | |- context [wrapf (rec ?tk) ?msg ?c] =>
      let E := fresh "E" in
      let F := fresh "F" in
      unfold wrapf at 1;
      destruct (rec tk c) as [[? ?]| | |] eqn:E;
      [ pose proof (forward_facts _ _ _ _ (rec_forward tk) E) as (? & F & ?);
        cbn [idx tokens mode] in F
      | discriminate
      | discriminate
      | exfalso; apply (rec_fuel tk c);
        [ first [reflexivity | symmetry; eassumption | cbn; congruence]
        | cursor_lia
        | exact E ] ]
  end.

Ltac fuel_step :=
  lazymatch goal with
  | |- bind next _ _ <> NoFuel =>
      unfold bind at 1; unfold next at 1; cbv beta iota
  | |- bind currentToken _ _ <> NoFuel =>
      unfold bind at 1; unfold currentToken at 1; cbv beta iota
  | |- bind nextToken _ _ <> NoFuel =>
      unfold bind at 1; unfold nextToken at 1; cbv beta iota
  | |- bind afterNextToken _ _ <> NoFuel =>
      unfold bind at 1; unfold afterNextToken at 1; cbv beta iota
  | |- bind remaining _ _ <> NoFuel =>
      unfold bind at 1; unfold remaining at 1; cbv beta iota
  | |- bind (progress _) _ _ <> NoFuel =>
      unfold bind at 1; unfold progress at 1; cbv beta iota;
      cbn [idx tokens mode]
  | |- bind (bind _ _) _ _ <> NoFuel => rewrite bind_assoc
  | |- bind (ret _) _ _ <> NoFuel =>
      unfold bind at 1; unfold ret at 1; cbv beta iota
  | |- bind (throw _) _ _ <> NoFuel => discriminate
  | |- bind panic _ _ <> NoFuel => discriminate
  | |- bind (deref ?o) _ _ <> NoFuel =>
      let E := fresh "E" in
      destruct o eqn:E;
      [ unfold bind at 1; unfold deref at 1, ret at 1; cbv beta iota
      | discriminate ]
  | |- bind (tokenColumn ?n) _ _ <> NoFuel =>
      unfold tokenColumn at 1; rewrite bind_assoc
  | |- bind (wrapf (rec _) _) _ _ <> NoFuel =>
      unfold bind at 1; fuel_rec; cbv beta iota
  | |- bind (if ?b then _ else _) _ _ <> NoFuel => destruct b eqn:?
  | |- bind (match ?x with _ => _ end) _ _ <> NoFuel => destruct x eqn:?
  | |- ret _ _ <> NoFuel => discriminate
  | |- throw _ _ <> NoFuel => discriminate
  | |- panic _ <> NoFuel => discriminate
  | |- (if ?b then _ else _) _ <> NoFuel => destruct b eqn:?
  | |- (match ?x with _ => _ end) _ <> NoFuel => destruct x eqn:?
  end.

Ltac fuel_auto IH :=
  repeat first
    [ fuel_step
    | match goal with
      | |- noFuel _ <> NoFuel => exfalso; cursor_lia
      end
    | apply IH; first [reflexivity | cursor_lia] ].

Lemma fuel_parseMapping_loop n :
  forall start values c,
    left_ c <= n -> left_ c <= f ->
    parseMapping_loop rec n start values c <> NoFuel.
Proof.
  induction n as [|n IH]; intros start values c Hn Hf;
    cbn [parseMapping_loop]; fuel_auto IH.
Qed.

Lemma fuel_parseSequence_loop n :
  forall start values c,
    left_ c <= n -> left_ c <= f ->
    parseSequence_loop rec n start values c <> NoFuel.
Proof.
  induction n as [|n IH]; intros start values c Hn Hf;
    cbn [parseSequence_loop]; fuel_auto IH.
Qed.

Lemma fuel_parseMappingValue_loop n :
  forall kc ntk antk values c,
    antk = nth_error (tokens c) (idx c + 2) ->
    left_ c <= S n -> left_ c <= S f ->
    parseMappingValue_loop rec n kc ntk antk values c <> NoFuel.
Proof.
  induction n as [|n IH]; intros kc ntk antk values c Ha Hn Hf;
    cbn [parseMappingValue_loop]; subst antk; fuel_auto IH.
Qed.

Lemma fuel_parseSequenceEntry_loop n :
  forall start col tk values c,
    idx c < List.length (tokens c) ->
    left_ c <= n -> left_ c <= S f ->
    parseSequenceEntry_loop rec n start col tk values c <> NoFuel.
Proof.
  induction n as [|n IH]; intros start col tk values c Hi Hn Hf;
    cbn [parseSequenceEntry_loop]; fuel_auto IH.
Qed.

(** The body of [parseToken], on the token at the cursor. *)
Lemma fuel_parseToken_body t c :
  nth_error (tokens c) (idx c) = Some t ->
  left_ c <= S f ->
  parseToken_body rec t c <> NoFuel.
Proof.
  intros Hcur Hf.
  pose proof (nth_error_Some_lt _ _ _ Hcur) as Hlt.
  unfold parseToken_body.
  destruct (NextTypeIs t MappingValueType).
  - unfold parseMappingValue. repeat fuel_step.
    all: unfold bind at 1;
      match goal with
      | |- context [parseMappingValue_loop rec ?n ?kc ?ntk ?antk ?vs ?c0] =>
          destruct (parseMappingValue_loop rec n kc ntk antk vs c0)
            as [[? ?]| | |] eqn:Eloop;
          [ repeat fuel_step | discriminate | discriminate
          | exfalso;
            apply (fuel_parseMappingValue_loop n kc ntk antk vs c0);
            [ reflexivity | cursor_lia | cursor_lia | exact Eloop ] ]
      end.
  - destruct (parseScalarValue t); [discriminate|].
    destruct (Typ t); try discriminate;
      unfold parseDocument, parseMapping, parseSequence, parseSequenceEntry,
        parseAnchor, parseAlias, parseDirective, parseTag, parseLiteral;
      repeat fuel_step;
      first [ apply fuel_parseMapping_loop
            | apply fuel_parseSequence_loop
            | apply fuel_parseSequenceEntry_loop ];
      cursor_lia.
Qed.

End Fuel.

Lemma fuel_parseToken fuel :
  forall tk c,
    tk = nth_error (tokens c) (idx c) -> left_ c <= fuel ->
    parseToken fuel tk c <> NoFuel.
Proof.
  induction fuel as [|fuel IH]; intros tk c Htk Hl; subst tk.
  - destruct (nth_error (tokens c) (idx c)) eqn:E; [|discriminate].
    exfalso. cursor_lia.
  - destruct (nth_error (tokens c) (idx c)) eqn:E; [|discriminate].
    cbn [parseToken].
    apply (fuel_parseToken_body (parseToken fuel) fuel
             (forward_parseToken fuel) IH); assumption.
Qed.

Lemma fuel_parse_loop fuel n :
  forall docs c,
    left_ c <= n -> left_ c <= fuel ->
    parse_loop fuel n docs c <> NoFuel.
Proof.
  induction n as [|n IH]; intros docs c Hn Hf; cbn [parse_loop].
  - unfold bind, next.
    destruct (idx c <? List.length (tokens c)) eqn:E; [|discriminate].
    exfalso. cursor_lia.
  - unfold bind at 1. unfold next at 1. cbv beta iota.
    destruct (idx c <? List.length (tokens c)) eqn:E; [|discriminate].
    cbn [negb].
    unfold bind at 1. unfold currentToken at 1. cbv beta iota.
    unfold bind at 1. unfold wrapf at 1.
    destruct (parseToken fuel (nth_error (tokens c) (idx c)) c)
      as [[node c1]| | |] eqn:Erun; try discriminate.
    + pose proof (forward_facts _ _ _ _ (forward_parseToken fuel _) Erun)
        as (Hlen & Htok & Hidx).
      unfold bind at 1. unfold progress at 1. cbv beta iota.
      destruct node as [nd|]; [destruct nd|]; apply IH; cursor_lia.
    + exfalso. exact (fuel_parseToken fuel _ c eq_refl Hf Erun).
Qed.

(** [parse] ends in a file, an error or a nil dereference: the counters of
    the model never run out. *)
Theorem parse_has_fuel tks m : parse tks m <> NoFuel.
Proof.
  unfold parse.
  set (c0 := newContext tks m).
  assert (Hidx : idx c0 = 0) by reflexivity. clearbody c0.
  destruct (parse_loop _ _ [] c0) as [[docs c1]| | |] eqn:E;
    cbn; try discriminate.
  exfalso. eapply fuel_parse_loop; [| |exact E]; cursor_lia.
Qed.

(** ** The empty stream, the open brace, the lone directive *)

(** C1, counterexample.  For the empty input, parsing yields a file with
    no document at all. *)
Lemma parse_empty_no_document :
  ParseBytes EmptyString 0%N =
    Return {| ast.Name := EmptyString; ast.Docs := [] |} /\
  parse [] 0%N = Return {| ast.Name := EmptyString; ast.Docs := [] |}.
Proof. split; reflexivity. Qed.

(** C3, counterexample.  A stream that is one opening brace, never
    closed, parses to a file: no syntax error is raised. *)
Lemma parse_open_brace_returns :
  parse samples.openMapStream 0%N =
    Return {| ast.Name := EmptyString;
              ast.Docs :=
                [ast.mkDocument None None
                   (Some (ast.MappingNode
                            (Some (MappingStart "{" (samples.at_ 1 1 1)))
                            None true []))] |}.
Proof. reflexivity. Qed.

(** C9, at the failing input.  On a directive followed by one scalar and
    the end of the stream, [parseDirective] advances past the end and
    reads the type of the current token, which is nil: the parse panics,
    from the tokens as well as from the text.  A stream that ends right
    after a [Directive], [Tag], [Literal] or [DocumentHeader] token hands
    the nil current token to [parseToken] and panics too; after an
    [Anchor] the end of the stream is checked, and an error returned. *)
Theorem parse_directive_nil_dereference :
  parse samples.directiveStream 0%N = NilDeref /\
  ParseBytes "%x" 0%N = NilDeref /\
  parse samples.loneDirective 0%N = NilDeref /\
  parse samples.loneTag 0%N = NilDeref /\
  parse samples.loneLiteral 0%N = NilDeref /\
  parse samples.loneHeader 0%N = NilDeref /\
  parse samples.loneAnchor 0%N =
    Fail (Wrapf (ErrSyntax "unexpected anchor. anchor name is undefined"
                           (Some (Anchor "&" (samples.at_ 1 1 1))))
                "failed to parse").
Proof. repeat split; vm_compute; reflexivity. Qed.

(** ** Witnesses *)

Lemma parse_unterminated_flow_container_witness :
  parse (samples.openSeqStart :: samples.openSeqBody) 0%N =
    Return {| ast.Name := EmptyString;
              ast.Docs :=
                [ast.mkDocument None None
                   (Some (ast.SequenceNode (Some samples.openSeqStart) None true
                            (flowValues samples.openSeqBody)))] |}.
Proof.
  apply (parse_unterminated_flow_container samples.openSeqStart
           samples.openSeqBody 0%N).
  - reflexivity.
  - left. split; [reflexivity|]. repeat constructor.
Defined.

Lemma parseMappingValue_null_at_colon_witness :
  let colon := {| Typ := MappingValueType; Value := ":"; Origin := ":";
                  Position_ := samples.at_ 1 2 2; Next := None |} in
  let ktk := {| Typ := StringType; Value := "a"; Origin := "a";
                Position_ := samples.at_ 1 1 1; Next := Some MappingValueType |} in
  let null := New "null" "null" (Position_ colon) in
  parseToken 1 (Some ktk) (samples.cursorAt 0 samples.keyStream) =
    Return (Some (ast.MappingValueNode
                    (ast.mkMappingValue (Some colon) (ast.StringNode ktk)
                       (ast.NullNode null))),
            samples.cursorAt 2 samples.keyStream)
  /\ Position_ null = Position_ colon.
Proof.
  intros colon ktk null.
  apply (parseMappingValue_null_at_colon 0
           (samples.cursorAt 0 samples.keyStream) ktk (ast.StringNode ktk) colon);
    reflexivity.
Defined.

Lemma parseSequenceEntry_entries_witness :
  exists r c' tk,
    nth_error samples.entryStream 0 = Some tk /\
    parseSequenceEntry (parseToken 2) (samples.cursorAt 0 samples.entryStream)
      = Return (r, c') /\
    exists vs,
      r = Some (ast.SequenceNode (Some tk) None false vs) /\
      BlockEntries (parseToken 2) (Column (Position_ tk))
                   (samples.cursorAt 0 samples.entryStream) vs c'.
Proof.
  eexists. eexists. eexists.
  split; [reflexivity|]. split; [vm_compute; reflexivity|].
  apply (proj1 (parseSequenceEntry_entries 2
                  (samples.cursorAt 0 samples.entryStream) _ _ _
                  eq_refl eq_refl)).
  vm_compute; reflexivity.
Defined.

Lemma parseMapping_rejects_other_nodes_witness :
  let tk := {| Typ := StringType; Value := "a"; Origin := "a";
               Position_ := samples.at_ 1 2 2; Next := Some MappingEndType |} in
  parseMapping_loop (parseToken 1) 1 None []
    (samples.cursorAt 1 samples.scalarInMapStream) =
  Fail (ErrSyntax "failed to parse flow mapping value node" (Some tk)).
Proof.
  intros tk.
  apply (parseMapping_rejects_other_nodes 1 0 None []
           (samples.cursorAt 1 samples.scalarInMapStream) tk
           (ast.StringNode tk) (samples.cursorAt 1 samples.scalarInMapStream)).
  - reflexivity.
  - discriminate.
  - discriminate.
  - reflexivity.
  - discriminate.
Defined.

(** * Further properties of the parser *)

(** ** Anchors and aliases at the end of the stream *)

Lemma parseToken_kind fuel tk c :
  NextTypeIs tk MappingValueType = false ->
  parseScalarValue tk = None ->
  parseToken (S fuel) (Some tk) c =
    match Typ tk with
    | DocumentHeaderType => parseDocument (parseToken fuel) c
    | MappingStartType => parseMapping (parseToken fuel) c
    | SequenceStartType => parseSequence (parseToken fuel) c
    | SequenceEntryType => parseSequenceEntry (parseToken fuel) c
    | AnchorType => parseAnchor (parseToken fuel) c
    | AliasType => parseAlias (parseToken fuel) c
    | DirectiveType => parseDirective (parseToken fuel) c
    | TagType => parseTag (parseToken fuel) c
    | LiteralType | FoldedType => parseLiteral (parseToken fuel) c
    | _ => Return (None, c)
    end.
Proof.
  intros Hn Hs. cbn [parseToken]. unfold parseToken_body.
  rewrite Hn, Hs. destruct (Typ tk); reflexivity.
Qed.

Lemma parseScalarValue_kind tk k :
  Typ tk = k ->
  In k [DocumentHeaderType; DocumentEndType; MappingStartType; MappingEndType;
        SequenceStartType; SequenceEndType; SequenceEntryType; CollectEntryType;
        MappingValueType; AnchorType; AliasType; DirectiveType; TagType;
        LiteralType; FoldedType; CommentType; MergeKeyType] ->
  parseScalarValue tk = None.
Proof.
  intros <- Hk. unfold parseScalarValue, parseStringValue.
  cbn in Hk. repeat (destruct Hk as [<- | Hk]; [reflexivity|]). elim Hk.
Qed.

(** X3.  An anchor needs a name and a value.  When the [Anchor] token is
    the last of the stream, [parseToken] fails with the syntax error
    "anchor name is undefined" at the anchor; when one scalar follows it
    and the stream ends there, it fails with "anchor value is undefined"
    at the scalar. *)
Theorem parseAnchor_undefined fuel c tk :
  nth_error (tokens c) (idx c) = Some tk ->
  Typ tk = AnchorType ->
  NextTypeIs tk MappingValueType = false ->
  match nth_error (tokens c) (idx c + 1) with
  | None =>
      parseToken (S fuel) (Some tk) c =
        Fail (ErrSyntax "unexpected anchor. anchor name is undefined" (Some tk))
  | Some nm =>
      isScalarToken nm = true ->
      nth_error (tokens c) (idx c + 2) = None ->
      parseToken (S (S fuel)) (Some tk) c =
        Fail (ErrSyntax "unexpected anchor. anchor value is undefined" (Some nm))
  end.
Proof.
  intros Hcur Ht Hn.
  pose proof (parseScalarValue_kind tk _ Ht ltac:(cbn; auto 20)) as Hs.
  destruct (nth_error (tokens c) (idx c + 1)) as [nm|] eqn:Hnext.
  - intros Hnm Hend. rewrite (parseToken_kind _ _ _ Hn Hs), Ht.
    unfold parseAnchor, bind, currentToken, nextToken, progress.
    rewrite Hcur, Hnext. cbn [idx tokens mode]. rewrite Hnext.
    rewrite (wrapf_step _ _ _ _ (parseToken_scalar _ _ _ Hnm)).
    cbn [idx tokens mode]. rewrite <- Nat.add_assoc. cbn [Nat.add].
    rewrite Hend. cbn [idx tokens mode]. rewrite Hnext. reflexivity.
  - rewrite (parseToken_kind _ _ _ Hn Hs), Ht.
    unfold parseAnchor, bind, currentToken, nextToken.
    rewrite Hcur, Hnext. reflexivity.
Qed.

(** X4.  An alias needs a name: when the [Alias] token is the last of the
    stream, [parseToken] fails with the syntax error "alias name is
    undefined" at the alias; when a scalar follows, the alias node holds
    the scalar, and the cursor is left on it. *)
Theorem parseAlias_name fuel c tk :
  nth_error (tokens c) (idx c) = Some tk ->
  Typ tk = AliasType ->
  NextTypeIs tk MappingValueType = false ->
  match nth_error (tokens c) (idx c + 1) with
  | None =>
      parseToken (S fuel) (Some tk) c =
        Fail (ErrSyntax "unexpected alias. alias name is undefined" (Some tk))
  | Some nm =>
      isScalarToken nm = true ->
      parseToken (S (S fuel)) (Some tk) c =
        Return (Some (ast.AliasNode (Some tk) (parseScalarValue nm)),
                skip c)
  end.
Proof.
  intros Hcur Ht Hn.
  pose proof (parseScalarValue_kind tk _ Ht ltac:(cbn; auto 20)) as Hs.
  rewrite !(parseToken_kind _ _ _ Hn Hs), Ht.
  unfold parseAlias, bind, currentToken, nextToken, progress.
  rewrite Hcur.
  destruct (nth_error (tokens c) (idx c + 1)) as [nm|] eqn:Hnext;
    [|reflexivity].
  intros Hnm. cbn [idx tokens mode]. rewrite Hnext.
  rewrite (wrapf_step _ _ _ _ (parseToken_scalar _ _ _ Hnm)). reflexivity.
Qed.

(** ** Keys *)

(** X5.  The key of a pair is a string, a quoted string, a merge key or
    null.  A token of any other kind that is followed by [':'] -- an
    integer, a boolean, a float -- is the syntax error "key is
    undefined" at that token. *)
Theorem parseMappingValue_key_kinds fuel c tk :
  nth_error (tokens c) (idx c) = Some tk ->
  NextTypeIs tk MappingValueType = true ->
  ~ In (Typ tk) [StringType; SingleQuoteType; DoubleQuoteType;
                 MergeKeyType; NullType] ->
  parseToken (S fuel) (Some tk) c =
    Fail (ErrSyntax "unexpected mapping 'key'. key is undefined" (Some tk)).
Proof.
  intros Hcur Hn Hk. cbn [parseToken]. unfold parseToken_body. rewrite Hn.
  unfold parseMappingValue, bind, currentToken. rewrite Hcur. cbn [deref ret].
  assert (Hkey : parseMapKey tk = None).
  { unfold parseMapKey, parseStringValue.
    destruct (Typ tk); try reflexivity; elim Hk; cbn; auto 10. }
  now rewrite Hkey.
Qed.

(** ** Elements for which no node is built *)

Lemma parseToken_ignored fuel tk c :
  yieldsNode tk = false ->
  parseToken (S fuel) (Some tk) c = Return (None, c).
Proof.
  unfold yieldsNode. intros H.
  apply orb_false_elim in H as [H H3]. apply orb_false_elim in H as [H1 H2].
  assert (Hs : parseScalarValue tk = None)
    by (destruct (parseScalarValue tk); [discriminate H2 | reflexivity]).
  rewrite (parseToken_kind _ _ _ H1 Hs).
  destruct (Typ tk); try reflexivity; discriminate H3.
Qed.

(** X6.  [parseToken] builds no node for the tokens it does not dispatch
    on (a [']'], a document end, a lone [':'], ...).  As an element of a
    flow mapping such a token is a nil dereference: the loop of
    [parseMapping] calls [GetToken] on the nil node to report it. *)
Theorem parseMapping_nil_element fuel n start values c tk :
  nth_error (tokens c) (idx c) = Some tk ->
  yieldsNode tk = false ->
  Typ tk <> MappingEndType ->
  Typ tk <> CollectEntryType ->
  parseMapping_loop (parseToken (S fuel)) (S n) start values c = NilDeref.
Proof.
  intros Hcur Hy He Hc.
  assert (Hlt : idx c < List.length (tokens c))
    by (apply nth_error_Some; congruence).
  apply Nat.ltb_lt in Hlt. apply Type_eqb_false in He, Hc.
  cbn [parseMapping_loop]. unfold bind at 1. unfold next at 1. rewrite Hlt.
  cbn [negb]. unfold bind at 1. unfold currentToken at 1. rewrite Hcur.
  unfold bind at 1. cbn [deref ret]. rewrite He, Hc.
  unfold bind at 1.
  rewrite (wrapf_step _ _ _ _ (parseToken_ignored _ _ _ Hy)). reflexivity.
Qed.

Lemma parseAnchor_undefined_witness :
  parseToken 1 (Some (Anchor "&" (samples.at_ 1 1 1)))
    (samples.cursorAt 0 samples.loneAnchor) =
  Fail (ErrSyntax "unexpected anchor. anchor name is undefined"
                  (Some (Anchor "&" (samples.at_ 1 1 1)))).
Proof.
  exact (parseAnchor_undefined 0 (samples.cursorAt 0 samples.loneAnchor) _
           eq_refl eq_refl eq_refl).
Defined.

Lemma parseAlias_name_witness :
  parseToken 1 (Some (Alias "*" (samples.at_ 1 1 1)))
    (samples.cursorAt 0 [Alias "*" (samples.at_ 1 1 1)]) =
  Fail (ErrSyntax "unexpected alias. alias name is undefined"
                  (Some (Alias "*" (samples.at_ 1 1 1)))).
Proof.
  exact (parseAlias_name 0 (samples.cursorAt 0 [Alias "*" (samples.at_ 1 1 1)])
           _ eq_refl eq_refl eq_refl).
Defined.

Lemma parseMappingValue_key_kinds_witness :
  parseToken 1 (nth_error samples.intKeyStream 0)
    (samples.cursorAt 0 samples.intKeyStream) =
  Fail (ErrSyntax "unexpected mapping 'key'. key is undefined"
                  (nth_error samples.intKeyStream 0)).
Proof.
  apply (parseMappingValue_key_kinds 0 (samples.cursorAt 0 samples.intKeyStream)).
  - reflexivity.
  - reflexivity.
  - cbn. intuition discriminate.
Defined.

Lemma parseMapping_nil_element_witness :
  parseMapping_loop (parseToken 1) 1 None []
    (samples.cursorAt 1 samples.bracketInMapStream) = NilDeref.
Proof.
  apply (parseMapping_nil_element 0 0 None []
           (samples.cursorAt 1 samples.bracketInMapStream)
           (SequenceEnd "]" (samples.at_ 1 2 2))).
  - reflexivity.
  - reflexivity.
  - discriminate.
  - discriminate.
Defined.

(** ** Flow sequences that are closed *)

Lemma parseSequence_loop_closed fuel body :
  forall n pre start values m en rest,
    Forall (fun t => flowItem t = true) body ->
    List.length body <= n ->
    Typ en = SequenceEndType ->
    parseSequence_loop (parseToken (S fuel)) n start values
      {| idx := List.length pre; tokens := pre ++ body ++ en :: rest;
         mode := m |} =
    Return (Some (ast.SequenceNode start (Some en) true
                    (values ++ flowValues body)),
            {| idx := List.length pre + List.length body;
               tokens := pre ++ body ++ en :: rest; mode := m |}).
Proof.
  induction body as [|t body IH]; intros n pre start values m en rest Hall Hn He.
  - rewrite app_nil_r, Nat.add_0_r. cbn [app].
    assert (Hlt : (List.length pre <? List.length (pre ++ en :: rest)) = true)
      by (apply Nat.ltb_lt; rewrite length_app; cbn; lia).
    destruct n; cbn [parseSequence_loop]; unfold bind at 1; unfold next at 1;
      cbn [idx tokens]; rewrite Hlt; cbn [negb];
      unfold bind at 1; unfold currentToken at 1; cbn [idx tokens];
      rewrite nth_error_middle; unfold bind at 1; cbn [deref ret];
      rewrite He, Type_eqb_refl; reflexivity.
  - inversion Hall as [|? ? Ht Hall']; subst.
    destruct n as [|n]; [cbn in Hn; lia|].
    cbn [parseSequence_loop].
    unfold bind at 1. unfold next at 1. cbn [idx tokens].
    replace (List.length pre <? List.length (pre ++ (t :: body) ++ en :: rest))
      with true
      by (symmetry; apply Nat.ltb_lt; rewrite !length_app; cbn; lia).
    cbn [negb].
    unfold bind at 1. unfold currentToken at 1. cbn [idx tokens app].
    rewrite nth_error_middle.
    unfold bind at 1. cbn [deref ret].
    specialize (IH n (pre ++ [t]) start).
    setoid_rewrite length_app in IH. setoid_rewrite <- app_assoc in IH.
    cbn [List.length app] in IH.
    unfold flowItem in Ht. cbn [flowValues].
    destruct (Type_eqb (Typ t) CollectEntryType) eqn:Hc.
    + assert (Hse : Type_eqb (Typ t) SequenceEndType = false).
      { apply Type_eqb_true in Hc. apply Type_eqb_false. congruence. }
      rewrite Hse.
      unfold bind at 1. unfold progress at 1. cbn [idx tokens mode].
      rewrite IH by (auto; cbn in Hn; lia).
      cbn [List.length]. now rewrite <- Nat.add_assoc.
    + cbn [orb] in Ht.
      assert (Hs : isSome (parseScalarValue t) = true)
        by (unfold isScalarToken in Ht; now apply andb_prop in Ht).
      rewrite (scalar_kind t SequenceEndType Hs) by (cbn; auto).
      unfold bind at 1. rewrite (wrapf_step _ _ _ _ (parseToken_scalar _ _ _ Ht)).
      unfold bind at 1. unfold progress at 1. cbn [idx tokens mode].
      rewrite IH by (auto; cbn in Hn; lia).
      cbn [List.length]. now rewrite <- app_assoc, <- Nat.add_assoc.
Qed.

(** X7.  A flow sequence of scalars closed by [']']: [parse] returns one
    document whose body is the sequence, in flow style, with the scalars
    in order for values, the commas skipped, and the [']'] token for its
    [End]. *)
Theorem parse_closed_flow_sequence st body en m :
  Typ st = SequenceStartType ->
  NextTypeIs st MappingValueType = false ->
  Forall (fun t => flowItem t = true) body ->
  Typ en = SequenceEndType ->
  parse (st :: body ++ [en]) m =
    Return {| ast.Name := EmptyString;
              ast.Docs :=
                [ast.mkDocument None None
                   (Some (ast.SequenceNode (Some st) (Some en) true
                            (flowValues body)))] |}.
Proof.
  intros Hst Hnext Hall Hen.
  assert (Hnc : Forall (fun t => Typ t <> CommentType) (st :: body ++ [en])).
  { constructor; [congruence|]. apply Forall_app; split.
    - eapply Forall_impl; [|exact Hall]. apply flowItem_not_comment.
    - constructor; [congruence | constructor]. }
  unfold parse. rewrite (newContext_no_comments _ _ Hnc).
  cbn [tokens List.length]. cbn [parse_loop].
  unfold bind at 1. unfold next at 1.
  cbn [idx tokens List.length Nat.ltb Nat.leb negb].
  unfold bind at 1. unfold currentToken at 1. cbn [idx tokens nth_error].
  unfold bind at 1.
  assert (Hrun :
    parseToken (S (List.length (body ++ [en]))) (Some st)
      {| idx := 0; tokens := st :: body ++ [en]; mode := m |} =
    Return (Some (ast.SequenceNode (Some st) (Some en) true (flowValues body)),
            {| idx := 1 + List.length body; tokens := st :: body ++ [en];
               mode := m |})).
  { rewrite length_app, Nat.add_comm. cbn [List.length Nat.add].
    rewrite (parseToken_kind _ _ _ Hnext
               (parseScalarValue_kind st _ Hst ltac:(cbn; auto 20))), Hst.
    unfold parseSequence.
    unfold bind at 1. unfold currentToken at 1. cbn [idx tokens nth_error].
    unfold bind at 1. unfold progress at 1. cbn [idx tokens mode].
    unfold bind at 1. unfold remaining at 1. cbn [idx tokens mode].
    change (0 + 1) with (List.length [st]).
    apply (parseSequence_loop_closed (List.length body) body _ [st] (Some st)
             [] m en [] Hall); [|exact Hen].
    cbn [List.length]. rewrite length_app. cbn. lia. }
  rewrite (wrapf_step _ _ _ _ Hrun).
  unfold bind at 1. unfold progress at 1. cbn [idx tokens mode].
  rewrite parse_loop_done by (cbn; rewrite length_app; cbn; lia). reflexivity.
Qed.

Lemma parse_closed_flow_sequence_witness :
  parse [SequenceStart "[" (samples.at_ 1 1 1); New "a" "a" (samples.at_ 1 2 2);
         SequenceEnd "]" (samples.at_ 1 3 3)] 0%N =
  Return {| ast.Name := EmptyString;
            ast.Docs :=
              [ast.mkDocument None None
                 (Some (ast.SequenceNode
                          (Some (SequenceStart "[" (samples.at_ 1 1 1)))
                          (Some (SequenceEnd "]" (samples.at_ 1 3 3))) true
                          [Some (ast.StringNode (New "a" "a" (samples.at_ 1 2 2)))]))] |}.
Proof.
  apply (parse_closed_flow_sequence (SequenceStart "[" (samples.at_ 1 1 1))
           [New "a" "a" (samples.at_ 1 2 2)]
           (SequenceEnd "]" (samples.at_ 1 3 3)) 0%N).
  - reflexivity.
  - reflexivity.
  - repeat constructor.
  - reflexivity.
Defined.

(** ** The loop of [parse] *)

(** The document that [parse] appends for a node. *)
Lemma parse_loop_step fuel n docs c node c1 :
  idx c < List.length (tokens c) ->
  parseToken fuel (nth_error (tokens c) (idx c)) c = Return (node, c1) ->
  parse_loop fuel (S n) docs c =
    parse_loop fuel n
      (match node with
       | None => docs
       | Some (ast.DocumentNode doc) => docs ++ [doc]
       | Some nd => docs ++ [ast.mkDocument None None (Some nd)]
       end) (skip c1).
Proof.
  intros Hlt Hrun. apply Nat.ltb_lt in Hlt.
  cbn [parse_loop]. unfold bind at 1. unfold next at 1. rewrite Hlt.
  cbn [negb]. unfold bind at 1. unfold currentToken at 1.
  unfold bind at 1. rewrite (wrapf_step _ _ _ _ Hrun).
  unfold bind at 1. unfold progress at 1. fold (skip c1).
  destruct node as [[]|]; reflexivity.
Qed.

Lemma scalar_not_document t nd :
  parseScalarValue t = Some nd ->
  forall docs : list ast.Document,
    match nd with
    | ast.DocumentNode doc => docs ++ [doc]
    | _ => docs ++ [ast.mkDocument None None (Some nd)]
    end = docs ++ [ast.mkDocument None None (Some nd)].
Proof.
  unfold parseScalarValue, parseStringValue.
  destruct (Typ t); intros H; inversion H; reflexivity.
Qed.

Lemma parse_loop_scalars fuel tks :
  forall n pre docs m,
    Forall (fun t => isScalarToken t = true) tks ->
    List.length tks <= n ->
    parse_loop (S fuel) n docs
      {| idx := List.length pre; tokens := pre ++ tks; mode := m |} =
    Return (docs ++ map (fun t => ast.mkDocument None None (parseScalarValue t))
                        tks,
            {| idx := List.length pre + List.length tks;
               tokens := pre ++ tks; mode := m |}).
Proof.
  induction tks as [|t tks IH]; intros n pre docs m Hall Hn.
  - rewrite !app_nil_r, Nat.add_0_r. apply parse_loop_done. cbn. lia.
  - inversion Hall as [|? ? Ht Hall']; subst.
    destruct n as [|n]; [cbn in Hn; lia|].
    assert (Hs : exists nd, parseScalarValue t = Some nd).
    { unfold isScalarToken in Ht. apply andb_prop in Ht as [_ Ht].
      destruct (parseScalarValue t); [eauto | discriminate]. }
    destruct Hs as [nd Hs].
    erewrite parse_loop_step;
      [ | cbn; rewrite length_app; cbn; lia
        | cbn [idx tokens]; rewrite nth_error_middle;
          apply (parseToken_scalar _ _ _ Ht) ].
    rewrite Hs, (scalar_not_document _ _ Hs). unfold skip. cbn [idx tokens mode].
    specialize (IH n (pre ++ [t])).
    rewrite length_app, <- app_assoc in IH. cbn [List.length app] in IH.
    rewrite IH by (auto; cbn in Hn; lia).
    cbn [map List.length]. rewrite Hs, <- app_assoc, <- Nat.add_assoc.
    reflexivity.
Qed.

(** X8.  Each top-level node becomes a document of its own: for a stream
    of scalars, none of them a key, [parse] returns one document for
    each, in the order of the stream, the scalar for its body. *)
Theorem parse_scalars tks m :
  Forall (fun t => isScalarToken t = true) tks ->
  parse tks m =
    Return {| ast.Name := EmptyString;
              ast.Docs := map (fun t => ast.mkDocument None None
                                          (parseScalarValue t)) tks |}.
Proof.
  intros Hall.
  assert (Hnc : Forall (fun t => Typ t <> CommentType) tks).
  { eapply Forall_impl; [|exact Hall]. intros t Ht.
    apply flowItem_not_comment. unfold flowItem. rewrite Ht.
    apply orb_true_r. }
  unfold parse. rewrite (newContext_no_comments _ _ Hnc). cbn [tokens].
  destruct tks as [|t tks]; [reflexivity|].
  cbn [List.length].
  rewrite (parse_loop_scalars _ (t :: tks) _ [] [] m Hall (le_n _)).
  reflexivity.
Qed.

(** X9.  The markers of a document.  After a ['---'] the next node is the
    body of the document that starts there, and a ['...'] that follows
    the body is kept as the end of that document; with no ['---'] before
    it the body is wrapped in a document with no markers, and the
    ['...'] is passed over. *)
Theorem parse_document_markers h b e m :
  Typ h = DocumentHeaderType ->
  NextTypeIs h MappingValueType = false ->
  isScalarToken b = true ->
  Typ e = DocumentEndType ->
  NextTypeIs e MappingValueType = false ->
  parse [h; b; e] m =
    Return {| ast.Name := EmptyString;
              ast.Docs := [ast.mkDocument (Some h) (Some e)
                             (parseScalarValue b)] |} /\
  parse [h; b] m =
    Return {| ast.Name := EmptyString;
              ast.Docs := [ast.mkDocument (Some h) None
                             (parseScalarValue b)] |} /\
  parse [b; e] m =
    Return {| ast.Name := EmptyString;
              ast.Docs := [ast.mkDocument None None (parseScalarValue b)] |}.
Proof.
  intros Hh Hhn Hb He Hen.
  pose proof (parseScalarValue_kind h _ Hh ltac:(cbn; auto 20)) as Hhs.
  pose proof (parseScalarValue_kind e _ He ltac:(cbn; auto 20)) as Hes.
  assert (Hbc : Typ b <> CommentType).
  { apply flowItem_not_comment. unfold flowItem. rewrite Hb.
    apply orb_true_r. }
  assert (Hbs : exists nd, parseScalarValue b = Some nd).
  { unfold isScalarToken in Hb. apply andb_prop in Hb as [_ Hb].
    destruct (parseScalarValue b); [eauto | discriminate]. }
  destruct Hbs as [nd Hbs].
  assert (Hey : yieldsNode e = false).
  { unfold yieldsNode. now rewrite Hen, Hes, He. }
  assert (Hdoc : forall fuel tail,
    parseToken (S (S fuel)) (Some h)
      {| idx := 0; tokens := h :: b :: tail; mode := m |} =
    Return (Some (ast.DocumentNode
                    (ast.mkDocument (Some h)
                       (match tail with
                        | t :: _ =>
                            if Type_eqb (Typ t) DocumentEndType
                            then Some t else None
                        | [] => None
                        end) (parseScalarValue b))),
            {| idx := match tail with
                      | t :: _ =>
                          if Type_eqb (Typ t) DocumentEndType then 2 else 1
                      | [] => 1
                      end;
               tokens := h :: b :: tail; mode := m |})).
  { intros fuel tail. rewrite (parseToken_kind _ _ _ Hhn Hhs), Hh.
    unfold parseDocument.
    unfold bind at 1. unfold currentToken at 1. cbn [idx tokens nth_error].
    unfold bind at 1. unfold progress at 1. cbn [idx tokens mode].
    unfold bind at 1. unfold currentToken at 1. cbn [idx tokens nth_error Nat.add].
    unfold bind at 1.
    rewrite (wrapf_step _ _ _ _ (parseToken_scalar _ _ _ Hb)).
    unfold bind at 1. unfold nextToken at 1. cbn [idx tokens nth_error Nat.add].
    destruct tail as [|t tail]; [reflexivity|].
    destruct (Type_eqb (Typ t) DocumentEndType); reflexivity. }
  unfold parse.
  rewrite !newContext_no_comments
    by (repeat constructor; congruence).
  cbn [tokens List.length].
  split; [|split].
  - erewrite parse_loop_step; [|cbn; lia | apply (Hdoc 1 [e])].
    cbn [Type_eqb]. rewrite He, Type_eqb_refl. unfold skip. cbn [idx tokens mode].
    rewrite parse_loop_done by (cbn; lia). reflexivity.
  - erewrite parse_loop_step; [|cbn; lia | apply (Hdoc 0 [])].
    unfold skip. cbn [idx tokens mode].
    rewrite parse_loop_done by (cbn; lia). reflexivity.
  - erewrite parse_loop_step;
      [|cbn; lia | cbn [idx tokens nth_error]; apply (parseToken_scalar _ _ _ Hb)].
    rewrite Hbs, (scalar_not_document _ _ Hbs). unfold skip. cbn [idx tokens mode].
    erewrite parse_loop_step;
      [|cbn; lia | cbn [idx tokens nth_error Nat.add];
                   apply (parseToken_ignored _ _ _ Hey)].
    unfold skip. cbn [idx tokens mode].
    rewrite parse_loop_done by (cbn; lia). reflexivity.
Qed.

Lemma parse_scalars_witness :
  parse [New "a" "a" (samples.at_ 1 1 1); New "1" "1" (samples.at_ 2 1 3)] 0%N =
  Return {| ast.Name := EmptyString;
            ast.Docs :=
              [ast.mkDocument None None
                 (Some (ast.StringNode (New "a" "a" (samples.at_ 1 1 1))));
               ast.mkDocument None None
                 (Some (ast.IntegerNode (New "1" "1" (samples.at_ 2 1 3))))] |}.
Proof.
  apply (parse_scalars
           [New "a" "a" (samples.at_ 1 1 1); New "1" "1" (samples.at_ 2 1 3)]
           0%N).
  repeat constructor.
Defined.

Lemma parse_document_markers_witness :
  parse [DocumentHeader (samples.at_ 1 1 1); New "a" " a" (samples.at_ 1 5 5);
         DocumentEnd (samples.at_ 2 1 7)] 0%N =
  Return {| ast.Name := EmptyString;
            ast.Docs :=
              [ast.mkDocument (Some (DocumentHeader (samples.at_ 1 1 1)))
                 (Some (DocumentEnd (samples.at_ 2 1 7)))
                 (Some (ast.StringNode (New "a" " a" (samples.at_ 1 5 5))))] |}.
Proof.
  apply (parse_document_markers (DocumentHeader (samples.at_ 1 1 1))
           (New "a" " a" (samples.at_ 1 5 5))
           (DocumentEnd (samples.at_ 2 1 7)) 0%N);
    reflexivity.
Defined.

(** ** The causes of the errors *)

Lemma linked_next tks : forall i t t',
  linked tks = true ->
  nth_error tks i = Some t ->
  nth_error tks (i + 1) = Some t' ->
  NextTypeIs t (Typ t') = true.
Proof.
  induction tks as [|a tks IH]; intros i t t' Hl Hi Hi';
    [destruct i; discriminate|].
  cbn [linked] in Hl. apply andb_prop in Hl as [Ha Hl].
  destruct i as [|i].
  - cbn in Hi, Hi'. inversion Hi; subst a.
    destruct tks as [|b tks]; [discriminate|]. cbn in Hi'. inversion Hi'; subst b.
    unfold NextTypeIs. unfold optType_eqb in Ha.
    destruct (Next t); [exact Ha | discriminate].
  - cbn in Hi, Hi'. exact (IH i t t' Hl Hi Hi').
Qed.

Lemma isSyntaxError_Wrapf e msg :
  isSyntaxError (Wrapf e msg) = isSyntaxError e.
Proof. reflexivity. Qed.

Lemma validateMapKey_syntax t err :
  validateMapKey t = Some err -> isSyntaxError err = true.
Proof.
  unfold validateMapKey. destruct (Typ t); try discriminate.
  destruct (Z.ltb _ _); [|discriminate]. intros H; inversion H; reflexivity.
Qed.

Lemma fs_ret {A} (a : A) : failsSyntax (ret a).
Proof. intros c e _ H; discriminate. Qed.

Lemma fs_bind {A B} (m : M A) (k : A -> M B) :
  failsSyntax m -> forward m -> (forall a, failsSyntax (k a)) ->
  failsSyntax (bind m k).
Proof.
  intros Hm Hf Hk c e Hl H. unfold bind in H.
  destruct (m c) as [[a c1]|e1| |] eqn:E; try discriminate.
  - apply Hf in E as (Ht & _ & _). apply (Hk a c1 e); [now rewrite Ht | exact H].
  - inversion H; subst e1. exact (Hm _ _ Hl E).
Qed.

Lemma fs_wrapf {A} (m : M A) msg : failsSyntax m -> failsSyntax (wrapf m msg).
Proof.
  intros Hm c e Hl H. unfold wrapf in H.
  destruct (m c) as [[a c1]|e1| |] eqn:E; try discriminate.
  inversion H. rewrite isSyntaxError_Wrapf. exact (Hm _ _ Hl E).
Qed.

Lemma fs_throw {A} e : isSyntaxError e = true -> failsSyntax (@throw A e).
Proof. intros He c e' _ H; inversion H; subst; exact He. Qed.

Lemma fs_panic {A} : failsSyntax (@panic A).
Proof. intros c e _ H; discriminate. Qed.

Lemma fs_noFuel {A} : failsSyntax (@noFuel A).
Proof. intros c e _ H; discriminate. Qed.

Lemma fs_deref {A} (o : option A) : failsSyntax (deref o).
Proof. destruct o; [apply fs_ret | apply fs_panic]. Qed.

Lemma fs_next : failsSyntax next.
Proof. intros c e _ H; discriminate. Qed.

Lemma fs_currentToken : failsSyntax currentToken.
Proof. intros c e _ H; discriminate. Qed.

Lemma fs_nextToken : failsSyntax nextToken.
Proof. intros c e _ H; discriminate. Qed.

Lemma fs_afterNextToken : failsSyntax afterNextToken.
Proof. intros c e _ H; discriminate. Qed.

Lemma fs_remaining : failsSyntax remaining.
Proof. intros c e _ H; discriminate. Qed.

Lemma fs_progress n : failsSyntax (progress n).
Proof. intros c e _ H; discriminate. Qed.

Lemma fs_tokenColumn n : failsSyntax (tokenColumn n).
Proof.
  unfold tokenColumn. apply fs_bind;
    [apply fs_deref | apply forward_deref | intros; apply fs_ret].
Qed.

Create HintDb failsSyntax.

#[local] Hint Resolve fs_ret fs_wrapf fs_panic fs_noFuel fs_deref fs_next
  fs_currentToken fs_nextToken fs_afterNextToken fs_remaining fs_progress
  fs_tokenColumn : failsSyntax.

(** What a block mapping group is returned as, whatever the values. *)
Lemma parseMappingValue_isPairs rec c r c' :
  parseMappingValue rec c = Return (r, c') -> isPairs r = true.
Proof.
  unfold parseMappingValue; intros H.
  run_inv H.
  destruct (parseMapKey a0) as [key|]; [|discriminate].
  run_inv H.
  destruct (validateMapKey a1); [discriminate|].
  destruct (negb (ast.isScalarNode key)); [discriminate|].
  run_inv H.
  destruct (Nat.eqb _ 1); inversion H; reflexivity.
Qed.

Lemma parseToken_isPairs fuel t c r c' :
  NextTypeIs t MappingValueType = true ->
  parseToken fuel (Some t) c = Return (r, c') -> isPairs r = true.
Proof.
  intros Hn H. destruct fuel as [|fuel]; [discriminate|].
  cbn [parseToken] in H. unfold parseToken_body in H. rewrite Hn in H.
  exact (parseMappingValue_isPairs _ _ _ _ H).
Qed.

Ltac fs_step :=
  match goal with
  | |- failsSyntax (bind _ _) =>
      apply fs_bind; [ | solve [forward_auto] | intros ?]
  | |- failsSyntax (wrapf _ _) => apply fs_wrapf
  | |- failsSyntax (throw _) => apply fs_throw; reflexivity
  | |- failsSyntax (if ?b then _ else _) => destruct b
  | |- failsSyntax (match ?x with _ => _ end) => destruct x eqn:?
  | |- failsSyntax _ => solve [auto with failsSyntax]
  end.

Ltac fs_auto := repeat fs_step.

Section SyntaxSubParsers.

Variable rec : option Token -> M (option ast.Node).
Hypothesis rec_forward : forall tk, forward (rec tk).
Hypothesis rec_fs : forall tk, failsSyntax (rec tk).
Hypothesis rec_isPairs : forall t c r c',
  NextTypeIs t MappingValueType = true ->
  rec (Some t) c = Return (r, c') -> isPairs r = true.

Local Hint Resolve rec_forward : forward.
Local Hint Resolve forward_parseMapping_loop forward_parseSequence_loop
  forward_parseMappingValue_loop forward_parseSequenceEntry_loop : forward.
Local Hint Resolve rec_fs : failsSyntax.

Lemma fs_parseMapping_loop n start values :
  failsSyntax (parseMapping_loop rec n start values).
Proof.
  revert values; induction n as [|n IH]; intros values; cbn; fs_auto.
Qed.

Lemma fs_parseSequence_loop n start values :
  failsSyntax (parseSequence_loop rec n start values).
Proof.
  revert values; induction n as [|n IH]; intros values; cbn; fs_auto.
Qed.

Lemma fs_parseSequenceEntry_loop n start col tk values :
  failsSyntax (parseSequenceEntry_loop rec n start col tk values).
Proof.
  revert tk values; induction n as [|n IH]; intros tk values; cbn; fs_auto.
Qed.

(** The loop over the sibling pairs: the token it parses is followed by
    [':'], so the node is a pair or a mapping, and the error for any
    other node is never raised. *)
Lemma fs_parseMappingValue_loop n : forall kc ntk antk values c e,
  linked (tokens c) = true ->
  ntk = nth_error (tokens c) (idx c + 1) ->
  antk = nth_error (tokens c) (idx c + 2) ->
  parseMappingValue_loop rec n kc ntk antk values c = Fail e ->
  isSyntaxError e = true.
Proof.
  induction n as [|n IH]; intros kc ntk antk values c e Hl Hn Ha H.
  all: cbn [parseMappingValue_loop] in H.
  all: destruct antk as [a|]; [|discriminate H].
  all: destruct (negb (Type_eqb (Typ a) MappingValueType)) eqn:Ea;
    [discriminate H|].
  all: destruct ntk as [nt|]; [|discriminate H].
  all: unfold bind at 1 in H; cbn [deref ret] in H.
  all: destruct (negb (Z.eqb (Column (Position_ nt)) kc)); [discriminate H|].
  1: discriminate H.
  apply negb_false_iff, Type_eqb_true in Ea.
  assert (Hnt : NextTypeIs nt MappingValueType = true).
  { rewrite <- Ea. apply (linked_next (tokens c) (idx c + 1)); auto.
    now rewrite <- Nat.add_assoc. }
  unfold bind at 1 in H. unfold progress at 1 in H.
  unfold bind at 1 in H. unfold currentToken at 1 in H.
  cbn [idx tokens mode] in H. rewrite <- Hn in H.
  unfold bind at 1 in H. unfold wrapf at 1 in H.
  destruct (rec (Some nt) _) as [[value c1]|e1| |] eqn:E; try discriminate H.
  - pose proof (rec_isPairs _ _ _ _ Hnt E) as Hp.
    apply rec_forward in E as (Ht & _ & _). cbn [tokens] in Ht.
    destruct value as [v|]; [|discriminate Hp].
    unfold bind at 1 in H. cbn [deref ret] in H.
    destruct v; try discriminate Hp.
    + unfold bind at 1 in H. unfold nextToken at 1 in H.
      unfold bind at 1 in H. unfold afterNextToken at 1 in H.
      apply (IH _ _ _ _ _ _ ltac:(now rewrite Ht) eq_refl eq_refl H).
    + unfold bind at 1 in H. unfold nextToken at 1 in H.
      unfold bind at 1 in H. unfold afterNextToken at 1 in H.
      apply (IH _ _ _ _ _ _ ltac:(now rewrite Ht) eq_refl eq_refl H).
  - inversion H. rewrite isSyntaxError_Wrapf.
    apply (rec_fs (Some nt) _ _) in E; [exact E | exact Hl].
Qed.

Lemma fs_siblings kc mv (k : list ast.MappingValue -> M (option ast.Node)) :
  (forall vs, failsSyntax (k vs)) ->
  failsSyntax
    (ntk <- nextToken ;;
     antk <- afterNextToken ;;
     n <- remaining ;;
     values <- parseMappingValue_loop rec n kc ntk antk [mv] ;;
     k values).
Proof.
  intros Hk c e Hl H.
  unfold bind at 1 in H. unfold nextToken at 1 in H.
  unfold bind at 1 in H. unfold afterNextToken at 1 in H.
  unfold bind at 1 in H. unfold remaining at 1 in H.
  unfold bind at 1 in H.
  destruct (parseMappingValue_loop _ _ _ _ _ _ c) as [[vs c1]|e1| |] eqn:E;
    try discriminate H.
  - apply forward_parseMappingValue_loop in E as (Ht & _ & _);
      [|exact rec_forward].
    apply (Hk vs c1 e); [now rewrite Ht | exact H].
  - inversion H; subst e1.
    exact (fs_parseMappingValue_loop _ _ _ _ _ _ _ Hl eq_refl eq_refl E).
Qed.

Local Hint Resolve fs_parseMapping_loop fs_parseSequence_loop
  fs_parseSequenceEntry_loop : failsSyntax.

Lemma fs_parseMappingValue : failsSyntax (parseMappingValue rec).
Proof.
  unfold parseMappingValue.
  repeat match goal with
  | |- failsSyntax (bind nextToken (fun _ => bind afterNextToken _)) =>
      apply fs_siblings; intros ?
  | |- failsSyntax (throw (Wrapf _ _)) =>
      apply fs_throw; rewrite isSyntaxError_Wrapf;
      eapply validateMapKey_syntax; eassumption
  | _ => fs_step
  end.
Qed.

Lemma fs_parseToken_body tk : failsSyntax (parseToken_body rec tk).
Proof.
  unfold parseToken_body.
  destruct (NextTypeIs tk MappingValueType); [apply fs_parseMappingValue|].
  unfold parseDocument, parseMapping, parseSequence, parseSequenceEntry,
    parseAnchor, parseAlias, parseDirective, parseTag, parseLiteral.
  fs_auto.
Qed.

End SyntaxSubParsers.

Lemma fs_parseToken fuel : forall tk, failsSyntax (parseToken fuel tk).
Proof.
  induction fuel as [|fuel IH]; intros [t|]; cbn [parseToken];
    try apply fs_panic; try apply fs_noFuel.
  apply fs_parseToken_body.
  - apply forward_parseToken.
  - exact IH.
  - intros ? ? ? ?. apply parseToken_isPairs.
Qed.

Lemma fs_parse_loop fuel n : forall docs, failsSyntax (parse_loop fuel n docs).
Proof.
  pose proof (forward_parseToken fuel) as Hf.
  pose proof (fs_parseToken fuel) as Hs.
  induction n as [|n IH]; intros docs; cbn [parse_loop]; fs_auto.
Qed.

(** X10.  The parser works on the stream [newContext] keeps: the tokens
    without the comments, unless the mode asks for them.  When in that
    stream the forward link of every token is the kind of the token that
    follows it, every error of [Parse] is a syntax error at its root:
    the cause under the wrapped messages is an [ErrSyntax] carrying the
    token, never the formatted error for a node of an unexpected kind in
    a block mapping.  The condition is on the stream after the comments
    are taken out, not on the stream handed to [Parse]: a comment that
    is taken out leaves the link of the token before it pointing at the
    comment. *)
Theorem Parse_error_is_syntax tks m e :
  linked (tokens (newContext tks m)) = true ->
  Parse tks m = Fail e ->
  isSyntaxError e = true.
Proof.
  intros Hl H. unfold Parse, parse in H.
  destruct (parse_loop _ _ _ _) as [[docs c1]|e1| |] eqn:E;
    try discriminate H.
  cbn in H. inversion H. rewrite isSyntaxError_Wrapf.
  exact (fs_parse_loop _ _ _ _ _ Hl E).
Qed.

Lemma Parse_error_is_syntax_witness :
  isSyntaxError
    (Wrapf (Wrapf (ErrSyntax "unexpected mapping 'key'. key is undefined"
                             (nth_error samples.intKeyStream 0))
                  "failed to parse") "failed to parse") = true.
Proof.
  apply (Parse_error_is_syntax samples.intKeyStream 0%N).
  - reflexivity.
  - reflexivity.
Defined.

(** Without the links the formatted error is reached: the second key is
    parsed as a scalar. *)
Lemma Parse_unlinked_reaches_Errorf :
  linked samples.unlinkedPairs = false /\
  Parse samples.unlinkedPairs 0%N =
    Fail (Wrapf (Wrapf (Errorf "failed to parse mapping value node node is %s"
                               ast.StringType)
                       "failed to parse") "failed to parse") /\
  linked (link samples.unlinkedPairs) = true.
Proof. repeat split; vm_compute; reflexivity. Qed.

(** A comment between a key and its [':'] is taken out of a stream that
    the lexer has linked: the stream the parser works on is not linked
    any more, and the formatted error is reached. *)
Lemma Parse_comment_reaches_Errorf :
  exists tks,
    lexer.Tokenize samples.commentedKey = Some tks /\
    linked tks = true /\
    linked (tokens (newContext tks 0%N)) = false /\
    Parse tks 0%N =
      Fail (Wrapf (Wrapf (Errorf "failed to parse mapping value node node is %s"
                                 ast.StringType)
                         "failed to parse") "failed to parse").
Proof.
  eexists. split; [vm_compute; reflexivity|].
  repeat split; vm_compute; reflexivity.
Qed.

(** ** Keys over several lines *)

Lemma Index_range s c : (-1 <= strings.Index s c)%Z.
Proof.
  induction s as [|a s IH]; cbn; [lia|].
  destruct (Ascii.eqb a c); [lia|].
  destruct (strings.Index s c); lia.
Qed.

Lemma Index_found s c :
  (0 <= strings.Index s c)%Z <->
  exists mid rest, s = (mid ++ String c rest)%string.
Proof.
  induction s as [|a s IH]; cbn.
  - split; [lia|]. intros (mid & rest & H). destruct mid; discriminate H.
  - destruct (Ascii.eqb_spec a c) as [->|Hne].
    + split; [|lia]. intros _. exists EmptyString, s. reflexivity.
    + pose proof (Index_range s c) as Hr.
      destruct (strings.Index s c) eqn:E.
      * split; [|lia]. intros _.
        destruct (proj1 IH ltac:(lia)) as (mid & rest & ->).
        exists (String a mid), rest. reflexivity.
      * split; [|lia]. intros _.
        destruct (proj1 IH ltac:(lia)) as (mid & rest & ->).
        exists (String a mid), rest. reflexivity.
      * split; [lia|]. intros (mid & rest & H).
        destruct mid as [|b mid]; cbn in H; inversion H; [congruence|].
        assert (0 <= Z.neg p)%Z; [|lia]. apply IH. eauto.
Qed.

Lemma TrimLeft_split o c :
  exists lead, o = (lead ++ strings.TrimLeft o c)%string /\
               strings.TrimLeft lead c = EmptyString.
Proof.
  induction o as [|a o (lead & H1 & H2)]; [now exists EmptyString|].
  cbn [strings.TrimLeft]. destruct (Ascii.eqb a c) eqn:E.
  - exists (String a lead). cbn. rewrite E. split; [now f_equal | exact H2].
  - exists EmptyString. split; reflexivity.
Qed.

Lemma TrimLeft_head o c a s :
  strings.TrimLeft o c = String a s -> a <> c.
Proof.
  induction o as [|b o IH]; cbn; [discriminate|].
  destruct (Ascii.eqb_spec b c); [exact IH|]. intros H; inversion H; congruence.
Qed.

Lemma TrimLeft_lead lead c a s :
  strings.TrimLeft lead c = EmptyString -> a <> c ->
  strings.TrimLeft (lead ++ String a s) c = String a s.
Proof.
  intros Hl Ha. induction lead as [|b lead IH]; cbn.
  - destruct (Ascii.eqb_spec a c); [contradiction | reflexivity].
  - cbn in Hl. destruct (Ascii.eqb b c); [auto | discriminate].
Qed.

(** X11.  [validateMapKey] rejects a plain key exactly when its original
    lexeme runs over a line end: when, after the newlines it starts
    with, a character that is not a newline is followed, at any
    distance, by a newline.  Because the trimmed lexeme never starts
    with a newline, the test [Index > 0] misses no newline. *)
Theorem validateMapKey_rejects tk :
  validateMapKey tk = Some (ErrSyntax "unexpected key name" (Some tk)) <->
  Typ tk = StringType /\
  exists lead c mid rest,
    Origin tk = (lead ++ String c (mid ++ String "010" rest))%string /\
    strings.TrimLeft lead "010" = EmptyString /\ c <> "010"%char.
Proof.
  unfold validateMapKey. split.
  - intros H. destruct (Typ tk); try discriminate H. split; [reflexivity|].
    destruct (Z.ltb_spec 0
      (strings.Index (strings.TrimLeft (Origin tk) "010") "010")) as [Hi|];
      [|discriminate H].
    destruct (TrimLeft_split (Origin tk) "010") as (lead & Ho & Hl).
    destruct (strings.TrimLeft (Origin tk) "010") as [|c s] eqn:Et;
      [cbn in Hi; lia|].
    pose proof (TrimLeft_head _ _ _ _ Et) as Hc.
    cbn in Hi. destruct (Ascii.eqb_spec c "010"); [contradiction|].
    destruct (proj1 (Index_found s "010")) as (mid & rest & ->).
    { pose proof (Index_range s "010").
      destruct (strings.Index s "010"); lia. }
    exists lead, c, mid, rest. auto.
  - intros (Ht & lead & c & mid & rest & Ho & Hl & Hc).
    rewrite Ht, Ho, (TrimLeft_lead _ _ _ _ Hl Hc). cbn [strings.Index].
    destruct (Ascii.eqb_spec c "010"); [contradiction|].
    assert (Hi : (0 <= strings.Index (mid ++ String "010" rest) "010")%Z)
      by (apply Index_found; eauto).
    destruct (strings.Index (mid ++ String "010" rest) "010") eqn:E;
      [reflexivity | reflexivity | lia].
Qed.

Lemma validateMapKey_rejects_witness :
  validateMapKey samples.twoLineKey =
    Some (ErrSyntax "unexpected key name" (Some samples.twoLineKey)).
Proof.
  apply (proj2 (validateMapKey_rejects samples.twoLineKey)).
  split; [reflexivity|].
  exists EmptyString, "a"%char, EmptyString, "b"%string.
  repeat split. discriminate.
Defined.

(** ** Termination and the cursor *)

(** X1.  [Parse] terminates on every token stream: each loop of the
    parser advances the cursor and each nested call of [parseToken]
    comes after an advance, so the counters of the model, which start
    at the number of tokens, never run out.  The call ends in a file, an
    error or a nil dereference. *)
Theorem Parse_terminates tks m : Parse tks m <> NoFuel.
Proof.
  unfold Parse. pose proof (parse_has_fuel tks m) as H.
  destruct (parse tks m); cbn; congruence.
Qed.

(** X2.  No sub-parser moves the cursor back, and none changes the token
    sequence or the mode: when [parseToken] returns, the context holds
    the same tokens and the cursor is where it was or further on. *)
Theorem parseToken_cursor fuel tk c r c' :
  parseToken fuel tk c = Return (r, c') ->
  tokens c' = tokens c /\ mode c' = mode c /\ idx c <= idx c'.
Proof. apply forward_parseToken. Qed.

Lemma parseToken_cursor_witness :
  tokens (samples.cursorAt 2 samples.pairStream) = samples.pairStream /\
  mode (samples.cursorAt 2 samples.pairStream) = 0%N /\ 0 <= 2.
Proof.
  apply (parseToken_cursor 2 (nth_error samples.pairStream 0)
           (samples.cursorAt 0 samples.pairStream)
           (Some (ast.MappingValueNode
                    (ast.mkMappingValue (nth_error samples.pairStream 1)
                       (ast.StringNode (nth 0 samples.pairStream
                                          (New "a" "a" (samples.at_ 1 1 1))))
                       (ast.IntegerNode (nth 2 samples.pairStream
                                           (New "a" "a" (samples.at_ 1 1 1)))))))).
  reflexivity.
Defined.

(** ** Block mappings of scalar pairs *)

Lemma bind_next {B} (k : bool -> M B) c :
  bind next k c = k (idx c <? List.length (tokens c)) c.
Proof. reflexivity. Qed.

Lemma bind_currentToken {B} (k : option Token -> M B) c :
  bind currentToken k c = k (nth_error (tokens c) (idx c)) c.
Proof. reflexivity. Qed.

Lemma bind_nextToken {B} (k : option Token -> M B) c :
  bind nextToken k c = k (nth_error (tokens c) (idx c + 1)) c.
Proof. reflexivity. Qed.

Lemma bind_afterNextToken {B} (k : option Token -> M B) c :
  bind afterNextToken k c = k (nth_error (tokens c) (idx c + 2)) c.
Proof. reflexivity. Qed.

Lemma bind_remaining {B} (k : nat -> M B) c :
  bind remaining k c = k (List.length (tokens c) - idx c) c.
Proof. reflexivity. Qed.

Lemma bind_progress {B} (k : unit -> M B) n c :
  bind (progress n) k c =
  k tt {| idx := idx c + n; tokens := tokens c; mode := mode c |}.
Proof. reflexivity. Qed.

Lemma bind_ret {A B} (a : A) (k : A -> M B) c : bind (ret a) k c = k a c.
Proof. reflexivity. Qed.

Lemma bind_deref {A B} (a : A) (k : A -> M B) c :
  bind (deref (Some a)) k c = k a c.
Proof. reflexivity. Qed.

Lemma scalar_token t nd :
  parseScalarValue t = Some nd -> ast.GetToken nd = Some t.
Proof.
  unfold parseScalarValue, parseStringValue.
  destruct (Typ t); intros H; inversion H; reflexivity.
Qed.

Lemma parseToken_S fuel t :
  parseToken (S fuel) (Some t) = parseToken_body (parseToken fuel) t.
Proof. reflexivity. Qed.

Lemma parseMapKey_string k :
  Typ k = StringType -> parseMapKey k = Some (ast.StringNode k).
Proof. intros H. unfold parseMapKey, parseStringValue. now rewrite H. Qed.

Lemma nth_error_pre {A} (pre l : list A) i :
  nth_error (pre ++ l) (List.length pre + i) = nth_error l i.
Proof. rewrite nth_error_app2 by lia. f_equal. lia. Qed.

Lemma bind_wrapf {A B} (m : M A) msg (k : A -> M B) c a c1 :
  m c = Return (a, c1) -> bind (wrapf m msg) k c = k a c1.
Proof. intros H. unfold bind. now rewrite (wrapf_step _ _ _ _ H). Qed.

(* run the cursor operations at the head of a computation *)
Ltac run_head :=
  repeat (progress
    (rewrite ?bind_assoc, ?bind_ret, ?bind_deref, ?bind_progress,
       ?bind_currentToken, ?bind_nextToken, ?bind_afterNextToken,
       ?bind_remaining, ?bind_next;
     cbn [idx tokens mode];
     rewrite <- ?Nat.add_assoc; cbn [Nat.add];
     rewrite ?nth_error_pre; cbn [nth_error])).

Lemma parseMappingValue_loop_end rec n kc ntk values c :
  parseMappingValue_loop rec n kc ntk None values c = Return (values, c).
Proof. destruct n; reflexivity. Qed.

Lemma length_pairs (ps : list Pair) :
  List.length (flat_map pairTokens ps) = 3 * List.length ps.
Proof.
  induction ps as [|[[k c] v] ps IH]; [reflexivity|].
  cbn [flat_map pairTokens app List.length]. rewrite IH. lia.
Qed.

Lemma parseBlockPairs kc ps : forall p pre m fuel,
  Forall (pairOk kc) (p :: ps) ->
  List.length ps <= fuel ->
  parseToken (S (S fuel)) (Some (fst (fst p)))
    {| idx := List.length pre;
       tokens := pre ++ flat_map pairTokens (p :: ps); mode := m |} =
  Return (Some (pairsNode p ps),
          {| idx := List.length pre + 3 * List.length (p :: ps) - 1;
             tokens := pre ++ flat_map pairTokens (p :: ps); mode := m |}).
Proof.
  induction ps as [|p2 ps IH]; intros [[k c] v] pre m fuel Hall Hfuel.
  all: inversion Hall as [|? ? Hp Hall']; subst.
  all: destruct Hp as (Hk & Hkn & Hkv & Hkc & Hc & Hv & Hvc).
  all: assert (Hvs : exists nd, parseScalarValue v = Some nd)
    by (unfold isScalarToken in Hv; apply andb_prop in Hv as [_ Hv];
        destruct (parseScalarValue v); [eauto | discriminate]).
  all: destruct Hvs as [nd Hvs].
  all: cbn [fst snd].
  all: rewrite parseToken_S; unfold parseToken_body at 1; rewrite Hkn.
  all: unfold parseMappingValue.
  all: rewrite bind_currentToken; cbn [idx tokens flat_map pairTokens app].
  all: rewrite nth_error_middle, bind_deref, (parseMapKey_string _ Hk).
  all: cbn [ast.GetToken]; rewrite bind_deref, Hkv.
  all: cbn [ast.isScalarNode negb].
  all: run_head.
  all: erewrite bind_wrapf by (apply (parseToken_scalar _ _ _ Hv)).
  all: rewrite Hvs; unfold tokenColumn; run_head.
  all: cbn [ast.GetToken]; run_head.
  all: rewrite (scalar_token _ _ Hvs); run_head.
  all: rewrite Hkc; rewrite (proj2 (Z.eqb_neq _ _)) by congruence; run_head.
  - unfold bind at 1. rewrite parseMappingValue_loop_end.
    cbn [List.length Nat.eqb].
    unfold ret, pairsNode, pairValue. rewrite Hvs.
    cbn [List.length].
    replace (List.length pre + 3 * 1 - 1) with (List.length pre + 2) by lia.
    reflexivity.
  - destruct p2 as [[k2 c2] v2].
    inversion Hall' as [|? ? Hp2 Hall'']; subst.
    pose proof Hp2 as (Hk2 & _ & _ & Hkc2 & Hc2 & _ & _).
    cbn [pairTokens app].
    destruct fuel as [|fuel]; [cbn in Hfuel; lia|].
    match goal with
    | |- context [parseMappingValue_loop _ ?n] =>
        assert (Hn : exists n', n = S n')
          by (exists (List.length (flat_map pairTokens ps) + 3);
              rewrite length_app; cbn [List.length]; lia);
        destruct Hn as [n' ->]
    end.
    unfold bind at 1. cbn [parseMappingValue_loop].
    rewrite Hc2, Type_eqb_refl. cbn [negb].
    rewrite bind_deref, Hkc2, Z.eqb_refl. cbn [negb].
    run_head.
    specialize (IH (k2, c2, v2) (pre ++ [k; c; v]) m fuel Hall'
                  ltac:(cbn in Hfuel; lia)).
    rewrite length_app, <- app_assoc in IH.
    cbn [List.length app flat_map pairTokens fst snd] in IH.
    rewrite <- Nat.add_assoc in IH. cbn [Nat.add] in IH.
    erewrite bind_wrapf by (exact IH).
    rewrite bind_deref.
    set (cend := {| idx := List.length pre + S (S (S (3 * S (List.length ps)))) - 1;
                    tokens := _; mode := m |}).
    assert (Hend : forall vs,
      (ntk' <- nextToken ;; antk' <- afterNextToken ;;
       parseMappingValue_loop (parseToken (S (S fuel))) n'
         (Column (Position_ k)) ntk' antk' vs) cend = Return (vs, cend)).
    { intros vs. rewrite bind_nextToken, bind_afterNextToken.
      replace (nth_error (tokens cend) (idx cend + 2)) with (@None Token).
      - apply parseMappingValue_loop_end.
      - symmetry. apply nth_error_None. unfold cend. cbn [idx tokens].
        rewrite length_app. cbn [List.length]. rewrite length_pairs. lia. }
    assert (Hp1 : pairValue (k, c, v) =
                  ast.mkMappingValue (Some c) (ast.StringNode k) nd)
      by (unfold pairValue; now rewrite Hvs).
    unfold pairsNode at 1 2.
    destruct ps as [|p3 ps]; rewrite Hend; cbn [List.length app Nat.eqb];
      unfold ret, pairsNode; cbn [fst snd]; rewrite <- Hp1;
      cbn [map List.length Nat.eqb]; unfold cend;
      do 3 f_equal; cbn [List.length]; lia.
Qed.

(** X12.  A block mapping of scalar pairs.  For a stream of [n] pairs
    [key: value] whose keys are plain strings at one column and whose
    values are scalars at other columns, [parse] returns one document:
    its body is the bare pair when [n] is one, and otherwise one mapping
    that starts at the first [':'] and holds the [n] pairs in order --
    the pairs after the first are parsed by the nested call and spliced
    into the mapping of the first. *)
Theorem parse_block_pairs kc p ps m :
  Forall (pairOk kc) (p :: ps) ->
  parse (flat_map pairTokens (p :: ps)) m =
    Return {| ast.Name := EmptyString;
              ast.Docs := [ast.mkDocument None None (Some (pairsNode p ps))] |}.
Proof.
  intros Hall.
  assert (Hnc : Forall (fun t => Typ t <> CommentType)
                  (flat_map pairTokens (p :: ps))).
  { apply Forall_flat_map. eapply Forall_impl; [|exact Hall].
    intros [[k c] v] (Hk & _ & _ & _ & Hc & Hv & _).
    repeat constructor; try congruence.
    apply flowItem_not_comment. unfold flowItem. rewrite Hv.
    apply orb_true_r. }
  unfold parse. rewrite (newContext_no_comments _ _ Hnc). cbn [tokens].
  rewrite length_pairs.
  pose proof (parseBlockPairs kc ps p [] m (3 * List.length (p :: ps) - 2)
                Hall ltac:(cbn [List.length]; lia)) as Hrun.
  cbn [app List.length Nat.add] in Hrun.
  replace (S (S (3 * S (List.length ps) - 2))) with (3 * List.length (p :: ps))
    in Hrun by (cbn [List.length]; lia).
  replace (3 * List.length (p :: ps))
    with (S (3 * List.length (p :: ps) - 1)) at 2 by (cbn [List.length]; lia).
  destruct p as [[k c] v].
  set (c0 := {| idx := 0; tokens := flat_map pairTokens ((k, c, v) :: ps);
                mode := m |}) in *.
  assert (Hlt : idx c0 < List.length (tokens c0))
    by (unfold c0; cbn [idx tokens]; rewrite length_pairs;
        cbn [List.length]; lia).
  rewrite (parse_loop_step _ _ _ c0 _ _ Hlt Hrun).
  rewrite parse_loop_done
    by (unfold skip; cbn [idx tokens]; rewrite length_pairs;
        cbn [List.length]; lia).
  destruct ps; reflexivity.
Qed.

Lemma parse_block_pairs_witness :
  parse samples.pairStream 0%N =
    Return {| ast.Name := EmptyString;
              ast.Docs :=
                [ast.mkDocument None None
                   (Some (pairsNode
                            (nth 0 samples.pairStream (MappingValue (samples.at_ 0 0 0)),
                             nth 1 samples.pairStream (MappingValue (samples.at_ 0 0 0)),
                             nth 2 samples.pairStream (MappingValue (samples.at_ 0 0 0)))
                            []))] |}.
Proof.
  apply (parse_block_pairs 1
           (nth 0 samples.pairStream (MappingValue (samples.at_ 0 0 0)),
            nth 1 samples.pairStream (MappingValue (samples.at_ 0 0 0)),
            nth 2 samples.pairStream (MappingValue (samples.at_ 0 0 0))) [] 0%N).
  repeat constructor. discriminate.
Defined.

(** ** Directives, and a value under its key *)

(** X13.  A directive takes one value and must be followed by ['---'].
    When it is, the directive is a document of its own and the ['---']
    is passed over: the node that follows gets a document with no start
    marker.  When another token follows the value, [parse] fails with
    the syntax error "document not started" at that token. *)
Theorem parse_directive d x h b y m :
  Typ d = DirectiveType ->
  NextTypeIs d MappingValueType = false ->
  isScalarToken x = true ->
  Typ h = DocumentHeaderType ->
  isScalarToken b = true ->
  Typ y <> DocumentHeaderType -> Typ y <> CommentType ->
  parse [d; x; h; b] m =
    Return {| ast.Name := EmptyString;
              ast.Docs :=
                [ast.mkDocument None None
                   (Some (ast.DirectiveNode (Some d) (parseScalarValue x)));
                 ast.mkDocument None None (parseScalarValue b)] |} /\
  parse [d; x; y] m =
    Fail (Wrapf (ErrSyntax "unexpected directive value. document not started"
                           (Some y)) "failed to parse").
Proof.
  intros Hd Hdn Hx Hh Hb Hy Hyc.
  pose proof (parseScalarValue_kind d _ Hd ltac:(cbn; auto 20)) as Hds.
  assert (Hnc : forall t, isScalarToken t = true -> Typ t <> CommentType).
  { intros t Ht. apply flowItem_not_comment. unfold flowItem. rewrite Ht.
    apply orb_true_r. }
  assert (Hbs : exists nd, parseScalarValue b = Some nd).
  { unfold isScalarToken in Hb. apply andb_prop in Hb as [_ Hb].
    destruct (parseScalarValue b); [eauto | discriminate]. }
  destruct Hbs as [nd Hbs].
  unfold parse.
  rewrite !newContext_no_comments
    by (repeat constructor; auto; congruence).
  cbn [tokens List.length]. split.
  - assert (Hrun :
      parseToken 4 (Some d) {| idx := 0; tokens := [d; x; h; b]; mode := m |} =
      Return (Some (ast.DirectiveNode (Some d) (parseScalarValue x)),
              {| idx := 2; tokens := [d; x; h; b]; mode := m |})).
    { rewrite (parseToken_kind _ _ _ Hdn Hds), Hd. unfold parseDirective.
      rewrite bind_currentToken, bind_progress, bind_currentToken.
      cbn [idx tokens mode nth_error Nat.add].
      erewrite bind_wrapf by (apply (parseToken_scalar _ _ _ Hx)).
      rewrite bind_progress, bind_currentToken.
      cbn [idx tokens mode nth_error Nat.add].
      rewrite bind_deref, Hh. reflexivity. }
    erewrite parse_loop_step; [|cbn; lia | exact Hrun].
    unfold skip. cbn [idx tokens mode Nat.add app].
    erewrite parse_loop_step;
      [|cbn; lia | cbn [idx tokens nth_error]; apply (parseToken_scalar _ _ _ Hb)].
    rewrite Hbs, (scalar_not_document _ _ Hbs). unfold skip. cbn [idx tokens mode].
    rewrite parse_loop_done by (cbn; lia). reflexivity.
  - cbn [parse_loop]. rewrite bind_next. cbn [idx tokens List.length Nat.ltb Nat.leb negb].
    rewrite bind_currentToken. cbn [idx tokens nth_error].
    unfold bind at 1. unfold wrapf at 1.
    rewrite (parseToken_kind _ _ _ Hdn Hds), Hd. unfold parseDirective.
    rewrite bind_currentToken, bind_progress, bind_currentToken.
    cbn [idx tokens mode nth_error Nat.add].
    erewrite bind_wrapf by (apply (parseToken_scalar _ _ _ Hx)).
    rewrite bind_progress, bind_currentToken.
    cbn [idx tokens mode nth_error Nat.add].
    rewrite bind_deref. apply Type_eqb_false in Hy. rewrite Hy. reflexivity.
Qed.

(** X14.  A plain string value in the column of its key must be a key
    itself.  For a pair whose value is a plain string at the column of the
    key and ends the stream, [parse] fails with the syntax error "could
    not found expected ':' token" at the value; a value of another kind
    in that column is accepted. *)
Theorem parse_value_under_key k c v m :
  Typ k = StringType ->
  NextTypeIs k MappingValueType = true ->
  validateMapKey k = None ->
  Typ c = MappingValueType ->
  isScalarToken v = true ->
  Column (Position_ v) = Column (Position_ k) ->
  parse [k; c; v] m =
    if Type_eqb (Typ v) StringType || Type_eqb (Typ v) SingleQuoteType
       || Type_eqb (Typ v) DoubleQuoteType
    then Fail (Wrapf (ErrSyntax "could not found expected ':' token" (Some v))
                     "failed to parse")
    else Return {| ast.Name := EmptyString;
                   ast.Docs := [ast.mkDocument None None
                                  (Some (pairsNode (k, c, v) []))] |}.
Proof.
  intros Hk Hkn Hkv Hc Hv Hcol.
  assert (Hvc : Typ v <> CommentType).
  { apply flowItem_not_comment. unfold flowItem. rewrite Hv.
    apply orb_true_r. }
  assert (Hvs : exists nd, parseScalarValue v = Some nd).
  { unfold isScalarToken in Hv. apply andb_prop in Hv as [_ H].
    destruct (parseScalarValue v); [eauto | discriminate]. }
  destruct Hvs as [nd Hvs].
  unfold parse.
  rewrite newContext_no_comments by (repeat constructor; congruence).
  cbn [tokens List.length].
  assert (Hrun :
    parseToken 3 (Some k) {| idx := 0; tokens := [k; c; v]; mode := m |} =
    if ast.NodeType_eq_dec (ast.Type_ nd) ast.StringType
    then Fail (ErrSyntax "could not found expected ':' token" (Some v))
    else Return (Some (ast.MappingValueNode
                         (ast.mkMappingValue (Some c) (ast.StringNode k) nd)),
                 {| idx := 2; tokens := [k; c; v]; mode := m |})).
  { rewrite parseToken_S. unfold parseToken_body at 1. rewrite Hkn.
    unfold parseMappingValue.
    rewrite bind_currentToken. cbn [idx tokens nth_error].
    rewrite bind_deref, (parseMapKey_string _ Hk).
    cbn [ast.GetToken]. rewrite bind_deref, Hkv.
    cbn [ast.isScalarNode negb].
    run_head.
    erewrite bind_wrapf by (apply (parseToken_scalar _ _ _ Hv)).
    rewrite Hvs. unfold tokenColumn. run_head.
    cbn [ast.GetToken]. run_head.
    rewrite (scalar_token _ _ Hvs). run_head.
    rewrite Hcol, Z.eqb_refl.
    destruct (ast.NodeType_eq_dec (ast.Type_ nd) ast.StringType).
    - run_head. reflexivity.
    - run_head. unfold bind at 1. rewrite parseMappingValue_loop_end.
      reflexivity. }
  assert (Hty : (Type_eqb (Typ v) StringType || Type_eqb (Typ v) SingleQuoteType
                 || Type_eqb (Typ v) DoubleQuoteType)%bool =
                if ast.NodeType_eq_dec (ast.Type_ nd) ast.StringType
                then true else false).
  { revert Hvs. unfold parseScalarValue, parseStringValue.
    destruct (Typ v); intros H; inversion H; reflexivity. }
  rewrite Hty.
  destruct (ast.NodeType_eq_dec (ast.Type_ nd) ast.StringType).
  - cbn [parse_loop]. rewrite bind_next.
    cbn [idx tokens List.length Nat.ltb Nat.leb negb].
    rewrite bind_currentToken. cbn [idx tokens nth_error].
    unfold bind at 1. unfold wrapf at 1. rewrite Hrun. reflexivity.
  - erewrite parse_loop_step; [|cbn; lia | exact Hrun].
    unfold skip. cbn [idx tokens mode].
    rewrite parse_loop_done by (cbn; lia).
    unfold pairsNode, pairValue. rewrite Hvs. reflexivity.
Qed.

Lemma parse_directive_witness :
  parse [Directive (samples.at_ 1 1 1); New "x" "x" (samples.at_ 1 2 2);
         New "y" " y" (samples.at_ 1 4 4)] 0%N =
    Fail (Wrapf (ErrSyntax "unexpected directive value. document not started"
                           (Some (New "y" " y" (samples.at_ 1 4 4))))
                "failed to parse").
Proof.
  apply (parse_directive (Directive (samples.at_ 1 1 1))
           (New "x" "x" (samples.at_ 1 2 2))
           (DocumentHeader (samples.at_ 2 1 4))
           (New "a" "a" (samples.at_ 3 1 8))
           (New "y" " y" (samples.at_ 1 4 4)) 0%N);
    try reflexivity; discriminate.
Defined.

Lemma parse_value_under_key_witness :
  parse [nth 0 samples.keyStream (MappingValue (samples.at_ 0 0 0));
         nth 1 samples.keyStream (MappingValue (samples.at_ 0 0 0));
         New "b" "b" (samples.at_ 2 1 4)] 0%N =
    Fail (Wrapf (ErrSyntax "could not found expected ':' token"
                           (Some (New "b" "b" (samples.at_ 2 1 4))))
                "failed to parse").
Proof.
  apply (parse_value_under_key
           (nth 0 samples.keyStream (MappingValue (samples.at_ 0 0 0)))
           (nth 1 samples.keyStream (MappingValue (samples.at_ 0 0 0)))
           (New "b" "b" (samples.at_ 2 1 4)) 0%N);
    reflexivity.
Defined.

(** ** Block scalars and tags *)

(** X24.  The body of a block scalar must be a string.  For a literal or
    folded header followed by one scalar token, [parse] returns the
    block scalar as a document when the token is a plain or quoted
    string, and fails with the syntax error "required string token" at
    the token when it is a scalar of another kind (a number, a boolean,
    a null).  A header that ends the stream is a nil dereference. *)
Theorem parse_block_scalar l x m :
  Typ l = LiteralType \/ Typ l = FoldedType ->
  NextTypeIs l MappingValueType = false ->
  isScalarToken x = true ->
  parse [l; x] m =
    (if Type_eqb (Typ x) StringType || Type_eqb (Typ x) SingleQuoteType
        || Type_eqb (Typ x) DoubleQuoteType
     then Return {| ast.Name := EmptyString;
                    ast.Docs := [ast.mkDocument None None
                                   (Some (ast.LiteralNode (Some l) x))] |}
     else Fail (Wrapf (ErrSyntax "unexpected token. required string token"
                                 (Some x)) "failed to parse")) /\
  parse [l] m = NilDeref.
Proof.
  intros Hl Hln Hx.
  assert (Hls : parseScalarValue l = None).
  { destruct Hl as [Hl|Hl];
      apply (parseScalarValue_kind l _ Hl); cbn; auto 20. }
  assert (Hlc : Typ l <> CommentType) by (destruct Hl; congruence).
  assert (Hxc : Typ x <> CommentType).
  { apply flowItem_not_comment. unfold flowItem. rewrite Hx.
    apply orb_true_r. }
  assert (Hxs : exists nd, parseScalarValue x = Some nd).
  { unfold isScalarToken in Hx. apply andb_prop in Hx as [_ H].
    destruct (parseScalarValue x); [eauto | discriminate]. }
  destruct Hxs as [nd Hxs].
  assert (Hdisp : forall fuel c,
    parseToken (S fuel) (Some l) c = parseLiteral (parseToken fuel) c).
  { intros fuel c. rewrite (parseToken_kind _ _ _ Hln Hls).
    destruct Hl as [-> | ->]; reflexivity. }
  unfold parse.
  rewrite !newContext_no_comments by (repeat constructor; congruence).
  cbn [tokens List.length]. split.
  - cbn [parse_loop]. rewrite bind_next.
    cbn [idx tokens List.length Nat.ltb Nat.leb negb].
    rewrite bind_currentToken. cbn [idx tokens nth_error].
    unfold bind at 1. unfold wrapf at 1.
    rewrite Hdisp. unfold parseLiteral.
    rewrite bind_currentToken, bind_progress, bind_currentToken.
    cbn [idx tokens mode nth_error Nat.add].
    erewrite bind_wrapf by (apply (parseToken_scalar _ _ _ Hx)).
    rewrite Hxs.
    revert Hxs. unfold parseScalarValue, parseStringValue.
    destruct (Typ x); intros H; inversion H; subst; reflexivity.
  - cbn [parse_loop]. rewrite bind_next.
    cbn [idx tokens List.length Nat.ltb Nat.leb negb].
    rewrite bind_currentToken. cbn [idx tokens nth_error].
    unfold bind at 1. unfold wrapf at 1.
    rewrite Hdisp. reflexivity.
Qed.


Lemma parse_block_scalar_witness :
  parse [Literal "|" "|" (samples.at_ 1 1 1); New "12" "12" (samples.at_ 2 1 3)]
        0%N =
    Fail (Wrapf (ErrSyntax "unexpected token. required string token"
                           (Some (New "12" "12" (samples.at_ 2 1 3))))
                "failed to parse") /\
  parse [Literal "|" "|" (samples.at_ 1 1 1)] 0%N = NilDeref.
Proof.
  apply (parse_block_scalar (Literal "|" "|" (samples.at_ 1 1 1))
           (New "12" "12" (samples.at_ 2 1 3)) 0%N).
  - left. reflexivity.
  - reflexivity.
  - reflexivity.
Defined.

(** X25.  A tag takes the node that follows it as its value.  For a tag
    followed by one scalar token [parse] returns one document, the tag
    node with the scalar for its value; whatever the scalar is, no kind
    is required of it.  A tag that ends the stream is a nil
    dereference. *)
Theorem parse_tag t x m :
  Typ t = TagType ->
  NextTypeIs t MappingValueType = false ->
  isScalarToken x = true ->
  parse [t; x] m =
    Return {| ast.Name := EmptyString;
              ast.Docs := [ast.mkDocument None None
                             (Some (ast.TagNode (Some t) (parseScalarValue x)))] |} /\
  parse [t] m = NilDeref.
Proof.
  intros Ht Htn Hx.
  pose proof (parseScalarValue_kind t _ Ht ltac:(cbn; auto 20)) as Hts.
  assert (Htc : Typ t <> CommentType) by congruence.
  assert (Hxc : Typ x <> CommentType).
  { apply flowItem_not_comment. unfold flowItem. rewrite Hx.
    apply orb_true_r. }
  unfold parse.
  rewrite !newContext_no_comments by (repeat constructor; congruence).
  cbn [tokens List.length]. split.
  - assert (Hrun :
      parseToken 2 (Some t) {| idx := 0; tokens := [t; x]; mode := m |} =
      Return (Some (ast.TagNode (Some t) (parseScalarValue x)),
              {| idx := 1; tokens := [t; x]; mode := m |})).
    { rewrite (parseToken_kind _ _ _ Htn Hts), Ht. unfold parseTag.
      rewrite bind_currentToken, bind_progress, bind_currentToken.
      cbn [idx tokens mode nth_error Nat.add].
      erewrite bind_wrapf by (apply (parseToken_scalar _ _ _ Hx)).
      reflexivity. }
    erewrite parse_loop_step; [|cbn; lia | exact Hrun].
    unfold skip. cbn [idx tokens mode Nat.add app].
    rewrite parse_loop_done by (cbn; lia). reflexivity.
  - cbn [parse_loop]. rewrite bind_next.
    cbn [idx tokens List.length Nat.ltb Nat.leb negb].
    rewrite bind_currentToken. cbn [idx tokens nth_error].
    unfold bind at 1. unfold wrapf at 1.
    rewrite (parseToken_kind _ _ _ Htn Hts), Ht. reflexivity.
Qed.

Lemma parse_tag_witness :
  parse [Tag "!t" "!t " (samples.at_ 1 1 1); New "a" "a" (samples.at_ 1 4 4)]
        0%N =
    Return {| ast.Name := EmptyString;
              ast.Docs :=
                [ast.mkDocument None None
                   (Some (ast.TagNode (Some (Tag "!t" "!t " (samples.at_ 1 1 1)))
                            (parseScalarValue
                               (New "a" "a" (samples.at_ 1 4 4)))))] |} /\
  parse [Tag "!t" "!t " (samples.at_ 1 1 1)] 0%N = NilDeref.
Proof.
  apply (parse_tag (Tag "!t" "!t " (samples.at_ 1 1 1))
           (New "a" "a" (samples.at_ 1 4 4)) 0%N); reflexivity.
Defined.

(** ** Block mapping groups and their pairs *)

Section MappingGroup.

Variable rec : option Token -> M (option ast.Node).

Lemma nth_error_before {A} (l : list A) i x :
  nth_error l (i + 2) = Some x -> exists y, nth_error l (i + 1) = Some y.
Proof.
  intros H. apply nth_error_Some_lt in H.
  destruct (nth_error l (i + 1)) as [y|] eqn:E; [eauto|].
  apply nth_error_None_ge in E. lia.
Qed.

Lemma follows_stop kc c values :
  follows kc c = false ->
  forall n,
    parseMappingValue_loop rec n kc (nth_error (tokens c) (idx c + 1))
      (nth_error (tokens c) (idx c + 2)) values c = Return (values, c).
Proof.
  unfold follows. intros Hf n.
  destruct (nth_error (tokens c) (idx c + 2)) as [a|] eqn:Ea;
    [|destruct n; reflexivity].
  destruct (nth_error_before _ _ _ Ea) as [nt En]. rewrite En in *.
  destruct n; cbn [parseMappingValue_loop];
    destruct (Type_eqb (Typ a) MappingValueType); cbn [negb andb] in *;
    try reflexivity; rewrite bind_deref, Hf; reflexivity.
Qed.

Lemma follows_go kc c values n :
  follows kc c = true ->
  parseMappingValue_loop rec (S n) kc (nth_error (tokens c) (idx c + 1))
    (nth_error (tokens c) (idx c + 2)) values c =
  (value <- wrapf (rec (nth_error (tokens c) (idx c + 1)))
                  "failed to parse mapping node" ;;
   v <- deref value ;;
   match v with
   | ast.MappingNode _ _ _ cvalues =>
       ntk' <- nextToken ;;
       antk' <- afterNextToken ;;
       parseMappingValue_loop rec n kc ntk' antk' (values ++ cvalues)
   | ast.MappingValueNode mv =>
       ntk' <- nextToken ;;
       antk' <- afterNextToken ;;
       parseMappingValue_loop rec n kc ntk' antk' (values ++ [mv])
   | _ =>
       throw (Errorf "failed to parse mapping value node node is %s"
                     (ast.Type_ v))
   end) (skip c).
Proof.
  unfold follows. intros Hf.
  destruct (nth_error (tokens c) (idx c + 2)) as [a|]; [|discriminate].
  destruct (nth_error (tokens c) (idx c + 1)) as [nt|] eqn:En; [|discriminate].
  apply andb_prop in Hf as [Ht Hc].
  cbn [parseMappingValue_loop]. rewrite Ht. cbn [negb].
  rewrite bind_deref, Hc. cbn [negb].
  rewrite bind_progress, bind_currentToken. cbn [idx tokens mode].
  rewrite En. reflexivity.
Qed.

Lemma follows_fuel kc c values :
  follows kc c = true ->
  parseMappingValue_loop rec 0 kc (nth_error (tokens c) (idx c + 1))
    (nth_error (tokens c) (idx c + 2)) values c <> Return (values, c) /\
  forall r, parseMappingValue_loop rec 0 kc (nth_error (tokens c) (idx c + 1))
    (nth_error (tokens c) (idx c + 2)) values c <> Return r.
Proof.
  unfold follows. intros Hf.
  destruct (nth_error (tokens c) (idx c + 2)) as [a|]; [|discriminate].
  destruct (nth_error (tokens c) (idx c + 1)) as [nt|] eqn:En; [|discriminate].
  apply andb_prop in Hf as [Ht Hc].
  cbn [parseMappingValue_loop]. rewrite Ht. cbn [negb].
  rewrite bind_deref, Hc. cbn [negb]. split; [|intros r]; discriminate.
Qed.

Lemma parseMappingValue_loop_sound n : forall kc values c values' c',
  parseMappingValue_loop rec n kc (nth_error (tokens c) (idx c + 1))
    (nth_error (tokens c) (idx c + 2)) values c = Return (values', c') ->
  exists vs, values' = values ++ vs /\ Siblings rec kc c vs c'.
Proof.
  induction n as [|n IH]; intros kc values c values' c' H.
  all: destruct (follows kc c) eqn:Hf.
  all: try (rewrite (follows_stop _ _ _ Hf) in H; inversion H; subst;
            exists []; split; [now rewrite app_nil_r | now constructor]).
  - exfalso. exact (proj2 (follows_fuel _ _ values Hf) _ H).
  - rewrite (follows_go _ _ _ _ Hf) in H.
    apply bind_Return in H as (value & c1 & E & H).
    apply wrapf_Return in E.
    destruct value as [v|]; [|discriminate H].
    rewrite bind_deref in H.
    destruct v; try discriminate H.
    + rewrite bind_nextToken, bind_afterNextToken in H.
      apply IH in H as (vs & -> & Hs).
      exists (mv :: vs). split; [now rewrite <- app_assoc|].
      eapply Siblings_pair; eauto.
    + rewrite bind_nextToken, bind_afterNextToken in H.
      apply IH in H as (vs & -> & Hs).
      exists (Values ++ vs). split; [now rewrite <- app_assoc|].
      eapply Siblings_mapping; eauto.
Qed.

Hypothesis rec_forward : forall tk, forward (rec tk).

Lemma parseMappingValue_loop_complete kc c vs c' :
  Siblings rec kc c vs c' ->
  forall n values, left_ c <= n ->
    parseMappingValue_loop rec n kc (nth_error (tokens c) (idx c + 1))
      (nth_error (tokens c) (idx c + 2)) values c = Return (values ++ vs, c').
Proof.
  induction 1 as [c Hf|c mv c1 vs c2 Hf Hrec Hs IH
                 |c s e f cvalues c1 vs c2 Hf Hrec Hs IH];
    intros n values Hn.
  - rewrite app_nil_r. now apply follows_stop.
  - assert (Hlt : idx c + 2 < List.length (tokens c)).
    { unfold follows in Hf.
      destruct (nth_error (tokens c) (idx c + 2)) eqn:E; [|discriminate].
      now apply nth_error_Some_lt in E. }
    destruct (forward_facts _ _ _ _ (rec_forward _) Hrec) as (_ & Ht & Hi).
    destruct n as [|n]; [unfold left_ in Hn; lia|].
    rewrite (follows_go _ _ _ _ Hf).
    erewrite bind_wrapf by exact Hrec.
    rewrite bind_deref, bind_nextToken, bind_afterNextToken.
    rewrite IH by (unfold left_ in *; cbn [skip idx tokens] in *;
                   rewrite Ht; lia).
    now rewrite <- app_assoc.
  - assert (Hlt : idx c + 2 < List.length (tokens c)).
    { unfold follows in Hf.
      destruct (nth_error (tokens c) (idx c + 2)) eqn:E; [|discriminate].
      now apply nth_error_Some_lt in E. }
    destruct (forward_facts _ _ _ _ (rec_forward _) Hrec) as (_ & Ht & Hi).
    destruct n as [|n]; [unfold left_ in Hn; lia|].
    rewrite (follows_go _ _ _ _ Hf).
    erewrite bind_wrapf by exact Hrec.
    rewrite bind_deref, bind_nextToken, bind_afterNextToken.
    rewrite IH by (unfold left_ in *; cbn [skip idx tokens] in *;
                   rewrite Ht; lia).
    now rewrite <- app_assoc.
Qed.

Lemma parseMappingValue_sound c r c' :
  parseMappingValue rec c = Return (r, c') ->
  exists ktk mv vs c1,
    FirstPair rec c ktk mv c1 /\
    Siblings rec (Column (Position_ ktk)) c1 vs c' /\
    r = Some (groupNode mv vs).
Proof.
  unfold parseMappingValue. intros H.
  rewrite bind_currentToken in H.
  destruct (nth_error (tokens c) (idx c)) as [ktk|] eqn:Ek; [|discriminate H].
  rewrite bind_deref in H.
  destruct (parseMapKey ktk) as [key|] eqn:Ekey; [|discriminate H].
  destruct (parseMapKey_Some _ _ Ekey) as [Hkt Hks].
  rewrite Hkt, bind_deref in H.
  destruct (validateMapKey ktk) eqn:Ev; [discriminate H|].
  rewrite Hks in H. cbn [negb] in H.
  rewrite bind_progress, bind_currentToken, bind_progress, bind_currentToken in H.
  cbn [idx tokens mode] in H.
  apply bind_Return in H as (value & c1 & Eval & H).
  change {| idx := idx c + 1 + 1; tokens := tokens c; mode := mode c |}
    with (skip (skip c)) in Eval.
  replace (idx c + 1 + 1) with (idx c + 2) in Eval by lia.
  unfold tokenColumn in H.
  rewrite !bind_assoc, Hkt, bind_deref, bind_ret in H.
  rewrite !bind_assoc in H.
  destruct (ast.GetToken value) as [vt|] eqn:Evt; [|discriminate H].
  rewrite bind_deref, bind_ret in H.
  apply bind_Return in H as (u & c2 & Echk & H).
  assert (Hfit : valueFits ktk vt value c1 = true /\ c2 = c1).
  { unfold valueFits.
    destruct (Column (Position_ ktk) =? Column (Position_ vt))%Z;
      [|inversion Echk; auto].
    destruct (ast.NodeType_eq_dec (ast.Type_ value) ast.StringType);
      [|inversion Echk; auto].
    rewrite bind_nextToken in Echk.
    destruct (nth_error (tokens c1) (idx c1 + 1)) as [nt|];
      [|discriminate Echk].
    destruct (Type_eqb (Typ nt) MappingValueType);
      destruct (Type_eqb (Typ nt) SequenceEntryType);
      cbn [negb andb orb] in *; inversion Echk; auto. }
  destruct Hfit as [Hfit ->].
  rewrite bind_nextToken, bind_afterNextToken, bind_remaining in H.
  apply bind_Return in H as (values & c3 & Eloop & H).
  apply parseMappingValue_loop_sound in Eloop as (vs & -> & Hs).
  exists ktk, (ast.mkMappingValue (nth_error (tokens c) (idx c + 1)) key value),
    vs, c1.
  assert (Hr : c3 = c' /\
               r = Some (groupNode
                           (ast.mkMappingValue (nth_error (tokens c) (idx c + 1))
                              key value) vs))
    by (destruct vs; inversion H; auto).
  destruct Hr as [-> ->].
  split; [|split; [exact Hs | reflexivity]].
  destruct (nth_error (tokens c) (idx c + 2)) as [vtk|] eqn:E2.
  - apply bind_Return in Eval as (v & c1' & E & Hd).
    apply wrapf_Return in E.
    destruct v as [v|]; [|discriminate Hd].
    inversion Hd; subst.
    eapply FirstPair_value; eauto.
  - destruct (nth_error (tokens c) (idx c + 1)) as [colon|] eqn:E1;
      [|discriminate Eval].
    rewrite bind_deref in Eval. inversion Eval; subst.
    now apply FirstPair_null.
Qed.

Lemma parseMappingValue_complete c ktk mv c1 vs c' :
  FirstPair rec c ktk mv c1 ->
  Siblings rec (Column (Position_ ktk)) c1 vs c' ->
  parseMappingValue rec c = Return (Some (groupNode mv vs), c').
Proof.
  intros Hp Hs.
  assert (Htail : forall key value vt,
    ast.GetToken key = Some ktk ->
    ast.GetToken value = Some vt ->
    valueFits ktk vt value c1 = true ->
    (keyColumn <- tokenColumn key ;;
     valueColumn <- tokenColumn value ;;
     check <-
       (if Z.eqb keyColumn valueColumn
        then
          if ast.NodeType_eq_dec (ast.Type_ value) ast.StringType
          then
            ntk <- nextToken ;;
            match ntk with
            | None =>
                throw (ErrSyntax "could not found expected ':' token"
                                 (ast.GetToken value))
            | Some nt =>
                if (negb (Type_eqb (Typ nt) MappingValueType) &&
                    negb (Type_eqb (Typ nt) SequenceEntryType))%bool
                then throw (ErrSyntax "could not found expected ':' token"
                                      (ast.GetToken value))
                else ret tt
            end
          else ret tt
        else ret tt) ;;
     let mvnode := ast.mkMappingValue (nth_error (tokens c) (idx c + 1)) key value in
     ntk <- nextToken ;;
     antk <- afterNextToken ;;
     n <- remaining ;;
     values <- parseMappingValue_loop rec n keyColumn ntk antk [mvnode] ;;
     if Nat.eqb (List.length values) 1
     then ret (Some (ast.MappingValueNode mvnode))
     else ret (Some (ast.MappingNode (nth_error (tokens c) (idx c + 1))
                       None false values))) c1 =
    Return (Some (groupNode
                    (ast.mkMappingValue (nth_error (tokens c) (idx c + 1))
                       key value) vs), c')).
  { intros key value vt Hkt Hvt Hfit. unfold tokenColumn.
    rewrite !bind_assoc, Hkt, bind_deref, bind_ret.
    rewrite !bind_assoc, Hvt, bind_deref, bind_ret.
    assert (Echk :
      (if (Column (Position_ ktk) =? Column (Position_ vt))%Z
       then
         if ast.NodeType_eq_dec (ast.Type_ value) ast.StringType
         then
           ntk <- nextToken ;;
           match ntk with
           | None =>
               throw (ErrSyntax "could not found expected ':' token" (Some vt))
           | Some nt =>
               if (negb (Type_eqb (Typ nt) MappingValueType) &&
                   negb (Type_eqb (Typ nt) SequenceEntryType))%bool
               then throw (ErrSyntax "could not found expected ':' token"
                                     (Some vt))
               else ret tt
           end
         else ret tt
       else ret tt) c1 = Return (tt, c1)).
    { unfold valueFits in Hfit.
      destruct (Column (Position_ ktk) =? Column (Position_ vt))%Z;
        [|reflexivity].
      destruct (ast.NodeType_eq_dec (ast.Type_ value) ast.StringType);
        [|reflexivity].
      rewrite bind_nextToken.
      destruct (nth_error (tokens c1) (idx c1 + 1)) as [nt|];
        [|discriminate Hfit].
      destruct (Type_eqb (Typ nt) MappingValueType);
        destruct (Type_eqb (Typ nt) SequenceEntryType);
        cbn [negb andb orb] in *; (reflexivity || discriminate Hfit). }
    rewrite (bind_step _ _ _ _ _ Echk).
    rewrite bind_nextToken, bind_afterNextToken, bind_remaining.
    rewrite (bind_step _ _ _ _ _
               (parseMappingValue_loop_complete _ _ _ _ Hs _ _ (Nat.le_refl _))).
    destruct vs; reflexivity. }
  unfold parseMappingValue. rewrite bind_currentToken.
  inversion Hp as [c0 k0 key colon Ek Ekey Ev E1 E2
                  |c0 k0 key vtk value vt c10 Ek Ekey Ev E2 Hrec Hvt Hfit];
    subst.
  all: destruct (parseMapKey_Some _ _ Ekey) as [Hkt Hks].
  all: rewrite Ek, bind_deref, Ekey, Hkt, bind_deref, Ev, Hks; cbn [negb].
  all: rewrite bind_progress, bind_currentToken, bind_progress, bind_currentToken.
  all: cbn [idx tokens mode].
  all: change {| idx := idx c + 1 + 1; tokens := tokens c; mode := mode c |}
         with (skip (skip c)).
  all: replace (idx c + 1 + 1) with (idx c + 2) by lia.
  all: rewrite E2.
  - rewrite E1 in *. rewrite bind_assoc, bind_deref, bind_ret.
    apply (Htail key (ast.NullNode (New "null" "null" (Position_ colon)))
             (New "null" "null" (Position_ colon)) Hkt eq_refl).
    unfold valueFits. cbn [ast.Type_].
    destruct (_ =? _)%Z; [|reflexivity].
    destruct (ast.NodeType_eq_dec ast.NullType ast.StringType);
      [discriminate | reflexivity].
  - rewrite bind_assoc. erewrite bind_wrapf by exact Hrec.
    rewrite bind_deref.
    apply (Htail key value vt Hkt Hvt Hfit).
Qed.

End MappingGroup.

(** C5.  The node of a block mapping group is made of the pairs the
    group accumulates, and of nothing else.  The sub-parser returns a
    node exactly when there is a first pair [mv] (the key at the cursor,
    the [':'] after it and its value) and the pairs [vs] that the loop
    over the siblings adds to it; with [mv] alone the node is the bare
    [MappingValue] [mv], and with more pairs it is the [Mapping] that
    starts at the [':'] of [mv] and holds [mv] and then [vs], in order.
    A [Mapping] with exactly one value is never returned. *)
Theorem parseMappingValue_bare_or_mapping fuel c r c' :
  (parseMappingValue (parseToken fuel) c = Return (r, c') <->
   exists ktk mv vs c1,
     FirstPair (parseToken fuel) c ktk mv c1 /\
     Siblings (parseToken fuel) (Column (Position_ ktk)) c1 vs c' /\
     r = Some (match vs with
               | [] => ast.MappingValueNode mv
               | _ :: _ => ast.MappingNode (ast.MVStart mv) None false (mv :: vs)
               end)) /\
  (parseMappingValue (parseToken fuel) c = Return (r, c') ->
   forall s e f values,
     r = Some (ast.MappingNode s e f values) -> 2 <= List.length values).
Proof.
  split; [split|].
  - apply parseMappingValue_sound.
  - intros (ktk & mv & vs & c1 & Hp & Hs & ->).
    apply (parseMappingValue_complete _ (forward_parseToken fuel) _ _ _ _ _ _ Hp Hs).
  - intros H s e f values Hr.
    apply parseMappingValue_sound in H as (ktk & mv & vs & c1 & _ & _ & ->).
    destruct vs; inversion Hr; subst. cbn [List.length]. lia.
Qed.

Lemma parseMappingValue_bare_or_mapping_witness :
  let k1 := nth 0 samples.twoPairStream (MappingValue (samples.at_ 0 0 0)) in
  let c1 := nth 1 samples.twoPairStream (MappingValue (samples.at_ 0 0 0)) in
  let v1 := nth 2 samples.twoPairStream (MappingValue (samples.at_ 0 0 0)) in
  let k2 := nth 3 samples.twoPairStream (MappingValue (samples.at_ 0 0 0)) in
  let c2 := nth 4 samples.twoPairStream (MappingValue (samples.at_ 0 0 0)) in
  let v2 := nth 5 samples.twoPairStream (MappingValue (samples.at_ 0 0 0)) in
  let mv1 := ast.mkMappingValue (Some c1) (ast.StringNode k1) (ast.IntegerNode v1) in
  let mv2 := ast.mkMappingValue (Some c2) (ast.StringNode k2) (ast.IntegerNode v2) in
  parseMappingValue (parseToken 6) (samples.cursorAt 0 samples.twoPairStream) =
    Return (Some (ast.MappingNode (Some c1) None false [mv1; mv2]),
            samples.cursorAt 5 samples.twoPairStream).
Proof.
  intros k1 c1 v1 k2 c2 v2 mv1 mv2.
  apply (proj2 (proj1 (parseMappingValue_bare_or_mapping 6
                         (samples.cursorAt 0 samples.twoPairStream)
                         (Some (ast.MappingNode (Some c1) None false [mv1; mv2]))
                         (samples.cursorAt 5 samples.twoPairStream)))).
  exists k1, mv1, [mv2], (samples.cursorAt 2 samples.twoPairStream).
  split; [|split; [|reflexivity]].
  - apply (FirstPair_value (parseToken 6)
             (samples.cursorAt 0 samples.twoPairStream) k1 (ast.StringNode k1)
             v1 (ast.IntegerNode v1) v1); reflexivity.
  - eapply Siblings_pair; [reflexivity | vm_compute; reflexivity|].
    apply Siblings_end. reflexivity.
Defined.

(** ** One document for each top-level node *)

Lemma parse_loop_sound fuel n : forall docs c docs' c',
  parse_loop fuel n docs c = Return (docs', c') ->
  exists nodes,
    TopLevel (parseToken fuel) c nodes /\ docs' = docs ++ map docOf nodes.
Proof.
  induction n as [|n IH]; intros docs c docs' c' H.
  all: cbn [parse_loop] in H; rewrite bind_next in H.
  all: destruct (idx c <? List.length (tokens c)) eqn:E; cbn [negb] in H.
  all: try (inversion H; subst; exists []; split;
            [apply TopLevel_end; now apply Nat.ltb_ge
            |now rewrite app_nil_r]).
  - discriminate H.
  - apply Nat.ltb_lt in E.
    rewrite bind_currentToken in H.
    apply bind_Return in H as (node & c1 & Erun & H).
    apply wrapf_Return in Erun.
    rewrite bind_progress in H.
    destruct node as [nd|].
    + assert (Hd : parse_loop fuel n (docs ++ [docOf nd]) (skip c1) =
                   Return (docs', c')) by (destruct nd; exact H).
      apply IH in Hd as (nodes & Ht & ->).
      exists (nd :: nodes). split; [eapply TopLevel_node; eauto|].
      now rewrite <- app_assoc.
    + apply IH in H as (nodes & Ht & ->).
      exists nodes. split; [eapply TopLevel_nil; eauto | reflexivity].
Qed.

Lemma parse_loop_complete fuel c nodes :
  TopLevel (parseToken fuel) c nodes ->
  forall n docs, left_ c <= n ->
    exists c', parse_loop fuel n docs c = Return (docs ++ map docOf nodes, c').
Proof.
  induction 1 as [c Hend|c c1 nodes Hlt Hrun Ht IH|c nd c1 nodes Hlt Hrun Ht IH];
    intros n docs Hn.
  - exists c. rewrite app_nil_r. now apply parse_loop_done.
  - destruct (forward_facts _ _ _ _ (forward_parseToken _ _) Hrun)
      as (_ & Hk & Hi).
    destruct n as [|n]; [unfold left_ in Hn; lia|].
    rewrite (parse_loop_step _ _ _ _ _ _ Hlt Hrun).
    apply IH. unfold left_ in *. cbn [skip idx tokens]. rewrite Hk. lia.
  - destruct (forward_facts _ _ _ _ (forward_parseToken _ _) Hrun)
      as (_ & Hk & Hi).
    destruct n as [|n]; [unfold left_ in Hn; lia|].
    rewrite (parse_loop_step _ _ _ _ _ _ Hlt Hrun).
    destruct (IH n (docs ++ [docOf nd])) as [c' E].
    { unfold left_ in *. cbn [skip idx tokens]. rewrite Hk. lia. }
    exists c'. cbn [map].
    replace (docs ++ docOf nd :: map docOf nodes)
      with ((docs ++ [docOf nd]) ++ map docOf nodes)
      by (now rewrite <- app_assoc).
    rewrite <- E. destruct nd; reflexivity.
Qed.

(** C1, as amended.  A file holds one document for each top-level node,
    in order, and nothing else: [parse] returns a file exactly when the
    stream, read node after node to its end, gives the nodes [nodes],
    and the documents of the file are then the documents of these
    nodes, one for one -- a node that is a document as it is, any other
    node as the body of a document without markers.  A token for which
    [parseToken] gives no node adds no document, and a stream in which
    nothing is left to parse, the empty one among them, gives a file
    without any document. *)
Theorem parse_docs_per_node tks m f :
  (parse tks m = Return f <->
   exists nodes,
     TopLevel (parseToken (List.length (tokens (newContext tks m))))
       (newContext tks m) nodes /\
     f = {| ast.Name := EmptyString; ast.Docs := map docOf nodes |}) /\
  (tokens (newContext tks m) = [] ->
   parse tks m = Return {| ast.Name := EmptyString; ast.Docs := [] |}).
Proof.
  unfold parse. set (c0 := newContext tks m).
  split; [split|].
  - intros H.
    destruct (parse_loop _ _ [] c0) as [[docs c1]| | |] eqn:E;
      try discriminate H.
    cbn [finish] in H. inversion H; subst f.
    apply parse_loop_sound in E as (nodes & Ht & ->).
    exists nodes. split; [exact Ht | reflexivity].
  - intros (nodes & Ht & ->).
    destruct (parse_loop_complete _ _ _ Ht (List.length (tokens c0)) [])
      as [c' E]; [unfold left_; lia|].
    rewrite E. reflexivity.
  - intros Hnil. rewrite Hnil. cbn [List.length parse_loop].
    rewrite bind_next, Hnil. reflexivity.
Qed.

Lemma parse_docs_per_node_witness :
  parse [DocumentEnd (samples.at_ 1 1 1); New "a" "a" (samples.at_ 2 1 5);
         New "1" "1" (samples.at_ 3 1 7)] 0%N =
    Return {| ast.Name := EmptyString;
              ast.Docs :=
                [ast.mkDocument None None
                   (Some (ast.StringNode (New "a" "a" (samples.at_ 2 1 5))));
                 ast.mkDocument None None
                   (Some (ast.IntegerNode (New "1" "1" (samples.at_ 3 1 7))))] |}.
Proof.
  apply (proj2 (proj1 (parse_docs_per_node
                         [DocumentEnd (samples.at_ 1 1 1);
                          New "a" "a" (samples.at_ 2 1 5);
                          New "1" "1" (samples.at_ 3 1 7)] 0%N _))).
  exists [ast.StringNode (New "a" "a" (samples.at_ 2 1 5));
          ast.IntegerNode (New "1" "1" (samples.at_ 3 1 7))].
  split; [|reflexivity].
  eapply TopLevel_nil; [vm_compute; lia | vm_compute; reflexivity |].
  eapply TopLevel_node; [vm_compute; lia | vm_compute; reflexivity |].
  eapply TopLevel_node; [vm_compute; lia | vm_compute; reflexivity |].
  apply TopLevel_end. vm_compute. lia.
Defined.


End ParserFacts.

(** * Properties of the scanner *)

Module ScannerFacts.

Import scanner.
Local Open Scope Z_scope.

(** ** The pinned column *)

Ltac break_ifs :=
  repeat (match goal with
          | |- context [if ?b then _ else _] => destruct b eqn:?
          end; cbn).

(** What [updateIndent] computes when it classifies. *)
Lemma updateIndent_classify s c :
  isFirstCharAtLine s = true ->
  Ascii.eqb c " " = false ->
  updateIndent s c =
    let level :=
      if prevIndentNum s <? indentNum s then Int.add (prevIndentLevel s) 1
      else if prevIndentNum s =? indentNum s then prevIndentLevel s
      else if 0 <? prevIndentLevel s then Int.sub (prevIndentLevel s) 1
      else indentLevel s in
    {| source := source s; sourcePos := sourcePos s;
       sourceSize := sourceSize s; line := line s; column := column s;
       offset := offset s;
       prevIndentLevel := level;
       prevIndentNum := indentNum s;
       prevIndentColumn := 0;
       indentLevel := level;
       indentNum := indentNum s;
       isFirstCharAtLine := false;
       isAnchor := isAnchor s;
       isStartedFlowSequence := isStartedFlowSequence s;
       isStartedFlowMap := isStartedFlowMap s;
       indentState :=
         if 0 <? prevIndentColumn s
         then compareIndent (prevIndentColumn s) (column s)
         else compareIndent (prevIndentNum s) (indentNum s);
       savedPos := savedPos s |}.
Proof.
  destruct s as [src sp ss ln col off pil pin pic il inum first anc fs fm st sv].
  cbn [isFirstCharAtLine]. intros -> Hc.
  unfold updateIndent, compareIndent. cbn [isFirstCharAtLine andb negb].
  rewrite Hc.
  destruct (pin <? inum) eqn:E1; destruct (pin =? inum) eqn:E2;
    destruct (0 <? pic) eqn:E3; destruct (pic <? col) eqn:E4;
    destruct (pic =? col) eqn:E5; destruct (0 <? pil) eqn:E6;
    repeat (cbn -[Z.ltb Z.eqb Int.add Int.sub];
            rewrite ?E1, ?E2, ?E3, ?E4, ?E5, ?E6);
    reflexivity.
Qed.

Lemma updateIndent_space s c :
  isFirstCharAtLine s = true ->
  Ascii.eqb c " " = true ->
  updateIndent s c = set_indentNum (Int.add (indentNum s) 1) s.
Proof.
  intros Hf Hc. unfold updateIndent. rewrite Hf, Hc. reflexivity.
Qed.

Lemma updateIndent_keep s c :
  isFirstCharAtLine s = false ->
  updateIndent s c = set_indentState IndentStateKeep s.
Proof.
  intros Hf. unfold updateIndent. rewrite Hf. reflexivity.
Qed.

(** C10.  The pinned column [prevIndentColumn] is read by one indent
    classification at most.  A call of [updateIndent] that classifies
    (first character of a line, not a space) sets the indent state from
    the pin when there is one -- Up, Equal or Down as the pin is left of,
    at, or right of the column -- and from the indent counts otherwise; it
    always leaves the pin at 0, and nothing but that indent state depends
    on the pin.  A call that does not classify neither reads nor changes
    the pin. *)
Theorem updateIndent_pin_once (s : Scanner) (c : ascii) :
  let s' := updateIndent s c in
  if classifies s c then
    prevIndentColumn s' = 0 /\
    indentState s' =
      (if 0 <? prevIndentColumn s
       then compareIndent (prevIndentColumn s) (column s)
       else compareIndent (prevIndentNum s) (indentNum s)) /\
    (forall p st,
        set_indentState st (updateIndent (set_prevIndentColumn p s) c) =
        set_indentState st s')
  else
    prevIndentColumn s' = prevIndentColumn s /\
    (forall p,
        indentState (updateIndent (set_prevIndentColumn p s) c) =
        indentState s').
Proof.
  unfold classifies.
  destruct (isFirstCharAtLine s) eqn:Hf; [destruct (Ascii.eqb c " ") eqn:Hc|];
    cbn [andb negb].
  - rewrite (updateIndent_space _ _ Hf Hc).
    split; [reflexivity|]. intros p.
    rewrite updateIndent_space by (destruct s; assumption). reflexivity.
  - rewrite (updateIndent_classify _ _ Hf Hc).
    split; [reflexivity|]. split; [reflexivity|]. intros p st.
    rewrite updateIndent_classify by (destruct s; assumption).
    destruct s; reflexivity.
  - rewrite (updateIndent_keep _ _ Hf).
    split; [reflexivity|]. intros p.
    rewrite updateIndent_keep by (destruct s; assumption). reflexivity.
Qed.

(** ** Scanning a plain word *)

Lemma wrap_small x : Int.in_range x -> Int.wrap x = x.
Proof.
  unfold Int.in_range, Int.wrap; intros H.
  rewrite Z.mod_small; lia.
Qed.

Lemma length_str l : String.length (str l) = List.length l.
Proof.
  unfold str. induction l as [|a l IH]; cbn; [reflexivity | now rewrite IH].
Qed.

Lemma len_str l : strings.len (str l) = Z.of_nat (List.length l).
Proof. unfold strings.len. now rewrite length_str. Qed.

Lemma list_of_str l : list_ascii_of_string (str l) = l.
Proof. apply list_ascii_of_string_of_list_ascii. Qed.

Lemma plainChar_neq c x :
  plainChar c = true -> In x indicators -> Ascii.eqb c x = false.
Proof.
  unfold plainChar; intros H Hx. apply negb_true_iff in H.
  destruct (Ascii.eqb c x) eqn:E; [|reflexivity].
  rewrite <- H. symmetry. apply existsb_exists. eauto.
Qed.

Lemma TrimLeft_plain c w :
  plainChar c = true ->
  strings.TrimLeft (str (c :: w)) " " = str (c :: w).
Proof.
  intros H. cbn. rewrite (plainChar_neq c " " H); [reflexivity|].
  unfold indicators. cbn. tauto.
Qed.

Lemma TrimLeft_nil : strings.TrimLeft (str []) " " = EmptyString.
Proof. reflexivity. Qed.

(** With nothing buffered and no saved position, flushing does nothing. *)
Lemma addBufferedTokenIfExists_empty s ctx :
  buf ctx = [] -> savedPos s = None ->
  addBufferedTokenIfExists s ctx = (s, ctx).
Proof.
  intros Hb Hs.
  unfold addBufferedTokenIfExists, bufferedToken, ctx_bufferedToken, bufferedSrc.
  rewrite Hs, Hb. reflexivity.
Qed.

(** The switch sends a plain character to its default. *)
Lemma scanSwitch_plain s ctx p c :
  plainChar c = true -> scanSwitch s ctx p c = scanDefault s ctx c.
Proof.
  intros H. unfold scanSwitch.
  rewrite !(plainChar_neq c _ H) by (unfold indicators; cbn; tauto).
  reflexivity.
Qed.

(** So it does a space that follows buffered text on the same line. *)
Lemma scanSwitch_word s ctx p c :
  wordChar c = true ->
  isAnchor s = false ->
  isFirstCharAtLine s = false ->
  scanSwitch s ctx p c = scanDefault s ctx c.
Proof.
  unfold wordChar. intros H Ha Hf.
  destruct (plainChar c) eqn:Hp; [now apply scanSwitch_plain|].
  cbn [orb] in H. apply Ascii.eqb_eq in H. subst c.
  unfold scanSwitch.
  cbn [Ascii.eqb Bool.eqb andb orb squote dquote newline ascii_of_nat
       ascii_of_pos ascii_of_N].
  rewrite Ha, Hf. cbn [negb andb]. rewrite orb_true_r. reflexivity.
Qed.

(** A space in the indent of a line, outside an anchor. *)
Lemma scanSwitch_indent_space s ctx p :
  isSaveIndentMode ctx = false ->
  isAnchor s = false ->
  isFirstCharAtLine s = true ->
  scanSwitch s ctx p " " =
    let '(s', ctx') := progressColumn s ctx 1 in
    Continue s' (addOriginBuf " " ctx').
Proof.
  intros Hm Ha Hf. unfold scanSwitch.
  cbn [Ascii.eqb Bool.eqb andb orb squote dquote newline ascii_of_nat
       ascii_of_pos ascii_of_N].
  rewrite Hm, Ha, Hf. reflexivity.
Qed.

(** One turn of the loop on a space of the indent. *)
Lemma scanStep_indent k w j p :
  Z.of_nat j + 2 < 2 ^ 63 ->
  scanStep (inIndent k w j) (ctxInIndent k w j) p " " =
    Continue (inIndent k w (S j)) (ctxInIndent k w (S j)).
Proof.
  intros Hr. unfold scanStep.
  rewrite updateIndent_space by reflexivity.
  cbn [isChangedToIndentStateDown isChangedToIndentStateEqual indentState
       inIndent set_indentNum IndentState_eqb ctxInIndent isLiteral isFolded
       isRawFolded orb obuf].
  assert (Hsw : forall s c,
             isSaveIndentMode c = false -> isAnchor s = false ->
             isFirstCharAtLine s = true ->
             scanSwitch s c p " " =
               Continue (fst (progressColumn s c 1))
                        (addOriginBuf " " (snd (progressColumn s c 1)))).
  { intros s c H1 H2 H3. rewrite scanSwitch_indent_space by assumption.
    reflexivity. }
  assert (Hgoal :
    Continue
      (fst (progressColumn
              (set_indentNum (Int.add (Z.of_nat j) 1) (inIndent k w j))
              (ctxInIndent k w j) 1))
      (addOriginBuf " "
         (snd (progressColumn
                 (set_indentNum (Int.add (Z.of_nat j) 1) (inIndent k w j))
                 (ctxInIndent k w j) 1))) =
    Continue (inIndent k w (S j)) (ctxInIndent k w (S j))).
  { unfold progressColumn, inIndent, ctxInIndent, progress, addOriginBuf.
    change (Z.to_nat 1) with 1%nat.
    cbn -[Z.of_nat Int.add Z.add repeat wordSource Nat.add].
    unfold Int.add.
    rewrite !wrap_small by (unfold Int.in_range; lia).
    rewrite Nat2Z.inj_succ.
    replace (1 + Z.of_nat j + 1) with (1 + Z.succ (Z.of_nat j)) by lia.
    replace (Z.of_nat j + 1) with (Z.succ (Z.of_nat j)) by lia.
    replace (j + 1)%nat with (S j) by lia.
    replace (repeat " "%char j ++ [" "%char]) with (repeat " "%char (S j))
      by (cbn [repeat]; apply repeat_cons).
    reflexivity. }
  destruct (repeat " "%char j) as [|o l] eqn:Ho.
  - rewrite Hsw by reflexivity. exact Hgoal.
  - assert (o = " "%char) as ->.
    { destruct j; cbn in Ho; inversion Ho; reflexivity. }
    cbn [Ascii.eqb Bool.eqb andb negb newline].
    rewrite addBufferedTokenIfExists_empty by reflexivity.
    rewrite Hsw by reflexivity. exact Hgoal.
Qed.

Lemma scanDefault_eq s ctx c :
  scanDefault s ctx c =
    Continue (set_offset (Int.add (offset s) 1)
                (set_column (Int.add (column s) 1) s))
             (progress 1 (addOriginBuf c (addBuf c ctx))).
Proof. reflexivity. Qed.

(** One turn of the loop on the first character of the word. *)
Lemma scanStep_first k c w' p :
  plainChar c = true ->
  Z.of_nat k + 2 < 2 ^ 63 ->
  scanStep (inIndent k (c :: w') k) (ctxInIndent k (c :: w') k) p c =
    Continue (inWord k (c :: w') 1 (compareIndent 0 (Z.of_nat k)))
             (ctxInWord k (c :: w') 1).
Proof.
  intros Hc Hr. unfold scanStep.
  rewrite updateIndent_classify
    by (try reflexivity; apply (plainChar_neq c " " Hc); cbn; tauto).
  cbn [inIndent prevIndentNum indentNum prevIndentLevel indentLevel
       prevIndentColumn column source sourcePos sourceSize line offset
       isAnchor isStartedFlowSequence isStartedFlowMap savedPos].
  change (0 <? 0) with false. cbv iota zeta.
  unfold isChangedToIndentStateDown, isChangedToIndentStateEqual.
  cbn [indentState ctxInIndent isLiteral isFolded isRawFolded orb obuf].
  assert (Hlevel :
    (if 0 <? Z.of_nat k then Int.add 0 1
     else if 0 =? Z.of_nat k then 0 else 0) = wordLevel k).
  { unfold wordLevel. destruct (0 <? Z.of_nat k) eqn:E; [reflexivity|].
    destruct (0 =? Z.of_nat k); reflexivity. }
  rewrite Hlevel.
  assert (Hdown : IndentState_eqb (compareIndent 0 (Z.of_nat k)) IndentStateDown
                  = false).
  { unfold compareIndent. destruct (0 <? Z.of_nat k) eqn:E1; [reflexivity|].
    destruct (0 =? Z.of_nat k) eqn:E2; [reflexivity|]. lia. }
  rewrite Hdown.
  assert (Hgoal : forall s,
    s = {| source := str (wordSource k (c :: w')); sourcePos := 0;
           sourceSize := Z.of_nat (List.length (wordSource k (c :: w')));
           line := 1; column := 1 + Z.of_nat k; offset := 1 + Z.of_nat k;
           prevIndentLevel := wordLevel k; prevIndentNum := Z.of_nat k;
           prevIndentColumn := 0; indentLevel := wordLevel k;
           indentNum := Z.of_nat k; isFirstCharAtLine := false;
           isAnchor := false; isStartedFlowSequence := false;
           isStartedFlowMap := false;
           indentState := compareIndent 0 (Z.of_nat k); savedPos := None |} ->
    scanSwitch s (ctxInIndent k (c :: w') k) p c =
    Continue (inWord k (c :: w') 1 (compareIndent 0 (Z.of_nat k)))
             (ctxInWord k (c :: w') 1)).
  { intros s ->. rewrite scanSwitch_plain, scanDefault_eq by exact Hc.
    unfold inWord, ctxInWord, ctxInIndent, progress, addOriginBuf, addBuf.
    cbn -[Z.of_nat Int.add Z.add repeat wordSource Nat.add compareIndent].
    unfold Int.add. rewrite !wrap_small by (unfold Int.in_range; lia).
    rewrite Nat2Z.inj_add. change (Z.of_nat 1) with 1.
    replace (1 + Z.of_nat k + 1) with (1 + (Z.of_nat k + 1)) by lia.
    reflexivity. }
  destruct (IndentState_eqb (compareIndent 0 (Z.of_nat k)) IndentStateEqual)
    eqn:Heq.
  - destruct (repeat " "%char k) as [|o l] eqn:Ho.
    + now apply Hgoal.
    + assert (o = " "%char) as ->.
      { destruct k; cbn in Ho; inversion Ho; reflexivity. }
      cbn [Ascii.eqb Bool.eqb andb negb newline].
      rewrite addBufferedTokenIfExists_empty by reflexivity.
      now apply Hgoal.
  - now apply Hgoal.
Qed.

Lemma firstn_snoc {A} (l : list A) i d :
  (i < List.length l)%nat -> firstn (S i) l = firstn i l ++ [nth i l d].
Proof.
  revert i; induction l as [|a l IH]; intros i Hi; cbn in Hi; [lia|].
  destruct i; cbn; [reflexivity|]. f_equal. apply IH. lia.
Qed.

(** One turn of the loop on a later character of the word. *)
Lemma scanStep_word k w i st p c :
  wordChar c = true ->
  (i < List.length w)%nat ->
  c = nth i w zero ->
  Z.of_nat (k + i) + 2 < 2 ^ 63 ->
  scanStep (inWord k w i st) (ctxInWord k w i) p c =
    Continue (inWord k w (S i) IndentStateKeep) (ctxInWord k w (S i)).
Proof.
  intros Hc Hi Hnth Hr. unfold scanStep.
  rewrite updateIndent_keep by reflexivity.
  unfold isChangedToIndentStateDown, isChangedToIndentStateEqual.
  cbn [indentState set_indentState inWord IndentState_eqb ctxInWord
       isLiteral isFolded isRawFolded orb].
  rewrite scanSwitch_word, scanDefault_eq by (exact Hc || reflexivity).
  unfold inWord, ctxInWord, progress, addOriginBuf, addBuf.
  cbn -[Z.of_nat Int.add Z.add repeat wordSource Nat.add firstn].
  unfold Int.add. rewrite !wrap_small by (unfold Int.in_range; lia).
  rewrite (firstn_snoc w i zero Hi), <- Hnth, <- app_assoc.
  replace (k + S i)%nat with (k + i + 1)%nat by lia.
  rewrite (Nat2Z.inj_add (k + i) 1). change (Z.of_nat 1) with 1.
  replace (1 + Z.of_nat (k + i) + 1) with (1 + (Z.of_nat (k + i) + 1)) by lia.
  reflexivity.
Qed.

Lemma length_wordSource k w :
  List.length (wordSource k w) = (k + List.length w)%nat.
Proof. unfold wordSource. now rewrite length_app, repeat_length. Qed.

Lemma nth_wordSource k w i :
  nth (k + i) (wordSource k w) zero = nth i w zero.
Proof.
  unfold wordSource. rewrite app_nth2; rewrite repeat_length; [|lia].
  f_equal. lia.
Qed.

Lemma word_nth c w' i :
  Forall (fun x => wordChar x = true) w' ->
  (1 <= i < List.length (c :: w'))%nat ->
  wordChar (nth i (c :: w') zero) = true.
Proof.
  intros H Hi. destruct i as [|i]; [lia|]. cbn [nth].
  rewrite Forall_forall in H. apply H. apply nth_In. cbn in Hi. lia.
Qed.

(** The loop of [scan] from inside the word to the end of the source. *)
Lemma scan_word_run k c w' m :
  let w := c :: w' in
  plainChar c = true ->
  Forall (fun x => wordChar x = true) w' ->
  Z.of_nat (k + List.length w) + 2 < 2 ^ 63 ->
  forall i st,
    (i + m = List.length w)%nat -> (1 <= i)%nat ->
    exists s',
      scan_loop m (inWord k w i st) (ctxInWord k w i) (Z.of_nat (k + i)) =
        Some (Z.of_nat (k + List.length w), s', ctxDone k w) /\
      sourcePos s' = 0 /\
      sourceSize s' = Z.of_nat (List.length (wordSource k w)).
Proof.
  intros w Hc Hw Hr.
  induction m as [|m IH]; intros i st Him Hi.
  - assert (i = List.length w) as -> by lia.
    cbn [scan_loop]. unfold next.
    cbn [ctxInWord idx size]. rewrite length_wordSource, Nat.ltb_irrefl.
    unfold addBufferedTokenIfExists, bufferedToken.
    cbn [inWord savedPos]. unfold ctx_bufferedToken, bufferedSrc.
    cbn [ctxInWord buf obuf]. rewrite firstn_all.
    assert (Htrim : strings.TrimLeft (str w) " " = str w)
      by (apply TrimLeft_plain; exact Hc).
    assert (Hne : String.eqb (str w) EmptyString = false) by reflexivity.
    rewrite !Htrim, Hne, !len_str.
    eexists. split.
    { unfold addToken, resetBuffer, ctxDone, wordToken.
      cbn -[Z.of_nat Int.sub Z.add wordSource New str List.length].
      unfold Int.sub. rewrite !wrap_small by (unfold Int.in_range; lia).
      rewrite Nat2Z.inj_add.
      replace (1 + (Z.of_nat k + Z.of_nat (List.length w)) -
               Z.of_nat (List.length w)) with (1 + Z.of_nat k) by lia.
      reflexivity. }
    split; [reflexivity|]. cbn. now rewrite length_wordSource.
  - cbn [scan_loop]. unfold next at 1.
    cbn [ctxInWord idx size]. rewrite length_wordSource.
    replace (k + i <? k + List.length w)%nat with true
      by (symmetry; apply Nat.ltb_lt; lia).
    unfold currentChar, charAt, nextPos. cbn [ctxInWord idx src].
    rewrite nth_wordSource.
    rewrite (scanStep_word k w i st _ (nth i w zero));
      [ | apply word_nth; [exact Hw | fold w; lia] | lia | reflexivity | lia ].
    replace (k + i + 1)%nat with (k + S i)%nat by lia.
    destruct (IH (S i) IndentStateKeep) as (s' & H1 & H2 & H3); [lia|lia|].
    rewrite length_wordSource in H3. exists s'. auto.
Qed.

(** The loop of [scan] from inside the indent to the end of the source. *)
Lemma scan_indent_run k c w' m :
  let w := c :: w' in
  plainChar c = true ->
  Forall (fun x => wordChar x = true) w' ->
  Z.of_nat (k + List.length w) + 2 < 2 ^ 63 ->
  forall j p,
    (j + m = k)%nat ->
    exists s',
      scan_loop (m + List.length w) (inIndent k w j) (ctxInIndent k w j) p =
        Some (Z.of_nat (k + List.length w), s', ctxDone k w) /\
      sourcePos s' = 0 /\
      sourceSize s' = Z.of_nat (List.length (wordSource k w)).
Proof.
  intros w Hc Hw Hr.
  induction m as [|m IH]; intros j p Hj.
  - assert (j = k) as -> by lia.
    change (0 + List.length w)%nat with (S (List.length w')).
    cbn [scan_loop]. unfold next at 1.
    cbn [ctxInIndent idx size]. rewrite length_wordSource.
    replace (k <? k + List.length w)%nat with true
      by (symmetry; apply Nat.ltb_lt; cbn; lia).
    unfold currentChar, charAt, nextPos. cbn [ctxInIndent idx src].
    replace (nth k (wordSource k w) zero) with c
      by (rewrite <- (Nat.add_0_r k) at 1; now rewrite nth_wordSource).
    unfold w at 1 2.
    rewrite scanStep_first;
      [ | exact Hc | cbn [List.length] in Hr; lia ].
    fold w.
    destruct (scan_word_run k c w' (List.length w') Hc Hw Hr 1
                (compareIndent 0 (Z.of_nat k)))
      as (s' & H1 & H2 & H3); [cbn; lia | lia |].
    rewrite length_wordSource in H3. exists s'. auto.
  - cbn [Nat.add scan_loop]. unfold next at 1.
    cbn [ctxInIndent idx size]. rewrite length_wordSource.
    replace (j <? k + List.length w)%nat with true
      by (symmetry; apply Nat.ltb_lt; lia).
    unfold currentChar, charAt, nextPos. cbn [ctxInIndent idx src].
    replace (nth j (wordSource k w) zero) with " "%char.
    2:{ unfold wordSource. rewrite app_nth1 by (rewrite repeat_length; lia).
        symmetry. apply nth_repeat_lt. lia. }
    rewrite scanStep_indent by lia.
    destruct (IH (S j) (Z.of_nat (j + 1))) as (s' & H1 & H2 & H3); [lia|].
    rewrite length_wordSource in H3. exists s'. auto.
Qed.

Lemma Init_wordSource k w :
  Init zeroScanner (str (wordSource k w)) = inIndent k w 0.
Proof. unfold Init, inIndent. now rewrite len_str. Qed.

Lemma newContext_wordSource k w :
  newContext (str (wordSource k w)) = ctxInIndent k w 0.
Proof. unfold newContext, ctxInIndent. now rewrite list_of_str, length_str. Qed.

Lemma substring_all s : substring 0 (String.length s) s = s.
Proof. induction s as [|a s IH]; cbn; [reflexivity | now rewrite IH]. Qed.

Lemma substring_str_app a b :
  substring (List.length a) (List.length b) (str (a ++ b)) = str b.
Proof.
  induction a as [|x a IH]; cbn.
  - rewrite <- (length_str b). apply substring_all.
  - exact IH.
Qed.

(** The case of one token.  For a source that is one plain scalar on one
    line (a plain character, then plain characters and spaces) after [k]
    spaces,
    tokenizing yields one token; its offset locates its semantic value,
    [src[t.Offset-1 : t.Offset-1+len(t.Value)] == t.Value], and its
    original lexeme is the text from [k] characters earlier on, the
    spaces included.  The slice of the length of the original lexeme
    taken at the offset is the original lexeme only when no space comes
    before the word. *)
Theorem tokenize_plain_word k c w' :
  let w := c :: w' in
  let src := str (wordSource k w) in
  plainChar c = true ->
  Forall (fun x => wordChar x = true) w' ->
  Z.of_nat (k + List.length w) + 2 < 2 ^ 63 ->
  lexer.Tokenize src = Some [wordToken k w] /\
  valueAtOffset src (Z.of_nat k) (wordToken k w) /\
  (originAtOffset src (wordToken k w) <-> k = 0%nat).
Proof.
  intros w src Hc Hw Hr.
  assert (Hlen : String.length src = (k + List.length w)%nat)
    by (unfold src; now rewrite length_str, length_wordSource).
  split; [|split].
  - unfold lexer.Tokenize. rewrite Hlen.
    destruct (scan_indent_run k c w' k Hc Hw Hr 0 0)
      as (s' & Hrun & Hpos & Hsize); [lia|].
    fold w in Hrun, Hsize.
    assert (HScan :
      Scan (Init zeroScanner src) =
        Some (Some [wordToken k w], None,
              set_sourcePos (Int.add (sourcePos s')
                                     (Z.of_nat (k + List.length w))) s')).
    { unfold Scan, src. rewrite Init_wordSource.
      cbn [inIndent sourceSize sourcePos source].
      replace (Z.of_nat (List.length (wordSource k w)) <=? 0) with false
        by (symmetry; apply Z.leb_gt; rewrite length_wordSource; cbn; lia).
      change (Z.to_nat 0) with 0%nat. cbn [dropString].
      rewrite newContext_wordSource. unfold scan.
      cbn [ctxInIndent size]. rewrite length_wordSource, Hrun.
      reflexivity. }
    assert (HEOF : forall s'', (sourceSize s'' <=? sourcePos s'') = true ->
                     Scan s'' = Some (None, Some EOF, s'')).
    { intros s'' H. unfold Scan. now rewrite H. }
    replace (k + List.length w)%nat with (S (k + List.length w'))
      by (cbn; lia).
    cbn [lexer.Tokenize_loop]. rewrite HScan.
    assert (Hdone : forall f acc,
      lexer.Tokenize_loop f
        (set_sourcePos (Int.add (sourcePos s') (Z.of_nat (k + List.length w))) s')
        acc = Some acc).
    { intros f acc. destruct f; cbn [lexer.Tokenize_loop];
        rewrite HEOF; try reflexivity;
        destruct s'; cbn [sourcePos sourceSize set_sourcePos] in *; subst;
        unfold Int.add; rewrite wrap_small by (unfold Int.in_range; lia);
        rewrite length_wordSource; apply Z.leb_le; lia. }
    rewrite Hdone. reflexivity.
  - unfold valueAtOffset, slice, wordToken, New, mk.
    cbn [Position_ Offset Value Origin]. rewrite !len_str.
    unfold src. rewrite len_str, length_wordSource.
    split.
    + replace ((0 <=? 1 + Z.of_nat k - 1) &&
               (1 + Z.of_nat k - 1 <=? 1 + Z.of_nat k - 1 + Z.of_nat (List.length w)) &&
               (1 + Z.of_nat k - 1 + Z.of_nat (List.length w) <=?
                Z.of_nat (k + List.length w)))%bool with true
        by (symmetry; rewrite !andb_true_iff, !Z.leb_le; lia).
      f_equal.
      replace (Z.to_nat (1 + Z.of_nat k - 1)) with (List.length (repeat " "%char k))
        by (rewrite repeat_length; lia).
      replace (Z.to_nat (1 + Z.of_nat k - 1 + Z.of_nat (List.length w) -
                         (1 + Z.of_nat k - 1))) with (List.length w) by lia.
      apply substring_str_app.
    + replace ((0 <=? 1 + Z.of_nat k - 1 - Z.of_nat k) &&
               (1 + Z.of_nat k - 1 - Z.of_nat k <=?
                1 + Z.of_nat k - 1 - Z.of_nat k + Z.of_nat (k + List.length w)) &&
               (1 + Z.of_nat k - 1 - Z.of_nat k + Z.of_nat (k + List.length w) <=?
                Z.of_nat (k + List.length w)))%bool with true
        by (symmetry; rewrite !andb_true_iff, !Z.leb_le; lia).
      f_equal.
      replace (Z.to_nat (1 + Z.of_nat k - 1 - Z.of_nat k)) with 0%nat by lia.
      replace (Z.to_nat (1 + Z.of_nat k - 1 - Z.of_nat k +
                         Z.of_nat (k + List.length w) -
                         (1 + Z.of_nat k - 1 - Z.of_nat k)))
        with (String.length (str (wordSource k w)))
        by (rewrite length_str, length_wordSource; lia).
      apply substring_all.
  - unfold originAtOffset, slice, wordToken, New, mk.
    cbn [Position_ Offset Value Origin]. rewrite !len_str.
    unfold src. rewrite len_str, length_wordSource.
    split.
    + intros H.
      destruct ((0 <=? 1 + Z.of_nat k - 1) &&
                (1 + Z.of_nat k - 1 <=?
                 1 + Z.of_nat k - 1 + Z.of_nat (k + List.length w)) &&
                (1 + Z.of_nat k - 1 + Z.of_nat (k + List.length w) <=?
                 Z.of_nat (k + List.length w)))%bool eqn:E; [|discriminate].
      rewrite !andb_true_iff, !Z.leb_le in E. lia.
    + intros ->. cbn [Z.of_nat Nat.add].
      replace ((0 <=? 1 + 0 - 1) &&
               (1 + 0 - 1 <=? 1 + 0 - 1 + Z.of_nat (List.length w)) &&
               (1 + 0 - 1 + Z.of_nat (List.length w) <=?
                Z.of_nat (List.length w)))%bool with true
        by (symmetry; rewrite !andb_true_iff, !Z.leb_le; lia).
      f_equal.
      replace (Z.to_nat (1 + 0 - 1 + Z.of_nat (List.length w) - (1 + 0 - 1)))
        with (String.length (str (wordSource 0 w)))
        by (rewrite length_str, length_wordSource; lia).
      change (Z.to_nat (1 + 0 - 1)) with 0%nat.
      apply substring_all.
Qed.

(** ** The leading space, the bad header *)

(** ** Sources on one line *)

Lemma TrimLeft_suffix l :
  exists sp, l = sp ++ list_ascii_of_string (strings.TrimLeft (str l) " ").
Proof.
  induction l as [|a l [sp IH]]; [now exists []|].
  cbn. destruct (Ascii.eqb a " ").
  - exists (a :: sp). cbn. now f_equal.
  - exists []. cbn. f_equal. symmetry. apply list_of_str.
Qed.

Lemma length_list_of_string s :
  List.length (list_ascii_of_string s) = String.length s.
Proof. induction s as [|a s IH]; cbn; [reflexivity | now rewrite IH]. Qed.

Lemma len_TrimLeft l :
  strings.len (strings.TrimLeft (str l) " ") <= Z.of_nat (List.length l).
Proof.
  destruct (TrimLeft_suffix l) as [sp H].
  apply (f_equal (@List.length ascii)) in H.
  rewrite length_app, length_list_of_string in H.
  unfold strings.len. lia.
Qed.

Lemma nth_skipn {A} (l : list A) b i d :
  nth i (skipn b l) d = nth (b + i) l d.
Proof.
  revert l; induction b as [|b IH]; intros l; [reflexivity|].
  destruct l; cbn; [now destruct i | apply IH].
Qed.

Section OneLineFacts.

Variable SRC : list ascii.
Hypothesis Hbound : Z.of_nat (List.length SRC) + 4 < 2 ^ 63.

(** The invariant looks at few fields of the scanner. *)
Lemma Inv_scanner b s s' ctx :
  Inv SRC b s ctx ->
  Fixed SRC b s' ->
  offset s' = offset s ->
  savedPos s' = savedPos s ->
  (isFirstCharAtLine s' = true -> isFirstCharAtLine s = true) ->
  Inv SRC b s' ctx.
Proof.
  intros [] Hf Ho Hs H1. constructor; try assumption.
  - now rewrite Ho.
  - now rewrite Hs.
  - auto.
Qed.

Lemma Inv_bounds b s ctx :
  Inv SRC b s ctx ->
  (b + idx ctx <= List.length SRC)%nat /\
  (List.length (obuf ctx) <= b + idx ctx)%nat /\
  (List.length (buf ctx) <= List.length (obuf ctx))%nat.
Proof.
  intros []. destruct inv_buf0 as [lead Hl], inv_obuf0 as [pre Hp].
  apply (f_equal (@List.length ascii)) in Hp, Hl.
  rewrite length_app in Hp, Hl. rewrite length_firstn in Hp. lia.
Qed.

(** Flushing the buffer: the token, if any, ends at the cursor. *)
Lemma bufferedToken_ok b s ctx :
  Inv SRC b s ctx ->
  exists tk ctx',
    bufferedToken s ctx = (tk, s, ctx') /\
    Inv SRC b s ctx' /\
    noBuffer ctx' = true /\
    idx ctx' = idx ctx /\
    tokens ctx' = tokens ctx /\
    (forall t, tk = Some t -> tokenOk SRC t).
Proof.
  intros H. pose proof (Inv_bounds _ _ _ H) as (Hb1 & Hb2 & Hb3).
  pose proof (len_TrimLeft (buf ctx)) as Hl.
  pose proof H as H'.
  destruct H. unfold bufferedToken. rewrite inv_saved0.
  unfold ctx_bufferedToken, bufferedSrc.
  destruct (String.eqb (strings.TrimLeft (str (buf ctx)) " ") EmptyString)
    eqn:E.
  - exists None, ctx.
    refine (conj eq_refl (conj H' (conj E (conj eq_refl (conj eq_refl _))))).
    intros t Ht; discriminate Ht.
  - eexists _, _.
    refine (conj eq_refl (conj _ (conj eq_refl (conj eq_refl (conj eq_refl _))))).
    + constructor; cbn; try assumption.
      * now exists [].
      * exists (firstn (b + idx ctx) SRC). now rewrite app_nil_r.
      * reflexivity.
    + intros t Ht. injection Ht as <-.
      unfold tokenOk, New, mk. cbn.
      rewrite inv_offset0. unfold Int.sub, strings.len in *.
      rewrite wrap_small by (unfold Int.in_range; lia).
      split; [lia|]. split; [lia|].
      destruct inv_obuf0 as [pre Hp]. exists pre.
      rewrite list_of_str, <- Hp. f_equal. lia.
Qed.

Lemma flush_ok b s ctx :
  Inv SRC b s ctx ->
  exists ctx',
    addBufferedTokenIfExists s ctx = (s, ctx') /\
    Inv SRC b s ctx' /\
    noBuffer ctx' = true /\
    idx ctx' = idx ctx.
Proof.
  intros H. destruct (bufferedToken_ok _ _ _ H)
    as (tk & ctx' & E & Hi & Hn & Hx & Ht & Hok).
  unfold addBufferedTokenIfExists. rewrite E.
  destruct tk as [t|]; cbn.
  - eexists; split; [reflexivity|]. split; [|split; assumption].
    destruct Hi. constructor; cbn; try assumption.
    apply Forall_app; split; [assumption|]. constructor; auto.
  - exists ctx'. auto.
Qed.

Lemma firstn_plus {A} n m (l : list A) :
  firstn (n + m) l = firstn n l ++ firstn m (skipn n l).
Proof.
  revert l; induction n as [|n IH]; intros l; [reflexivity|].
  destruct l; cbn; [now rewrite firstn_nil | now rewrite IH].
Qed.

Lemma Inv_current b s ctx :
  Inv SRC b s ctx -> currentChar ctx = nth (b + idx ctx) SRC zero.
Proof.
  intros []. unfold currentChar, charAt. now rewrite inv_src0, nth_skipn.
Qed.

Lemma firstn_current b s ctx :
  Inv SRC b s ctx -> (idx ctx < size ctx)%nat ->
  firstn (S (b + idx ctx)) SRC =
  firstn (b + idx ctx) SRC ++ [nth (b + idx ctx) SRC zero].
Proof. intros [] Hlt. apply firstn_snoc. lia. Qed.

Lemma offset_add b s ctx k :
  Inv SRC b s ctx -> 0 <= k <= 3 ->
  Int.add (offset s) k = Z.of_nat (b + idx ctx) + 1 + k.
Proof.
  intros H Hk. pose proof (Inv_bounds _ _ _ H) as (Hb & _).
  destruct H. unfold Int.add. rewrite inv_offset0.
  apply wrap_small. unfold Int.in_range. lia.
Qed.

Lemma Fixed_eq b s s' :
  Fixed SRC b s ->
  source s' = source s -> sourceSize s' = sourceSize s ->
  sourcePos s' = sourcePos s ->
  Fixed SRC b s'.
Proof. intros [] H1 H2 H3. constructor; congruence. Qed.

(** A turn that takes the current character into the original buffer,
    and into the semantic buffer unless it is a space of the indent. *)
Lemma Inv_step b s ctx s' ctx' :
  Inv SRC b s ctx -> (idx ctx < size ctx)%nat ->
  Fixed SRC b s' ->
  offset s' = Int.add (offset s) 1 ->
  savedPos s' = None ->
  src ctx' = src ctx -> size ctx' = size ctx -> idx ctx' = S (idx ctx) ->
  isSaveIndentMode ctx' = false ->
  tokens ctx' = tokens ctx ->
  obuf ctx' = obuf ctx ++ [currentChar ctx] ->
  (buf ctx' = buf ctx ++ [currentChar ctx] /\ isFirstCharAtLine s' = false
   \/ buf ctx' = [] /\ buf ctx = []) ->
  Inv SRC b s' ctx'.
Proof.
  intros H Hlt Hf Ho Hs Hsrc Hsize Hidx Hm Ht Hob Hbuf.
  pose proof (firstn_current _ _ _ H Hlt) as Hcur.
  pose proof (offset_add _ _ _ 1 H ltac:(lia)) as Hoff.
  rewrite (Inv_current _ _ _ H) in *.
  destruct H. constructor; try congruence; try lia.
  - destruct inv_buf0 as [lead Hl].
    destruct Hbuf as [[-> _]|[-> Hb]].
    + exists lead. now rewrite Hob, Hl, app_assoc.
    + exists (obuf ctx'). now rewrite app_nil_r.
  - destruct inv_obuf0 as [pre Hp]. exists pre.
    rewrite Hidx, Nat.add_succ_r, Hcur, Hp, Hob. now rewrite app_assoc.
  - destruct Hbuf as [[_ E]|[E _]]; [congruence | auto].
Qed.

(** A turn that returns after it has moved the cursor. *)
Lemma Post_intro b s ctx p s' ctx' :
  Inv SRC b s ctx ->
  Fixed SRC b s' ->
  (idx ctx < idx ctx' <= size ctx)%nat ->
  p = Z.of_nat (idx ctx') ->
  offset s' = Z.of_nat (b + idx ctx') + 1 ->
  savedPos s' = None ->
  Forall (tokenOk SRC) (tokens ctx') ->
  Post SRC b p s' ctx'.
Proof.
  intros [] Hf Hi Hp Ho Hs Ht. constructor; try assumption; lia.
Qed.

(** A token of one character that takes the original buffer and the
    current character. *)
Lemma tokenOk_emit b s ctx t :
  Inv SRC b s ctx -> (idx ctx < size ctx)%nat ->
  String.length (Value t) = 1%nat ->
  Origin t = str (obuf ctx ++ [currentChar ctx]) ->
  Offset (Position_ t) = offset s ->
  tokenOk SRC t.
Proof.
  intros H Hlt Hv Ho Hp.
  pose proof (firstn_current _ _ _ H Hlt) as Hcur.
  rewrite (Inv_current _ _ _ H) in *.
  destruct H. unfold tokenOk, strings.len. rewrite Hv, Ho, Hp, inv_offset0.
  split; [lia|]. split; [lia|].
  destruct inv_obuf0 as [pre Hpre]. exists pre.
  rewrite list_of_str.
  replace (Z.to_nat _) with (S (b + idx ctx)) by lia.
  now rewrite Hcur, Hpre, app_assoc.
Qed.

(** A token whose original lexeme is [k] characters found at the
    cursor. *)
Lemma tokenOk_fixed b s ctx t w :
  Inv SRC b s ctx ->
  firstn (List.length w) (skipn (b + idx ctx) SRC) = w ->
  (b + idx ctx + List.length w <= List.length SRC)%nat ->
  Value t = str w -> Origin t = str w ->
  Offset (Position_ t) = offset s ->
  tokenOk SRC t.
Proof.
  intros H Hw Hle Hv Ho Hp.
  destruct H. unfold tokenOk, strings.len.
  rewrite Hv, Ho, Hp, inv_offset0, length_str.
  split; [lia|]. split; [lia|].
  exists (firstn (b + idx ctx) SRC). rewrite list_of_str.
  replace (Z.to_nat _) with (b + idx ctx + List.length w)%nat by lia.
  rewrite firstn_plus. now rewrite Hw.
Qed.

Lemma StepOk_idx b ctx ctx1 r :
  idx ctx1 = idx ctx -> StepOk SRC b ctx1 r -> StepOk SRC b ctx r.
Proof. intros E. destruct r; cbn; [now rewrite E | auto]. Qed.

Lemma simpleChar_neq c x :
  simpleChar c = true ->
  In x [newline; squote; dquote; "|"; ">"; "!"; "#"; "<"; "?"]%char ->
  Ascii.eqb c x = false.
Proof.
  unfold simpleChar; intros H Hx. apply negb_true_iff in H.
  destruct (Ascii.eqb c x) eqn:E; [|reflexivity].
  rewrite <- H. symmetry. apply existsb_exists. eauto.
Qed.

Lemma countPrefix_firstn ch l k :
  Z.of_nat k <= countPrefix ch l ->
  firstn k l = repeat ch k /\ (k <= List.length l)%nat.
Proof.
  revert k; induction l as [|a l IH]; intros k Hk; cbn [countPrefix] in Hk.
  - assert (k = 0%nat) by lia. subst k. split; [reflexivity | cbn; lia].
  - destruct k as [|k]; [split; [reflexivity | cbn; lia]|].
    destruct (Ascii.eqb a ch) eqn:E; [|lia].
    apply Ascii.eqb_eq in E. subst a.
    destruct (IH k ltac:(lia)) as [H1 H2].
    cbn. rewrite H1. split; [reflexivity | lia].
Qed.

Lemma repeatNum_firstn b s ctx ch k :
  Inv SRC b s ctx ->
  repeatNum ch ctx = Z.of_nat k ->
  firstn k (skipn (b + idx ctx) SRC) = repeat ch k /\
  (b + idx ctx + k <= List.length SRC)%nat.
Proof.
  intros H Hr. pose proof (Inv_bounds _ _ _ H) as (Hb & _).
  destruct H. unfold repeatNum in Hr.
  rewrite inv_src0, skipn_skipn, (Nat.add_comm (idx ctx)) in Hr.
  destruct (countPrefix_firstn ch (skipn (b + idx ctx) SRC) k ltac:(lia))
    as [H1 H2].
  rewrite length_skipn in H2. split; [assumption | lia].
Qed.

Lemma firstn_one b s ctx :
  Inv SRC b s ctx -> (idx ctx < size ctx)%nat ->
  firstn 1 (skipn (b + idx ctx) SRC) = [currentChar ctx].
Proof.
  intros H Hlt. rewrite (Inv_current _ _ _ H).
  pose proof (firstn_current _ _ _ H Hlt) as Hcur.
  change (S (b + idx ctx)) with (1 + (b + idx ctx))%nat in Hcur.
  rewrite Nat.add_comm, firstn_plus in Hcur.
  now apply app_inv_head in Hcur.
Qed.

(** The default of the switch, and a space inside a line. *)
Lemma scanDefault_ok b s ctx c :
  Inv SRC b s ctx -> (idx ctx < size ctx)%nat ->
  c = currentChar ctx ->
  isFirstCharAtLine s = false ->
  StepOk SRC b ctx (scanDefault s ctx c).
Proof.
  intros H Hlt Hc Hf. unfold scanDefault, progressColumn. cbn -[Int.add].
  split; [|lia].
  eapply Inv_step; [exact H | exact Hlt | ..]; cbn -[Int.add];
    try reflexivity; try (subst c; reflexivity).
  - eapply Fixed_eq; [apply (inv_fixed _ _ _ _ H) | reflexivity ..].
  - apply (inv_saved _ _ _ _ H).
  - lia.
  - apply (inv_mode _ _ _ _ H).
  - left. subst c. auto.
Qed.

Ltac fixed_ok H :=
  eapply Fixed_eq; [apply (inv_fixed _ _ _ _ H) | reflexivity ..].

(* the obligations of a returning turn but the tokens *)
Ltac post_done H :=
  let B1 := fresh in let B2 := fresh in let B3 := fresh in
  pose proof (Inv_bounds _ _ _ H) as (B1 & B2 & B3);
  pose proof (inv_size _ _ _ _ H);
  eapply Post_intro;
  [ exact H
  | fixed_ok H
  | cbn; lia
  | unfold nextPos, Int.add;
    rewrite ?wrap_small by (unfold Int.in_range; lia); cbn; lia
  | cbn -[Int.add]; rewrite (offset_add _ _ _ _ H) by lia; cbn; lia
  | cbn; apply (inv_saved _ _ _ _ H)
  | cbn ].

Ltac tokens_snoc H :=
  apply Forall_app; split;
  [ apply (inv_tokens _ _ _ _ H) | constructor; [|constructor] ].

Ltac emit_ok H Hlt Hc :=
  eapply tokenOk_emit;
  [ exact H | exact Hlt | reflexivity
  | cbn; rewrite Hc; reflexivity | reflexivity ].

Ltac flush H Hlt ctx ctx1 H1 Hlt1 Hc1 Hx :=
  let E := fresh "E" in let Hn := fresh "Hn" in
  destruct (flush_ok _ _ _ H) as (ctx1 & E & H1 & Hn & Hx);
  rewrite E;
  assert (Hlt1 : (idx ctx1 < size ctx1)%nat)
    by (rewrite (inv_size _ _ _ _ H1), <- (inv_size _ _ _ _ H), Hx;
        exact Hlt);
  assert (Hc1 : currentChar ctx = currentChar ctx1)
    by (rewrite (Inv_current _ _ _ H), (Inv_current _ _ _ H1), Hx;
        reflexivity).

(* a case that flushes the buffer and emits a token of one character *)
Ltac flush_emit H Hlt Hc ctx :=
  let ctx1 := fresh "ctx1" in let H1 := fresh "H1" in
  let Hlt1 := fresh "Hlt1" in let Hc1 := fresh "Hc1" in
  let Hx := fresh "Hx" in
  flush H Hlt ctx ctx1 H1 Hlt1 Hc1 Hx;
  unfold progressColumn; cbn -[Int.add]; post_done H1;
  tokens_snoc H1; rewrite Hc1 in Hc; emit_ok H1 Hlt1 Hc.

Lemma scanSwitch_ok b s ctx c :
  Inv SRC b s ctx -> (idx ctx < size ctx)%nat ->
  c = currentChar ctx ->
  simpleChar c = true ->
  (c <> " "%char -> isFirstCharAtLine s = false) ->
  (isChangedToIndentStateUp s = true -> noBuffer ctx = true) ->
  StepOk SRC b ctx (scanSwitch s ctx (nextPos ctx) c).
Proof.
  intros H Hlt Hc Hs Hf Hup.
  assert (Hdef : c <> " "%char -> StepOk SRC b ctx (scanDefault s ctx c)).
  { intros Hn. apply scanDefault_ok; auto. }
  unfold scanSwitch.
  rewrite (simpleChar_neq c "<" Hs), (simpleChar_neq c "|" Hs),
    (simpleChar_neq c ">" Hs), (simpleChar_neq c "!" Hs),
    (simpleChar_neq c "?" Hs), (simpleChar_neq c "#" Hs),
    (simpleChar_neq c squote Hs), (simpleChar_neq c dquote Hs),
    (simpleChar_neq c newline Hs) by (cbn; tauto).
  cbn [orb].
  destruct (Ascii.eqb c "{") eqn:E1.
  { apply Ascii.eqb_eq in E1.
    assert (Hn : c <> " "%char) by (rewrite E1; discriminate).
    destruct (noBuffer ctx) eqn:En; [|auto].
    unfold progressColumn. cbn -[Int.add]. post_done H.
    tokens_snoc H. emit_ok H Hlt Hc. }
  destruct (Ascii.eqb c "}") eqn:E2.
  { apply Ascii.eqb_eq in E2.
    assert (Hn : c <> " "%char) by (rewrite E2; discriminate).
    destruct (noBuffer ctx || isStartedFlowMap s)%bool; [|auto].
    flush_emit H Hlt Hc ctx. }
  destruct (Ascii.eqb c ".") eqn:E3.
  { apply Ascii.eqb_eq in E3.
    assert (Hn : c <> " "%char) by (rewrite E3; discriminate).
    destruct ((indentNum s =? 0) && (repeatNum "." ctx =? 3))%bool eqn:Ed;
      [|auto].
    apply andb_prop in Ed as [_ Er]. apply Z.eqb_eq in Er.
    destruct (repeatNum_firstn _ _ _ "." 3 H Er) as [Hw Hle].
    unfold progressColumn. cbn -[Int.add]. post_done H.
    tokens_snoc H.
    eapply tokenOk_fixed with (w := repeat "."%char 3);
      [exact H | exact Hw | cbn; lia | reflexivity ..]. }
  destruct (Ascii.eqb c "-") eqn:E4.
  { apply Ascii.eqb_eq in E4.
    assert (Hn : c <> " "%char) by (rewrite E4; discriminate).
    destruct ((indentNum s =? 0) && (repeatNum "-" ctx =? 3))%bool eqn:Ed.
    { apply andb_prop in Ed as [_ Er]. apply Z.eqb_eq in Er.
      destruct (repeatNum_firstn _ _ _ "-" 3 H Er) as [Hw Hle].
      flush H Hlt ctx ctx1 H1 Hlt1 Hc1 Hx.
      unfold progressColumn. cbn -[Int.add]. post_done H1.
      tokens_snoc H1. rewrite <- Hx in Hw, Hle.
      eapply tokenOk_fixed with (w := repeat "-"%char 3);
        [exact H1 | exact Hw | cbn; lia | reflexivity ..]. }
    assert (Er : (negb (noBuffer ctx) && isChangedToIndentStateUp s)%bool
                 = false).
    { destruct (isChangedToIndentStateUp s);
        [rewrite Hup by reflexivity; reflexivity | apply andb_false_r]. }
    rewrite Er.
    destruct (Ascii.eqb (nextChar ctx) " "); [|auto].
    flush_emit H Hlt Hc ctx. }
  destruct (Ascii.eqb c "[") eqn:E5.
  { apply Ascii.eqb_eq in E5.
    assert (Hn : c <> " "%char) by (rewrite E5; discriminate).
    destruct (noBuffer ctx) eqn:En; [|auto].
    unfold progressColumn. cbn -[Int.add]. post_done H.
    tokens_snoc H. emit_ok H Hlt Hc. }
  destruct (Ascii.eqb c "]") eqn:E6.
  { apply Ascii.eqb_eq in E6.
    assert (Hn : c <> " "%char) by (rewrite E6; discriminate).
    destruct (noBuffer ctx || isStartedFlowSequence s)%bool; [|auto].
    flush_emit H Hlt Hc ctx. }
  destruct (Ascii.eqb c ",") eqn:E7.
  { apply Ascii.eqb_eq in E7.
    assert (Hn : c <> " "%char) by (rewrite E7; discriminate).
    destruct (isStartedFlowSequence s || isStartedFlowMap s)%bool; [|auto].
    flush_emit H Hlt Hc ctx. }
  destruct (Ascii.eqb c ":") eqn:E8.
  { apply Ascii.eqb_eq in E8.
    assert (Hn : c <> " "%char) by (rewrite E8; discriminate).
    destruct (Ascii.eqb (nextChar ctx) " " || Ascii.eqb (nextChar ctx) newline
              || isNextEOS ctx)%bool; [|auto].
    destruct (bufferedToken_ok _ _ _ H)
      as (tk & ctx1 & E & H1 & _ & Hx & Ht & Hok).
    rewrite E.
    assert (Hlt1 : (idx ctx1 < size ctx1)%nat)
      by (rewrite (inv_size _ _ _ _ H1), <- (inv_size _ _ _ _ H), Hx;
          exact Hlt).
    pose proof (firstn_one _ _ _ H Hlt) as Hone.
    rewrite <- Hc, E8, <- Hx in Hone.
    assert (Hcolon : forall s', offset s' = offset s ->
              tokenOk SRC (MappingValue (pos s'))).
    { intros s' Ho. pose proof (inv_size _ _ _ _ H1).
      eapply tokenOk_fixed with (w := [":"%char]);
        [exact H1 | exact Hone | cbn; lia | reflexivity ..| exact Ho]. }
    destruct tk as [t|]; unfold progressColumn; cbn -[Int.add]; post_done H1.
    - rewrite Ht, <- app_assoc. apply Forall_app; split;
        [apply (inv_tokens _ _ _ _ H) |].
      constructor; [now apply Hok|]. constructor; [|constructor].
      now apply Hcolon.
    - tokens_snoc H1. now apply Hcolon. }
  destruct (Ascii.eqb c "%") eqn:E9.
  { apply Ascii.eqb_eq in E9.
    assert (Hn : c <> " "%char) by (rewrite E9; discriminate).
    destruct (noBuffer ctx && (indentNum s =? 0))%bool; [|auto].
    pose proof (firstn_one _ _ _ H Hlt) as Hone.
    rewrite <- Hc, E9 in Hone.
    unfold progressColumn. cbn -[Int.add]. post_done H.
    tokens_snoc H.
    eapply tokenOk_fixed with (w := ["%"%char]);
      [exact H | exact Hone | cbn; lia | reflexivity ..]. }
  destruct (Ascii.eqb c "&") eqn:E10.
  { apply Ascii.eqb_eq in E10.
    assert (Hn : c <> " "%char) by (rewrite E10; discriminate).
    destruct (noBuffer ctx); [|auto].
    flush_emit H Hlt Hc ctx. }
  destruct (Ascii.eqb c "*") eqn:E11.
  { apply Ascii.eqb_eq in E11.
    assert (Hn : c <> " "%char) by (rewrite E11; discriminate).
    destruct (noBuffer ctx); [|auto].
    flush_emit H Hlt Hc ctx. }
  destruct (Ascii.eqb c " ") eqn:E12.
  2:{ apply Hdef. intros ->. discriminate E12. }
  rewrite (inv_mode _ _ _ _ H). cbn [orb].
  assert (indent : isFirstCharAtLine s = true ->
            StepOk SRC b ctx
              (let '(s0, ctx0) := progressColumn s ctx 1 in
               Continue s0 (addOriginBuf c ctx0))).
  { intros Ei. unfold progressColumn. cbn -[Int.add].
    pose proof (inv_first _ _ _ _ H Ei) as Hbuf.
    split; [|lia].
    eapply Inv_step; [exact H | exact Hlt | ..]; cbn -[Int.add];
      try reflexivity; try (subst c; reflexivity).
    - fixed_ok H.
    - apply (inv_saved _ _ _ _ H).
    - lia.
    - apply (inv_mode _ _ _ _ H).
    - right. auto. }
  destruct (isAnchor s) eqn:Ea, (isFirstCharAtLine s) eqn:Ei; cbn [negb andb].
  - apply indent. reflexivity.
  - flush H Hlt ctx ctx1 H1 Hlt1 Hc1 Hx.
    unfold progressColumn. cbn -[Int.add]. post_done H1.
    apply (inv_tokens _ _ _ _ H1).
  - apply indent. reflexivity.
  - apply (scanDefault_ok _ _ _ _ H Hlt Hc Ei).
Qed.

(** What the turns on one line need of [updateIndent]. *)
Lemma updateIndent_line s c :
  let s1 := updateIndent s c in
  (source s1 = source s /\ sourceSize s1 = sourceSize s /\
   sourcePos s1 = sourcePos s) /\
  offset s1 = offset s /\ savedPos s1 = savedPos s /\
  (isFirstCharAtLine s1 = true -> isFirstCharAtLine s = true) /\
  (c <> " "%char -> isFirstCharAtLine s1 = false) /\
  (isChangedToIndentStateUp s1 = true -> isFirstCharAtLine s = true).
Proof.
  destruct (isFirstCharAtLine s) eqn:Ef.
  - destruct (Ascii.eqb c " ") eqn:Ec.
    + rewrite (updateIndent_space _ _ Ef Ec). cbn.
      apply Ascii.eqb_eq in Ec. repeat split; auto. intros Hn; now elim Hn.
    + rewrite (updateIndent_classify _ _ Ef Ec). cbn. repeat split; auto.
  - rewrite (updateIndent_keep _ _ Ef). cbn. repeat split; auto.
    congruence.
Qed.

Lemma noBuffer_nil ctx : buf ctx = [] -> noBuffer ctx = true.
Proof. unfold noBuffer, bufferedSrc. now intros ->. Qed.

Lemma Inv_breakLiteral b s ctx :
  Inv SRC b s ctx -> Inv SRC b s (breakLiteral ctx).
Proof. intros []. constructor; cbn; try assumption; reflexivity. Qed.

(** One turn of the loop of [scan] on a simple character. *)
Lemma scanStep_ok b s ctx :
  Inv SRC b s ctx -> (idx ctx < size ctx)%nat ->
  simpleChar (currentChar ctx) = true ->
  StepOk SRC b ctx (scanStep s ctx (nextPos ctx) (currentChar ctx)).
Proof.
  intros H Hlt Hs. unfold scanStep.
  destruct (updateIndent_line s (currentChar ctx))
    as ((F1 & F2 & F3) & Fo & Fs & Ff & Fn & Fu).
  set (s1 := updateIndent s (currentChar ctx)) in *.
  assert (H1 : Inv SRC b s1 ctx).
  { apply (Inv_scanner _ _ _ _ H); auto.
    apply (Fixed_eq _ _ _ (inv_fixed _ _ _ _ H)); assumption. }
  assert (Hup : isChangedToIndentStateUp s1 = true -> noBuffer ctx = true).
  { intros E. apply noBuffer_nil, (inv_first _ _ _ _ H), Fu, E. }
  clearbody s1.
  assert (Hflush :
    StepOk SRC b ctx
      (let '(s0, ctx0) := addBufferedTokenIfExists s1 ctx in
       scanSwitch s0 ctx0 (nextPos ctx) (currentChar ctx))).
  { destruct (flush_ok _ _ _ H1) as (ctx1 & E & H2 & Hn & Hx).
    rewrite E. apply (StepOk_idx _ _ ctx1); [exact Hx|].
    assert (Hc : currentChar ctx = currentChar ctx1)
      by (rewrite (Inv_current _ _ _ H1), (Inv_current _ _ _ H2), Hx;
          reflexivity).
    replace (nextPos ctx) with (nextPos ctx1) by (unfold nextPos; now rewrite Hx).
    apply scanSwitch_ok; auto.
    rewrite (inv_size _ _ _ _ H2), <- (inv_size _ _ _ _ H1), Hx. exact Hlt. }
  destruct (isChangedToIndentStateDown s1).
  { destruct (flush_ok _ _ _ H1) as (ctx1 & E & H2 & Hn & Hx).
    rewrite E. apply (StepOk_idx _ _ (breakLiteral ctx1)); [exact Hx|].
    apply Inv_breakLiteral in H2.
    assert (Hc : currentChar ctx = currentChar (breakLiteral ctx1))
      by (rewrite (Inv_current _ _ _ H1), (Inv_current _ _ _ H2); cbn;
          rewrite Hx; reflexivity).
    replace (nextPos ctx) with (nextPos (breakLiteral ctx1))
      by (unfold nextPos; cbn; now rewrite Hx).
    apply scanSwitch_ok; auto.
    rewrite (inv_size _ _ _ _ H2), <- (inv_size _ _ _ _ H1). cbn.
    rewrite Hx. exact Hlt. }
  pose proof (inv_mode _ _ _ _ H) as Hm. unfold isSaveIndentMode in Hm.
  rewrite Hm.
  assert (Hplain :
    StepOk SRC b ctx (scanSwitch s1 ctx (nextPos ctx) (currentChar ctx)))
    by (apply scanSwitch_ok; auto).
  destruct (isChangedToIndentStateEqual s1); [|exact Hplain].
  destruct (obuf ctx) as [|o l]; [exact Hplain|].
  destruct (negb (Ascii.eqb o newline)); [exact Hflush | exact Hplain].
Qed.

Hypothesis Hsimple : Forall (fun c => simpleChar c = true) SRC.

Lemma simple_current b s ctx :
  Inv SRC b s ctx -> (idx ctx < size ctx)%nat ->
  simpleChar (currentChar ctx) = true.
Proof.
  intros H Hlt. rewrite (Inv_current _ _ _ H).
  pose proof (inv_size _ _ _ _ H). pose proof (inv_le _ _ _ _ H).
  rewrite Forall_forall in Hsimple. apply Hsimple, nth_In. lia.
Qed.

(** The loop of [scan] returns, and [Post] holds when it does. *)
Lemma scan_loop_ok fuel : forall b s ctx p,
  Inv SRC b s ctx ->
  p = Z.of_nat (idx ctx) ->
  (1 <= size ctx)%nat ->
  (size ctx - idx ctx <= fuel)%nat ->
  exists p' s' ctx',
    scan_loop fuel s ctx p = Some (p', s', ctx') /\ Post SRC b p' s' ctx'.
Proof.
  induction fuel as [|fuel IH]; intros b s ctx p H Hp Hsz Hfuel.
  all: pose proof (inv_idx _ _ _ _ H) as Hidx.
  all: pose proof (inv_size _ _ _ _ H) as Hsize.
  all: pose proof (inv_le _ _ _ _ H) as Hle.
  all: cbn [scan_loop]; unfold next.
  all: destruct (Nat.ltb_spec (idx ctx) (size ctx)) as [Hlt|Hge]; try lia.
  1,3: destruct (flush_ok _ _ _ H) as (ctx1 & E & H1 & _ & Hx); rewrite E;
    exists p, s, ctx1; (split; [reflexivity|]);
    pose proof (inv_offset _ _ _ _ H1); pose proof (inv_saved _ _ _ _ H1);
    pose proof (inv_tokens _ _ _ _ H1); pose proof (inv_fixed _ _ _ _ H1);
    constructor; try assumption; lia.
  pose proof (scanStep_ok _ _ _ H Hlt (simple_current _ _ _ H Hlt)) as Hstep.
  destruct (scanStep s ctx (nextPos ctx) (currentChar ctx))
    as [s' ctx'|p' s' ctx']; cbn in Hstep.
  - destruct Hstep as [H' Hx].
    pose proof (inv_size _ _ _ _ H') as Hsize'.
    apply IH; try assumption; try lia.
    unfold nextPos. rewrite Hx. lia.
  - eauto.
Qed.

Lemma dropString_str n : forall l,
  list_ascii_of_string (dropString n (str l)) = skipn n l.
Proof.
  induction n as [|n IH]; intros l; [apply list_of_str|].
  destruct l as [|a l]; [reflexivity | apply IH].
Qed.

Lemma length_dropString n l :
  String.length (dropString n (str l)) = (List.length l - n)%nat.
Proof.
  rewrite <- length_list_of_string, dropString_str. apply length_skipn.
Qed.

(** A call of [Scan] inside the source returns tokens and moves on. *)
Lemma Scan_ok b s :
  Between SRC b s -> (b < List.length SRC)%nat ->
  exists tks s' b',
    Scan s = Some (Some tks, None, s') /\
    (b < b')%nat /\ Between SRC b' s' /\ Forall (tokenOk SRC) tks.
Proof.
  intros [[F1 F2 F3] Hle Ho Hs] Hlt. unfold Scan.
  rewrite F2, F3.
  destruct (Z.leb_spec (Z.of_nat (List.length SRC)) (Z.of_nat b)); [lia|].
  rewrite Nat2Z.id, F1.
  set (ctx := newContext (dropString b (str SRC))).
  assert (H0 : Inv SRC b s ctx).
  { constructor; cbn.
    - now constructor.
    - exact Hle.
    - apply dropString_str.
    - apply length_dropString.
    - lia.
    - rewrite Ho. lia.
    - exact Hs.
    - reflexivity.
    - now exists [].
    - exists (firstn (b + 0) SRC). now rewrite app_nil_r.
    - reflexivity.
    - constructor. }
  assert (Hsize : size ctx = (List.length SRC - b)%nat)
    by apply length_dropString.
  destruct (scan_loop_ok (size ctx) b s ctx 0 H0 eq_refl ltac:(lia) ltac:(lia))
    as (p' & s' & ctx' & E & [[G1 G2 G3] Gp Gpr Gi Go Gs Gt]).
  unfold scan. rewrite E.
  exists (tokens ctx'), (set_sourcePos (Int.add (sourcePos s') p') s'),
    (b + idx ctx')%nat.
  split; [reflexivity|]. split; [lia|]. split; [|exact Gt].
  constructor; cbn; try assumption.
  constructor; cbn; try assumption.
  rewrite G3, Gp. unfold Int.add.
  rewrite wrap_small by (unfold Int.in_range; lia). lia.
Qed.

(** At the end of the source [Scan] reports the end. *)
Lemma Scan_end s :
  Between SRC (List.length SRC) s -> Scan s = Some (None, Some EOF, s).
Proof.
  intros [[F1 F2 F3] Hle Ho Hs]. unfold Scan. rewrite F2, F3.
  now rewrite Z.leb_refl.
Qed.

Lemma Tokenize_loop_ok fuel : forall b s acc,
  Between SRC b s ->
  Forall (tokenOk SRC) acc ->
  (List.length SRC - b <= fuel)%nat ->
  exists tks,
    lexer.Tokenize_loop fuel s acc = Some tks /\ Forall (tokenOk SRC) tks.
Proof.
  induction fuel as [|fuel IH]; intros b s acc Hb Hacc Hfuel.
  all: pose proof (between_le _ _ _ Hb) as Hle.
  all: assert (Hc : b = List.length SRC \/ (b < List.length SRC)%nat) by lia.
  all: destruct Hc as [->|Hlt]; try lia.
  1,2: cbn [lexer.Tokenize_loop]; rewrite (Scan_end _ Hb); eauto.
  destruct (Scan_ok _ _ Hb Hlt) as (tks & s' & b' & E & Hlt' & Hb' & Htks).
  cbn [lexer.Tokenize_loop]. rewrite E.
  apply (IH b'); [exact Hb' | | lia].
  apply Forall_app. split; assumption.
Qed.

End OneLineFacts.

Lemma substring_mid a b r :
  substring (List.length a) (List.length b) (str (a ++ b ++ r)) = str b.
Proof.
  induction a as [|x a IH]; [|exact IH].
  induction b as [|y b IHb]; cbn.
  - now destruct (string_of_list_ascii r).
  - f_equal. exact IHb.
Qed.

Lemma tokenOk_slice SRC t :
  tokenOk SRC t -> originEndsValue (str SRC) t.
Proof.
  unfold tokenOk, originEndsValue.
  set (e := Offset (Position_ t) - 1 + strings.len (Value t)).
  intros (H1 & H2 & pre & Hp).
  assert (He : 0 <= e) by (unfold e, strings.len; lia).
  pose proof (f_equal (@List.length ascii) Hp) as Hl.
  rewrite length_firstn, length_app, length_list_of_string in Hl.
  unfold slice, strings.len. rewrite length_str.
  rewrite !(proj2 (Z.leb_le _ _)) by lia. cbn [andb]. f_equal.
  replace (Z.to_nat (e - Z.of_nat (String.length (Origin t))))
    with (List.length pre) by lia.
  replace (Z.to_nat (e - (e - Z.of_nat (String.length (Origin t)))))
    with (List.length (list_ascii_of_string (Origin t)))
    by (rewrite length_list_of_string; lia).
  rewrite <- (firstn_skipn (Z.to_nat e) SRC), Hp, <- app_assoc.
  rewrite substring_mid. apply string_of_list_ascii_of_string.
Qed.

Lemma link_origin src tks :
  Forall (originEndsValue src) tks ->
  Forall (originEndsValue src) (token.link tks).
Proof.
  induction 1 as [|t l Ht Hl IH]; [constructor|].
  destruct l as [|t' l']; [now repeat constructor|].
  cbn [token.link]. constructor; [exact Ht | exact IH].
Qed.



(** The only error of [Scan] is the end of the input. *)
Lemma Scan_error_is_EOF s tks err s' :
  Scan s = Some (tks, err, s') ->
  err = None \/ (err = Some EOF /\ sourceSize s <= sourcePos s).
Proof.
  unfold Scan. destruct (sourceSize s <=? sourcePos s) eqn:E.
  - intros H; inversion H; subst. right. split; [reflexivity|].
    now apply Z.leb_le.
  - destruct (scan s _) as [[[p s1] c1]|]; intros H; inversion H; auto.
Qed.

(** C2, at the failing input.  On a bar followed by [x] and a newline,
    [scanLiteralHeader] raises "invalid literal header"; [Scan] returns
    no token and no error, and tokenizing goes on to yield the [x] as a
    plain scalar: the caller is told nothing. *)
Theorem scan_drops_literal_header_error :
  (exists p ctx,
      scanLiteralHeader (Init zeroScanner samples.badHeader)
        (newContext samples.badHeader)
        = (p, Some "invalid literal header"%string, ctx)) /\
  (exists s', Scan (Init zeroScanner samples.badHeader)
              = Some (Some [], None, s')) /\
  lexer.Tokenize samples.badHeader =
    Some [New "x" "x" {| Line := 1; Column := 1; Offset := 2;
                         IndentNum := 0; IndentLevel := 0 |}].
Proof.
  split; [|split].
  - eexists. eexists. vm_compute. reflexivity.
  - eexists. vm_compute. reflexivity.
  - vm_compute. reflexivity.
Qed.

(** ** Witness *)

Lemma tokenize_plain_word_example :
  lexer.Tokenize (str (wordSource 1 ["a"%char])) = Some [wordToken 1 ["a"%char]] /\
  valueAtOffset (str (wordSource 1 ["a"%char])) 1 (wordToken 1 ["a"%char]) /\
  (originAtOffset (str (wordSource 1 ["a"%char])) (wordToken 1 ["a"%char])
   <-> 1%nat = 0%nat).
Proof.
  apply (tokenize_plain_word 1 "a"%char []).
  - reflexivity.
  - constructor.
  - reflexivity.
Qed.


(** * Further properties of the scanner *)

(** ** The first turn of the first [Scan] *)

Lemma scanStep_start src p c :
  Ascii.eqb c " " = false ->
  scanStep (Init zeroScanner src) (newContext src) p c =
  scanSwitch (started src) (newContext src) p c.
Proof.
  intros Hc. unfold scanStep.
  rewrite updateIndent_classify by (try reflexivity; exact Hc).
  reflexivity.
Qed.

Lemma Scan_start c rest :
  Ascii.eqb c " " = false ->
  Scan (Init zeroScanner (String c rest)) =
  match scanSwitch (started (String c rest)) (newContext (String c rest)) 1 c with
  | Continue s' ctx' =>
      match scan_loop (String.length rest) s' ctx' 1 with
      | Some (progress, s, ctx) =>
          Some (Some (tokens ctx), None,
                set_sourcePos (Int.add (sourcePos s) progress) s)
      | None => None
      end
  | Done progress s ctx =>
      Some (Some (tokens ctx), None,
            set_sourcePos (Int.add (sourcePos s) progress) s)
  end.
Proof.
  intros Hc. unfold Scan.
  set (s0 := Init zeroScanner (String c rest)).
  change (sourceSize s0) with (strings.len (String c rest)).
  change (sourcePos s0) with 0.
  change (source s0) with (String c rest).
  assert (Hlen : (strings.len (String c rest) <=? 0) = false).
  { apply Z.leb_gt. unfold strings.len. cbn [String.length]. lia. }
  rewrite Hlen. cbn [Z.to_nat dropString]. unfold scan.
  set (ctx0 := newContext (String c rest)).
  change (size ctx0) with (S (String.length rest)).
  cbn [scan_loop]. change (next ctx0) with true. cbv iota.
  change (nextPos ctx0) with 1.
  change (currentChar ctx0) with c.
  unfold s0, ctx0.
  rewrite (scanStep_start _ _ _ Hc).
  destruct (scanSwitch _ _ _ _); reflexivity.
Qed.

(** ** Quoted scalars *)

Lemma scanQuote_loop_found s q st body : forall i p ctx rest,
  ~ In q body ->
  Ascii.eqb (previousChar ctx) backslash = false ->
  scanQuote_loop s q st (body ++ q :: rest) i p ctx =
    let ctx' := with_obuf (obuf ctx ++ body ++ [q]) ctx in
    let value := source_ st (st + (i + List.length body)) ctx in
    (if Ascii.eqb q squote
     then Some (SingleQuote value (str (obuf ctx')) (pos s))
     else if Ascii.eqb q dquote
     then Some (DoubleQuote value (str (obuf ctx')) (pos s))
     else None,
     Int.add (strings.len value) 1, ctx').
Proof.
  induction body as [|c body IH]; intros i p ctx rest Hq Hp.
  - cbn [app scanQuote_loop List.length]. rewrite Ascii.eqb_refl.
    change (previousChar (addOriginBuf q ctx)) with (previousChar ctx).
    rewrite Hp, Nat.add_0_r. reflexivity.
  - cbn [app scanQuote_loop].
    assert (Hc : Ascii.eqb c q = false).
    { apply Ascii.eqb_neq. intros ->. apply Hq. now left. }
    rewrite Hc.
    rewrite IH by (try (intros H; apply Hq; now right); exact Hp).
    cbn [List.length]. unfold addOriginBuf. cbn [obuf with_obuf].
    rewrite <- !app_assoc. cbn [app].
    replace (S i + List.length body)%nat with (i + S (List.length body))%nat
      by lia.
    reflexivity.
Qed.

(** X15.  A quoted scalar is taken whole.  For a source that starts with
    a quote, a body in which that quote does not occur, and the same
    quote again, the first [Scan] returns one token of the quote's kind:
    its value is the body, whatever it holds (indicators, newlines, a
    backslash before the closing quote), its original lexeme the body
    between its quotes.  [Scan] moves on by the length of the body plus
    two, but the column and the offset by one less. *)
Theorem Scan_quoted q body rest :
  q = squote \/ q = dquote ->
  ~ In q body ->
  Z.of_nat (List.length body) + 3 < 2 ^ 63 ->
  exists s',
    Scan (Init zeroScanner (str (q :: body ++ q :: rest))) =
      Some (Some [quoteToken q body], None, s') /\
    sourcePos s' = Z.of_nat (List.length body) + 2 /\
    column s' = Z.of_nat (List.length body) + 2 /\
    offset s' = Z.of_nat (List.length body) + 2.
Proof.
  intros Hq Hbody Hbound.
  assert (Hsp : Ascii.eqb q " " = false) by (destruct Hq as [->| ->]; reflexivity).
  change (str (q :: body ++ q :: rest))
    with (String q (str (body ++ q :: rest))).
  rewrite (Scan_start _ _ Hsp).
  set (text := String q (str (body ++ q :: rest))).
  assert (Hsw : scanSwitch (started text) (newContext text) 1 q =
    let '(token, progress, ctx) := scanQuote (started text) (newContext text) q in
    let ctx := addToken token ctx in
    let '(s, ctx) := progressColumn (started text) ctx progress in
    Done (Int.add 1 progress) s ctx).
  { unfold scanSwitch. destruct Hq as [->| ->]; reflexivity. }
  rewrite Hsw. unfold scanQuote.
  change (skipn (idx (addOriginBuf q (newContext text)) + 1)
            (src (progress 1 (addOriginBuf q (newContext text)))))
    with (skipn 1 (list_ascii_of_string text)).
  unfold text at 3. cbn [list_ascii_of_string skipn]. rewrite list_of_str.
  rewrite scanQuote_loop_found by (try exact Hbody; destruct Hq as [->| ->]; reflexivity).
  cbv zeta.
  assert (Hval : source_ (idx (addOriginBuf q (newContext text)) + 1)
                   (idx (addOriginBuf q (newContext text)) + 1
                    + (0 + List.length body))
                   (progress 1 (addOriginBuf q (newContext text))) = str body).
  { unfold source_. cbn [idx addOriginBuf with_obuf newContext progress with_idx src].
    unfold text. cbn [list_ascii_of_string Nat.add skipn]. rewrite list_of_str.
    replace (S (List.length body) - 1)%nat with (List.length body + 0)%nat by lia.
    rewrite firstn_app_2. cbn [firstn]. now rewrite app_nil_r. }
  rewrite Hval, len_str.
  assert (Hp : Int.add (Z.of_nat (List.length body)) 1 =
               Z.of_nat (List.length body) + 1)
    by (apply wrap_small; unfold Int.in_range; lia).
  rewrite Hp.
  assert (Htk :
    (if Ascii.eqb q squote
     then Some (SingleQuote (str body)
                  (str (obuf (with_obuf
                                (obuf (progress 1 (addOriginBuf q (newContext text)))
                                 ++ body ++ [q])
                                (progress 1 (addOriginBuf q (newContext text))))))
                  (pos (started text)))
     else if Ascii.eqb q dquote
     then Some (DoubleQuote (str body)
                  (str (obuf (with_obuf
                                (obuf (progress 1 (addOriginBuf q (newContext text)))
                                 ++ body ++ [q])
                                (progress 1 (addOriginBuf q (newContext text))))))
                  (pos (started text)))
     else None) = Some (quoteToken q body)).
  { destruct Hq as [->| ->]; reflexivity. }
  rewrite Htk. unfold progressColumn. cbn [addToken].
  eexists. split; [reflexivity|].
  cbn [sourcePos column offset set_sourcePos set_offset set_column started].
  assert (H2 : Int.add 1 (Z.of_nat (List.length body) + 1) =
               Z.of_nat (List.length body) + 2)
    by (unfold Int.add; rewrite wrap_small by (unfold Int.in_range; lia); lia).
  rewrite H2. unfold Int.add. rewrite wrap_small by (unfold Int.in_range; lia).
  repeat split; lia.
Qed.

Lemma Scan_quoted_witness :
  exists s',
    Scan (Init zeroScanner (str ("'" :: ["a"; ":"; " "; "#"] ++ ["'"]))%char) =
      Some (Some [quoteToken "'" ["a"; ":"; " "; "#"]%char], None, s') /\
    sourcePos s' = 4 + 2 /\ column s' = 4 + 2 /\ offset s' = 4 + 2.
Proof.
  apply (Scan_quoted "'" ["a"; ":"; " "; "#"]%char []).
  - left. reflexivity.
  - cbn. intuition discriminate.
  - vm_compute. reflexivity.
Defined.

(** ** Comments *)

Lemma scanComment_loop_found s text : forall i p ctx rest,
  ~ In newline text ->
  Ascii.eqb (previousChar ctx) backslash = false ->
  scanComment_loop s (text ++ newline :: rest) i p ctx =
    let ctx' := with_obuf (obuf ctx ++ text ++ [newline]) ctx in
    let value := source_ (idx ctx) (idx ctx + (i + List.length text)) ctx in
    (Some (Comment value (str (obuf ctx')) (pos s)),
     Int.add (strings.len value) 1, ctx').
Proof.
  induction text as [|c text IH]; intros i p ctx rest Hn Hp.
  - cbn [app scanComment_loop List.length]. rewrite Ascii.eqb_refl.
    change (previousChar (addOriginBuf newline ctx)) with (previousChar ctx).
    rewrite Hp, Nat.add_0_r. reflexivity.
  - cbn [app scanComment_loop].
    assert (Hc : Ascii.eqb c newline = false).
    { apply Ascii.eqb_neq. intros ->. apply Hn. now left. }
    rewrite Hc.
    rewrite IH by (try (intros H; apply Hn; now right); exact Hp).
    cbn [List.length]. unfold addOriginBuf. cbn [obuf with_obuf idx].
    rewrite <- !app_assoc. cbn [app].
    replace (S i + List.length text)%nat with (i + S (List.length text))%nat
      by lia.
    reflexivity.
Qed.

Lemma scanComment_loop_none s text : forall i p ctx,
  ~ In newline text ->
  scanComment_loop s text i p ctx =
    (None,
     match text with
     | [] => p
     | _ :: _ => Int.add (Z.of_nat (i + List.length text - 1)) 1
     end,
     with_obuf (obuf ctx ++ text) ctx).
Proof.
  induction text as [|c text IH]; intros i p ctx Hn.
  - cbn [scanComment_loop]. rewrite app_nil_r. now destruct ctx.
  - cbn [scanComment_loop].
    assert (Hc : Ascii.eqb c newline = false).
    { apply Ascii.eqb_neq. intros ->. apply Hn. now left. }
    rewrite Hc. rewrite IH by (intros H; apply Hn; now right).
    unfold addOriginBuf. cbn [obuf with_obuf]. rewrite <- app_assoc.
    cbn [app List.length].
    destruct text as [|d text].
    + cbn [List.length]. replace (i + 1 - 1)%nat with i by lia. reflexivity.
    + cbn [List.length].
      replace (S i + S (List.length text) - 1)%nat
        with (i + S (S (List.length text)) - 1)%nat by lia.
      reflexivity.
Qed.



(** ** The header of a block scalar *)

Lemma TrimRight_cons_nonempty x s c :
  strings.TrimRight s c <> EmptyString ->
  strings.TrimRight (String x s) c = String x (strings.TrimRight s c).
Proof.
  intros H. cbn [strings.TrimRight].
  destruct (strings.TrimRight s c); [contradiction | reflexivity].
Qed.

Lemma TrimRight_keeps a x b c :
  x <> c ->
  (List.length a < String.length (strings.TrimRight (str (a ++ x :: b)) c))%nat.
Proof.
  intros Hx. induction a as [|y a IH].
  - cbn [app List.length str string_of_list_ascii strings.TrimRight].
    destruct (strings.TrimRight (string_of_list_ascii b) c).
    + destruct (Ascii.eqb_spec x c); [contradiction | cbn; lia].
    + cbn. lia.
  - cbn [app List.length str string_of_list_ascii].
    fold (str (a ++ x :: b)).
    rewrite TrimRight_cons_nonempty.
    + cbn [String.length]. lia.
    + intros E. rewrite E in IH. cbn in IH. lia.
Qed.

Lemma isLiteralOpt_short opt :
  isLiteralOpt opt = true -> (String.length opt <= 1)%nat.
Proof.
  destruct opt as [|a [|b opt]]; cbn; intros H; try lia; discriminate H.
Qed.

(** Past a line end whose option is bad, no line end has a good one. *)
Lemma isLiteralOpt_after o ext :
  isLiteralOpt (strings.TrimRight (str o) " ") = false ->
  isLiteralOpt (strings.TrimRight (str (o ++ newline :: ext)) " ") = false.
Proof.
  intros Ho.
  destruct (isLiteralOpt (strings.TrimRight (str (o ++ newline :: ext)) " "))
    eqn:E; [|reflexivity].
  apply isLiteralOpt_short in E.
  pose proof (TrimRight_keeps o newline ext " " ltac:(discriminate)) as Hk.
  destruct o as [|x o]; [discriminate Ho | cbn [List.length] in Hk; lia].
Qed.

Section LiteralHeader.

Variable s : Scanner.
Variable header : ascii.
Variable text : list ascii.

Lemma source_cut ctx i :
  skipn (idx ctx) (src ctx) = text ->
  source_ (idx ctx) (idx ctx + i) ctx = headerValue text i.
Proof.
  intros H. unfold source_, headerValue. rewrite H. do 2 f_equal. lia.
Qed.

Lemma scanLiteralHeader_loop_err rest : forall i p ctx,
  skipn (idx ctx) (src ctx) = text ->
  (forall j, (j < List.length rest)%nat -> nth j rest zero = newline ->
             isLiteralOpt (strings.TrimRight (headerValue text (i + j)) " ") = false) ->
  snd (fst (scanLiteralHeader_loop s header rest i p ctx)) =
    Some "invalid literal header"%string.
Proof.
  induction rest as [|c rest IH]; intros i p ctx Hsrc Hbad; [reflexivity|].
  cbn [scanLiteralHeader_loop].
  assert (Hnext : forall j, (j < List.length rest)%nat ->
            nth j rest zero = newline ->
            isLiteralOpt (strings.TrimRight (headerValue text (S i + j)) " ") = false).
  { intros j Hj Hn. replace (S i + j)%nat with (i + S j)%nat by lia.
    apply Hbad; [cbn; lia | exact Hn]. }
  destruct (Ascii.eqb_spec c newline) as [->|Hc].
  - change (idx (addOriginBuf newline ctx)) with (idx ctx).
    change (source_ (idx ctx) (idx ctx + i) (addOriginBuf newline ctx))
      with (source_ (idx ctx) (idx ctx + i) ctx).
    rewrite (source_cut _ _ Hsrc).
    specialize (Hbad 0%nat ltac:(cbn; lia) eq_refl).
    rewrite Nat.add_0_r in Hbad. rewrite Hbad.
    apply IH; [exact Hsrc | exact Hnext].
  - apply IH; [exact Hsrc | exact Hnext].
Qed.

Lemma scanLiteralHeader_loop_ok o : forall rest i p ctx,
  skipn (idx ctx) (src ctx) = text ->
  ~ In newline o ->
  isLiteralOpt (strings.TrimRight (headerValue text (i + List.length o)) " ") = true ->
  snd (fst (scanLiteralHeader_loop s header (o ++ newline :: rest) i p ctx)) =
    None /\
  fst (fst (scanLiteralHeader_loop s header (o ++ newline :: rest) i p ctx)) =
    Z.of_nat (i + List.length o).
Proof.
  induction o as [|c o IH]; intros rest i p ctx Hsrc Hn Hok.
  - cbn [app scanLiteralHeader_loop List.length] in *.
    rewrite Ascii.eqb_refl.
    change (idx (addOriginBuf newline ctx)) with (idx ctx).
    change (source_ (idx ctx) (idx ctx + i) (addOriginBuf newline ctx))
      with (source_ (idx ctx) (idx ctx + i) ctx).
    rewrite (source_cut _ _ Hsrc).
    rewrite Nat.add_0_r in *. rewrite Hok. split; reflexivity.
  - cbn [app scanLiteralHeader_loop List.length] in *.
    destruct (Ascii.eqb_spec c newline) as [->|Hc]; [elim Hn; now left|].
    replace (i + S (List.length o))%nat with (S i + List.length o)%nat in * by lia.
    apply IH; [exact Hsrc | intros H; apply Hn; now right | exact Hok].
Qed.

End LiteralHeader.

Lemma first_newline l :
  ~ In newline l \/
  exists o rest, l = o ++ newline :: rest /\ ~ In newline o.
Proof.
  induction l as [|c l IH]; [left; intros []|].
  destruct (Ascii.eqb_spec c newline) as [->|Hc].
  - right. exists [], l. split; [reflexivity | intros []].
  - destruct IH as [IH|(o & rest & -> & Ho)].
    + left. intros [H|H]; [congruence | contradiction].
    + right. exists (c :: o), rest. split; [reflexivity|].
      intros [H|H]; [congruence | contradiction].
Qed.

Lemma newline_unique o rest o' rest' :
  o ++ newline :: rest = o' ++ newline :: rest' ->
  ~ In newline o -> ~ In newline o' -> o = o'.
Proof.
  revert o'. induction o as [|c o IH]; intros [|c' o'] H Ho Ho'.
  - reflexivity.
  - cbn in H. inversion H; subst. elim Ho'. now left.
  - cbn in H. inversion H; subst. elim Ho. now left.
  - cbn in H. inversion H; subst. f_equal.
    apply IH; [assumption | |]; intros K; [apply Ho | apply Ho']; now right.
Qed.

(** X17.  The header of a block scalar is accepted exactly when the
    source has a newline after the indicator and the text before the
    first newline, less the spaces at its end, is empty, ['+'], ['-'] or
    one digit.  A bad option on the first line is not repaired by a
    later line: the loop goes on, but every later value holds the first
    newline and is refused. *)
Theorem scanLiteralHeader_accepts s ctx :
  snd (fst (scanLiteralHeader s ctx)) = None <->
  exists o rest,
    skipn (idx ctx + 1) (src ctx) = o ++ newline :: rest /\
    ~ In newline o /\
    isLiteralOpt (strings.TrimRight (str o) " ") = true.
Proof.
  unfold scanLiteralHeader.
  set (ctx1 := progress 1 (addOriginBuf (currentChar ctx) ctx)).
  assert (Hsrc : skipn (idx ctx1) (src ctx1) = skipn (idx ctx + 1) (src ctx))
    by reflexivity.
  rewrite Hsrc. set (text := skipn (idx ctx + 1) (src ctx)) in *.
  split.
  - intros Hok.
    destruct (first_newline text) as [Hno|(o & rest & Ht & Ho)].
    + rewrite (scanLiteralHeader_loop_err s _ text text 0 0 ctx1 Hsrc) in Hok;
        [discriminate Hok|].
      intros j Hj Hn. elim Hno. rewrite <- Hn. now apply nth_In.
    + exists o, rest. split; [exact Ht|]. split; [exact Ho|].
      destruct (isLiteralOpt (strings.TrimRight (str o) " ")) eqn:E;
        [reflexivity|].
      rewrite (scanLiteralHeader_loop_err s _ text text 0 0 ctx1 Hsrc) in Hok;
        [discriminate Hok|].
      intros j Hj Hn. unfold headerValue. cbn [Nat.add]. rewrite Ht.
      destruct (Nat.lt_trichotomy j (List.length o)) as [Hlt|[->|Hgt]].
      * elim Ho. rewrite <- Hn, Ht, app_nth1 by exact Hlt. now apply nth_In.
      * rewrite firstn_app, Nat.sub_diag, firstn_all. cbn [firstn].
        now rewrite app_nil_r.
      * rewrite firstn_app, firstn_all2 by lia.
        replace (j - List.length o)%nat with (S (j - List.length o - 1)) by lia.
        cbn [firstn]. now apply isLiteralOpt_after.
  - intros (o & rest & Ht & Ho & Hok).
    rewrite Ht.
    apply (scanLiteralHeader_loop_ok s _ text o rest 0 0 ctx1 Hsrc Ho).
    unfold headerValue.
    cbn [Nat.add]. rewrite Ht, firstn_app, Nat.sub_diag, firstn_all.
    cbn [firstn]. now rewrite app_nil_r.
Qed.

(** ** The indent level *)

(** X18.  [updateIndent] keeps the indent level and the previous indent
    level equal and not negative, and moves them by at most one: up by
    one when the line is indented more than the one before, down by one
    (but not under zero) when it is indented less. *)
Theorem updateIndent_levels s c :
  indentLevel s = prevIndentLevel s ->
  0 <= prevIndentLevel s < 2 ^ 63 - 1 ->
  let s' := updateIndent s c in
  indentLevel s' = prevIndentLevel s' /\
  0 <= indentLevel s' /\
  indentLevel s - 1 <= indentLevel s' <= indentLevel s + 1.
Proof.
  intros He Hr.
  destruct (isFirstCharAtLine s) eqn:Ef.
  - destruct (Ascii.eqb c " ") eqn:Ec.
    + rewrite (updateIndent_space _ _ Ef Ec). cbn. lia.
    + rewrite (updateIndent_classify _ _ Ef Ec). cbn.
      unfold Int.add, Int.sub.
      destruct (prevIndentNum s <? indentNum s);
        [rewrite wrap_small by (unfold Int.in_range; lia); lia|].
      destruct (prevIndentNum s =? indentNum s); [lia|].
      destruct (Z.ltb_spec 0 (prevIndentLevel s));
        [rewrite wrap_small by (unfold Int.in_range; lia); lia | lia].
  - rewrite (updateIndent_keep _ _ Ef). cbn. lia.
Qed.

Lemma updateIndent_levels_witness :
  let s' := updateIndent (Init zeroScanner "a") "a" in
  indentLevel s' = prevIndentLevel s' /\
  0 <= indentLevel s' /\
  indentLevel (Init zeroScanner "a") - 1 <= indentLevel s'
    <= indentLevel (Init zeroScanner "a") + 1.
Proof.
  apply (updateIndent_levels (Init zeroScanner "a") "a").
  - reflexivity.
  - cbn. lia.
Defined.

(** ** Blank sources *)

Lemma scan_blank_run k m : forall j p,
  (j + m = k)%nat ->
  Z.of_nat k + 2 < 2 ^ 63 ->
  scan_loop m (inIndent k [] j) (ctxInIndent k [] j) p =
    Some (match m with O => p | S _ => Z.of_nat k end,
          inIndent k [] k, ctxInIndent k [] k).
Proof.
  induction m as [|m IH]; intros j p Hj Hr.
  - assert (j = k) as -> by lia.
    cbn [scan_loop]. unfold next. cbn [ctxInIndent idx size].
    rewrite length_wordSource, Nat.add_0_r, Nat.ltb_irrefl.
    rewrite addBufferedTokenIfExists_empty by reflexivity. reflexivity.
  - cbn [scan_loop]. unfold next at 1. cbn [ctxInIndent idx size].
    rewrite length_wordSource. cbn [List.length]. rewrite Nat.add_0_r.
    replace (j <? k)%nat with true by (symmetry; apply Nat.ltb_lt; lia).
    unfold currentChar, charAt, nextPos. cbn [ctxInIndent idx src].
    replace (nth j (wordSource k []) zero) with " "%char.
    2:{ unfold wordSource. rewrite app_nil_r. symmetry.
        apply nth_repeat_lt. lia. }
    rewrite scanStep_indent by lia.
    rewrite (IH (S j) _ ltac:(lia) Hr).
    destruct m as [|m]; [|reflexivity].
    do 3 f_equal. lia.
Qed.

Lemma Tokenize_loop_end fuel s acc :
  sourceSize s <= sourcePos s -> lexer.Tokenize_loop fuel s acc = Some acc.
Proof.
  intros H. apply Z.leb_le in H.
  destruct fuel; cbn [lexer.Tokenize_loop]; unfold Scan; rewrite H; reflexivity.
Qed.

(** X19.  A source of spaces alone, the empty source among them, has no
    token, and [ParseBytes] returns for it a file with no document. *)
Theorem Tokenize_blank k m :
  Z.of_nat k + 2 < 2 ^ 63 ->
  lexer.Tokenize (str (repeat " "%char k)) = Some [] /\
  parser.ParseBytes (str (repeat " "%char k)) m =
    parser.Return {| ast.Name := EmptyString; ast.Docs := [] |}.
Proof.
  intros Hr.
  assert (Ht : lexer.Tokenize (str (repeat " "%char k)) = Some []).
  { destruct k as [|k]; [reflexivity|].
    replace (repeat " "%char (S k)) with (wordSource (S k) [])
      by (unfold wordSource; apply app_nil_r).
    unfold lexer.Tokenize. rewrite Init_wordSource, length_str, length_wordSource.
    cbn [List.length]. rewrite Nat.add_0_r.
    cbn [lexer.Tokenize_loop]. unfold Scan at 1.
    change (sourceSize (inIndent (S k) [] 0))
      with (Z.of_nat (List.length (wordSource (S k) []))).
    change (sourcePos (inIndent (S k) [] 0)) with 0.
    change (source (inIndent (S k) [] 0)) with (str (wordSource (S k) [])).
    rewrite length_wordSource. cbn [List.length]. rewrite Nat.add_0_r.
    replace (Z.of_nat (S k) <=? 0) with false by (symmetry; apply Z.leb_gt; lia).
    cbn [Z.to_nat dropString]. rewrite newContext_wordSource.
    unfold scan.
    change (size (ctxInIndent (S k) [] 0))
      with (List.length (wordSource (S k) [])).
    rewrite length_wordSource. cbn [List.length]. rewrite Nat.add_0_r.
    rewrite (scan_blank_run (S k) (S k) 0 0 eq_refl Hr).
    change (tokens (ctxInIndent (S k) [] (S k))) with (@nil Token).
    cbn [app].
    rewrite Tokenize_loop_end; [reflexivity|].
    cbn [sourceSize sourcePos set_sourcePos].
    change (sourceSize (inIndent (S k) [] (S k)))
      with (Z.of_nat (List.length (wordSource (S k) []))).
    change (sourcePos (inIndent (S k) [] (S k))) with 0.
    rewrite length_wordSource. cbn [List.length]. rewrite Nat.add_0_r.
    unfold Int.add. rewrite wrap_small by (unfold Int.in_range; lia). lia. }
  split; [exact Ht|].
  unfold parser.ParseBytes. rewrite Ht.
  unfold parser.Parse, parser.parse.
  rewrite (ParserFacts.newContext_no_comments [] m (Forall_nil _)).
  reflexivity.
Qed.

Lemma Tokenize_blank_witness :
  lexer.Tokenize (str (repeat " "%char 2)) = Some [] /\
  parser.ParseBytes (str (repeat " "%char 2)) 0%N =
    parser.Return {| ast.Name := EmptyString; ast.Docs := [] |}.
Proof. apply (Tokenize_blank 2 0%N). vm_compute. reflexivity. Defined.

(** ** Every call of [Scan] moves on *)

Lemma len_source_ a b ctx :
  0 <= strings.len (source_ a b ctx) <= Z.of_nat (b - a).
Proof.
  unfold source_, strings.len. rewrite length_str, length_firstn. lia.
Qed.

Lemma scanQuote_loop_range s ch st rest : forall i p ctx,
  Z.of_nat (i + List.length rest) + 2 < 2 ^ 63 ->
  0 <= p <= Z.of_nat (i + List.length rest) + 1 ->
  0 <= snd (fst (scanQuote_loop s ch st rest i p ctx))
    <= Z.of_nat (i + List.length rest) + 1.
Proof.
  induction rest as [|c rest IH]; intros i p ctx Hb Hp; [exact Hp|].
  cbn [scanQuote_loop List.length] in *.
  assert (Hi : Int.add (Z.of_nat i) 1 = Z.of_nat i + 1)
    by (apply wrap_small; unfold Int.in_range; lia).
  assert (Hrec : forall ctx0,
    0 <= snd (fst (scanQuote_loop s ch st rest (S i) (Int.add (Z.of_nat i) 1) ctx0))
      <= Z.of_nat (i + S (List.length rest)) + 1).
  { intros ctx0.
    replace (i + S (List.length rest))%nat with (S i + List.length rest)%nat
      by lia.
    apply IH; rewrite ?Hi; lia. }
  destruct (Ascii.eqb c ch); [|apply Hrec].
  destruct (Ascii.eqb _ backslash); [apply Hrec|].
  cbn [fst snd].
  pose proof (len_source_ st (st + i) (addOriginBuf c ctx)) as Hl.
  unfold Int.add. rewrite wrap_small by (unfold Int.in_range; lia). lia.
Qed.

Lemma scanTag_loop_range s rest : forall i p ctx,
  Z.of_nat (i + List.length rest) + 2 < 2 ^ 63 ->
  0 <= p <= Z.of_nat (i + List.length rest) + 1 ->
  0 <= snd (fst (scanTag_loop s rest i p ctx))
    <= Z.of_nat (i + List.length rest) + 1.
Proof.
  induction rest as [|c rest IH]; intros i p ctx Hb Hp; [exact Hp|].
  cbn [scanTag_loop List.length] in *.
  assert (Hi : Int.add (Z.of_nat i) 1 = Z.of_nat i + 1)
    by (apply wrap_small; unfold Int.in_range; lia).
  destruct (Ascii.eqb c " " || Ascii.eqb c newline)%bool.
  - cbn [fst snd].
    pose proof (len_source_ (idx (addOriginBuf c ctx) - 1)
                  (idx (addOriginBuf c ctx) + i) (addOriginBuf c ctx)) as Hl.
    lia.
  - replace (i + S (List.length rest))%nat with (S i + List.length rest)%nat
      by lia.
    apply IH; rewrite ?Hi; lia.
Qed.

Lemma scanComment_loop_range s rest : forall i p ctx,
  Z.of_nat (i + List.length rest) + 2 < 2 ^ 63 ->
  0 <= p <= Z.of_nat (i + List.length rest) + 1 ->
  0 <= snd (fst (scanComment_loop s rest i p ctx))
    <= Z.of_nat (i + List.length rest) + 1.
Proof.
  induction rest as [|c rest IH]; intros i p ctx Hb Hp; [exact Hp|].
  cbn [scanComment_loop List.length] in *.
  assert (Hi : Int.add (Z.of_nat i) 1 = Z.of_nat i + 1)
    by (apply wrap_small; unfold Int.in_range; lia).
  assert (Hrec : forall ctx0,
    0 <= snd (fst (scanComment_loop s rest (S i) (Int.add (Z.of_nat i) 1) ctx0))
      <= Z.of_nat (i + S (List.length rest)) + 1).
  { intros ctx0.
    replace (i + S (List.length rest))%nat with (S i + List.length rest)%nat
      by lia.
    apply IH; rewrite ?Hi; lia. }
  destruct (Ascii.eqb c newline); [|apply Hrec].
  destruct (Ascii.eqb _ backslash); [apply Hrec|].
  cbn [fst snd].
  pose proof (len_source_ (idx (addOriginBuf c ctx))
                (idx (addOriginBuf c ctx) + i) (addOriginBuf c ctx)) as Hl.
  unfold Int.add. rewrite wrap_small by (unfold Int.in_range; lia). lia.
Qed.

Lemma scanLiteralHeader_loop_text s header rest : forall i p ctx,
  0 <= p ->
  let r := scanLiteralHeader_loop s header rest i p ctx in
  0 <= fst (fst r) /\ sameText ctx (snd r) /\ idx (snd r) = idx ctx.
Proof.
  induction rest as [|c rest IH]; intros i p ctx Hp;
    [cbn; unfold sameText; auto|].
  cbn [scanLiteralHeader_loop].
  assert (Hrec :
    let r := scanLiteralHeader_loop s header rest (S i) (Z.of_nat i)
               (addOriginBuf c ctx) in
    0 <= fst (fst r) /\ sameText ctx (snd r) /\ idx (snd r) = idx ctx).
  { apply (IH (S i) (Z.of_nat i) (addOriginBuf c ctx)). lia. }
  destruct (Ascii.eqb c newline); [|exact Hrec].
  destruct (isLiteralOpt _); [|exact Hrec].
  cbn [fst snd]. unfold sameText.
  destruct (Ascii.eqb header "|"); [cbn; repeat split; lia|].
  destruct (Ascii.eqb header ">"); cbn; repeat split; lia.
Qed.

Lemma bufferedToken_same s ctx :
  let r := bufferedToken s ctx in
  sameSource s (snd (fst r)) /\ sameText ctx (snd r) /\
  idx (snd r) = idx ctx.
Proof.
  unfold bufferedToken, ctx_bufferedToken, sameSource, sameText.
  destruct (savedPos s); destruct (String.eqb (bufferedSrc ctx) EmptyString);
    cbn; auto 10.
Qed.

Lemma flush_same s ctx :
  let r := addBufferedTokenIfExists s ctx in
  sameSource s (fst r) /\ sameText ctx (snd r) /\ idx (snd r) = idx ctx.
Proof.
  unfold addBufferedTokenIfExists.
  pose proof (bufferedToken_same s ctx) as H.
  destruct (bufferedToken s ctx) as [[tk s1] ctx1]. cbn [fst snd] in *.
  destruct tk; exact H.
Qed.

Lemma Advances_default s ctx c :
  Advances s ctx (scanDefault s ctx c).
Proof.
  unfold scanDefault, progressColumn, Advances, sameSource, sameText. cbn.
  repeat split; lia.
Qed.

Ltac flush_names s1 ctx1 :=
  match goal with
  | |- context [addBufferedTokenIfExists ?s ?c] =>
      let H := fresh "Hflush" in
      pose proof (flush_same s c) as H;
      destruct (addBufferedTokenIfExists s c) as [s1 ctx1];
      cbn [fst snd] in H;
      destruct H as ((? & ? & ?) & (? & ?) & ?)
  end.

Ltac adv_done :=
  unfold progressColumn, progressLine, Advances, sameSource, nextPos;
  cbn -[Int.add Z.mul Z.of_nat];
  repeat split; try congruence;
  unfold Int.add; rewrite ?wrap_small by (unfold Int.in_range; lia); lia.

Lemma scanSwitch_advances s ctx c :
  (idx ctx < size ctx)%nat ->
  size ctx = List.length (src ctx) ->
  Z.of_nat (size ctx) + 4 < 2 ^ 61 ->
  Advances s ctx (scanSwitch s ctx (nextPos ctx) c).
Proof.
  intros Hlt Hsize Hb. unfold scanSwitch.
  repeat match goal with
  | |- Advances _ _ (if ?b then _ else _) => destruct b eqn:?
  | |- Advances _ _ (scanDefault _ _ _) => apply Advances_default
  end.
  all: try solve [adv_done].
  all: try solve [flush_names s1 ctx1; adv_done].
  - pose proof (bufferedToken_same s ctx) as H.
    destruct (bufferedToken s ctx) as [[tk s0] ctx0]. cbn [fst snd] in H.
    destruct H as ((? & ? & ?) & (? & ?) & ?).
    destruct tk; adv_done.
  - unfold scanLiteralHeader.
    pose proof (scanLiteralHeader_loop_text s (currentChar ctx)
                  (skipn (idx (progress 1 (addOriginBuf (currentChar ctx) ctx)))
                     (src (progress 1 (addOriginBuf (currentChar ctx) ctx))))
                  0 0 (progress 1 (addOriginBuf (currentChar ctx) ctx))
                  ltac:(lia)) as H.
    cbv zeta in H.
    destruct (scanLiteralHeader_loop _ _ _ _ _ _) as [[p0 err] ctx0].
    cbn [fst snd] in H. destruct H as (Hp0 & (Hs1 & Hs2) & Hidx).
    cbn [progress with_idx addOriginBuf with_obuf idx src size] in Hs1, Hs2, Hidx.
    destruct err; [adv_done|].
    unfold progressColumn, progressLine, Advances, sameSource, sameText.
    cbn -[Int.add Z.to_nat]. repeat split; try assumption. lia.
  - unfold scanTag.
    set (ctx1 := progress 1 (addOriginBuf "!" ctx)).
    assert (Hlen : (List.length (skipn (idx ctx1) (src ctx1)) <= size ctx)%nat)
      by (rewrite length_skipn; cbn; lia).
    pose proof (scanTag_loop_range s (skipn (idx ctx1) (src ctx1)) 0 0 ctx1
                  ltac:(cbn [Nat.add]; lia) ltac:(lia)) as H.
    destruct (scanTag_loop _ _ _ _ _) as [[tk p0] ctx0]. cbn [fst snd] in H.
    unfold progressColumn.
    destruct (Ascii.eqb _ newline); adv_done.
  - flush_names s1 ctx1. unfold scanComment.
    set (ctx2 := progress 1 (addOriginBuf "#" ctx1)).
    assert (Hlen : (List.length (skipn (idx ctx2) (src ctx2)) <= size ctx)%nat)
      by (rewrite length_skipn; cbn; replace (src ctx1) with (src ctx)
            by congruence; lia).
    pose proof (scanComment_loop_range s1 (skipn (idx ctx2) (src ctx2)) 0 0 ctx2
                  ltac:(cbn [Nat.add]; lia) ltac:(lia)) as Hrange.
    destruct (scanComment_loop _ _ _ _ _) as [[tk p0] ctx0].
    cbn [fst snd] in Hrange.
    adv_done.
  - unfold scanQuote.
    set (ctx1 := progress 1 (addOriginBuf c ctx)).
    set (st := (idx (addOriginBuf c ctx) + 1)%nat).
    assert (Hlen : (List.length (skipn st (src ctx1)) <= size ctx)%nat)
      by (rewrite length_skipn; cbn; lia).
    pose proof (scanQuote_loop_range s c st (skipn st (src ctx1)) 0 0 ctx1
                  ltac:(cbn [Nat.add]; lia) ltac:(lia)) as H.
    destruct (scanQuote_loop _ _ _ _ _ _ _) as [[tk p0] ctx0]. cbn [fst snd] in H.
    adv_done.
  - unfold scanNewLine.
    set (s0 := match buf ctx with _ :: _ => _ | [] => s end).
    assert (Hs0 : sameSource s s0).
    { unfold s0, sameSource. destruct (buf ctx); [auto|].
      destruct (savedPos s); cbn; auto. }
    destruct Hs0 as (? & ? & ?). clearbody s0.
    destruct (isEOS ctx); [|destruct (isAnchor s0)];
      try flush_names s1 ctx1;
      unfold progressLine, Advances, sameSource, sameText;
      cbn -[Int.add]; repeat split; try congruence; lia.
Qed.

Lemma Advances_transfer s ctx s0 ctx0 r :
  sameSource s s0 -> sameText ctx ctx0 -> idx ctx0 = idx ctx ->
  Advances s0 ctx0 r -> Advances s ctx r.
Proof.
  unfold Advances, sameSource, sameText.
  intros (? & ? & ?) (? & Hsz) Hi.
  destruct r as [s' ctx'|p s' ctx'].
  - intros ((? & ? & ?) & (? & ?) & ?). repeat split; try congruence; lia.
  - intros ((? & ? & ?) & ?). rewrite <- Hsz. repeat split; try congruence; lia.
Qed.

Lemma scanLiteral_advances s ctx c :
  let r := scanLiteral s ctx c in
  Advances s ctx (Continue (fst r) (snd r)).
Proof.
  unfold scanLiteral, progressLine, progressColumn, Advances, sameSource,
    sameText.
  destruct (isEOS ctx); destruct (Ascii.eqb c newline);
    try destruct (isLiteral _);
    try destruct (isFirstCharAtLine s && Ascii.eqb c " ")%bool;
    cbn; repeat split; lia.
Qed.

(** One turn of the loop of [scan], whatever the character. *)
Lemma scanStep_advances s ctx :
  (idx ctx < size ctx)%nat ->
  size ctx = List.length (src ctx) ->
  Z.of_nat (size ctx) + 4 < 2 ^ 61 ->
  Advances s ctx (scanStep s ctx (nextPos ctx) (currentChar ctx)).
Proof.
  intros Hlt Hsize Hb. unfold scanStep.
  set (c := currentChar ctx).
  pose proof (updateIndent_line s c) as (Hsrc & _). cbv zeta in Hsrc.
  set (s1 := updateIndent s c) in *. clearbody s1.
  assert (Hplain : Advances s ctx (scanSwitch s1 ctx (nextPos ctx) c)).
  { apply (Advances_transfer s ctx s1 ctx); [exact Hsrc | split; reflexivity
                                            | reflexivity |].
    now apply scanSwitch_advances. }
  assert (Hflush : forall f : Context -> Context,
    (forall x, sameText x (f x) /\ idx (f x) = idx x) ->
    Advances s ctx
      (let '(s0, ctx0) := addBufferedTokenIfExists s1 ctx in
       scanSwitch s0 (f ctx0) (nextPos ctx) c)).
  { intros f Hf. pose proof (flush_same s1 ctx) as H.
    destruct (addBufferedTokenIfExists s1 ctx) as [s2 ctx2].
    cbn [fst snd] in H. destruct H as ((? & ? & ?) & (? & ?) & ?).
    destruct (Hf ctx2) as ((? & ?) & ?).
    destruct Hsrc as (? & ? & ?).
    apply (Advances_transfer s ctx s2 (f ctx2)).
    - repeat split; congruence.
    - split; congruence.
    - congruence.
    - replace (nextPos ctx) with (nextPos (f ctx2))
        by (unfold nextPos; congruence).
      apply scanSwitch_advances; try congruence; try lia. }
  destruct (isChangedToIndentStateDown s1).
  { apply (Hflush breakLiteral). intros x. repeat split. }
  destruct (isLiteral ctx || isFolded ctx || isRawFolded ctx)%bool.
  { pose proof (scanLiteral_advances s1 ctx c) as H. cbv zeta in H.
    destruct (scanLiteral s1 ctx c) as [s2 ctx2]. cbn [fst snd] in H.
    apply (Advances_transfer s ctx s1 ctx);
      [exact Hsrc | split; reflexivity | reflexivity | exact H]. }
  destruct (isChangedToIndentStateEqual s1); [|exact Hplain].
  destruct (obuf ctx) as [|o l]; [exact Hplain|].
  destruct (negb (Ascii.eqb o newline)); [|exact Hplain].
  apply (Hflush (fun x => x)). intros x. repeat split.
Qed.

(** The loop of [scan] ends, with a progress of one character at
    least. *)
Lemma scan_loop_total fuel : forall s ctx p,
  (size ctx - idx ctx <= fuel)%nat ->
  size ctx = List.length (src ctx) ->
  Z.of_nat (size ctx) + 4 < 2 ^ 61 ->
  (idx ctx < size ctx)%nat \/ 1 <= p <= 2 * Z.of_nat (size ctx) + 3 ->
  exists p' s' ctx',
    scan_loop fuel s ctx p = Some (p', s', ctx') /\
    sameSource s s' /\ 1 <= p' <= 2 * Z.of_nat (size ctx) + 3.
Proof.
  induction fuel as [|fuel IH]; intros s ctx p Hfuel Hsize Hb Hp.
  all: cbn [scan_loop]; unfold next.
  all: destruct (Nat.ltb_spec (idx ctx) (size ctx)) as [Hlt|Hge]; try lia.
  1,3: pose proof (flush_same s ctx) as H;
    destruct (addBufferedTokenIfExists s ctx) as [s1 ctx1];
    cbn [fst snd] in H; destruct H as (H & _);
    exists p, s1, ctx1; repeat split; try apply H; lia.
  pose proof (scanStep_advances s ctx Hlt Hsize Hb) as Hstep.
  destruct (scanStep s ctx (nextPos ctx) (currentChar ctx))
    as [s' ctx'|p' s' ctx']; cbn [Advances] in Hstep.
  - destruct Hstep as ((? & ? & ?) & (Hs1 & Hs2) & Hidx).
    destruct (IH s' ctx' (nextPos ctx)) as (p1 & s1 & ctx1 & E & (? & ? & ?) & ?).
    + lia.
    + congruence.
    + lia.
    + right. unfold nextPos. lia.
    + exists p1, s1, ctx1. rewrite Hs2 in *.
      repeat split; try congruence; lia.
  - destruct Hstep as (Hs & Hr). exists p', s', ctx'. auto.
Qed.

Lemma length_dropString_any n s :
  String.length (dropString n s) = (String.length s - n)%nat.
Proof.
  rewrite <- (string_of_list_ascii_of_string s). fold (str (list_ascii_of_string s)).
  now rewrite length_dropString, length_str.
Qed.

(** A call of [Scan] inside the source returns tokens and moves the
    position on by one character at least. *)
Lemma Scan_total s :
  sourceSize s = strings.len (source s) ->
  0 <= sourcePos s < sourceSize s ->
  sourceSize s + 4 < 2 ^ 61 ->
  exists tks s',
    Scan s = Some (Some tks, None, s') /\
    sameSource s (set_sourcePos (sourcePos s) s') /\
    sourcePos s < sourcePos s'.
Proof.
  intros Hsize Hpos Hb. unfold Scan.
  destruct (Z.leb_spec (sourceSize s) (sourcePos s)); [lia|].
  set (ctx := newContext (dropString (Z.to_nat (sourcePos s)) (source s))).
  assert (Hsz : size ctx = (String.length (source s) - Z.to_nat (sourcePos s))%nat)
    by apply length_dropString_any.
  assert (Hlen : size ctx = List.length (src ctx))
    by (unfold ctx, newContext; cbn [size src];
        now rewrite length_list_of_string).
  unfold strings.len in Hsize.
  destruct (scan_loop_total (size ctx) s ctx 0)
    as (p' & s' & ctx' & E & (H1 & H2 & H3) & Hp); try lia.
  { left. change (idx ctx) with 0%nat. lia. }
  unfold scan. rewrite E. eexists _, _. split; [reflexivity|].
  unfold sameSource. cbn [source sourceSize sourcePos set_sourcePos].
  rewrite H3. unfold Int.add. rewrite wrap_small by (unfold Int.in_range; lia).
  repeat split; try assumption. lia.
Qed.

Lemma Tokenize_loop_total fuel : forall s acc,
  sourceSize s = strings.len (source s) ->
  0 <= sourcePos s ->
  sourceSize s + 4 < 2 ^ 61 ->
  (Z.to_nat (sourceSize s - sourcePos s) <= fuel)%nat ->
  exists tks, lexer.Tokenize_loop fuel s acc = Some tks.
Proof.
  induction fuel as [|fuel IH]; intros s acc Hsize Hpos Hb Hfuel.
  all: destruct (Z.le_gt_cases (sourceSize s) (sourcePos s)) as [Hend|Hin].
  1,3: rewrite Tokenize_loop_end by exact Hend; eauto.
  1: lia.
  destruct (Scan_total s Hsize ltac:(lia) Hb)
    as (tks & s' & E & (H1 & H2 & H3) & Hlt).
  cbn [source sourceSize sourcePos set_sourcePos] in H1, H2, H3.
  cbn [lexer.Tokenize_loop]. rewrite E.
  apply IH; try congruence; try lia.
Qed.

(** X21.  Tokenizing terminates.  Every turn of the loop of [scan] moves
    the cursor on or returns, and every call of [Scan] moves the position
    in the source on by one character at least: for every source
    [Tokenize] returns a token stream, and [ParseBytes] ends in a file,
    an error or a nil dereference. *)
Theorem Tokenize_terminates src m :
  strings.len src + 4 < 2 ^ 61 ->
  (exists tks, lexer.Tokenize src = Some tks) /\
  parser.ParseBytes src m <> parser.NoFuel.
Proof.
  intros Hb.
  assert (H0 : 0 <= sourcePos (Init zeroScanner src)) by (cbn; lia).
  assert (Hf : (Z.to_nat (sourceSize (Init zeroScanner src)
                          - sourcePos (Init zeroScanner src))
                <= String.length src)%nat)
    by (cbn [sourceSize sourcePos Init]; unfold strings.len; lia).
  destruct (Tokenize_loop_total (String.length src) (Init zeroScanner src) []
              eq_refl H0 Hb Hf) as (tks & E).
  assert (Ht : lexer.Tokenize src = Some (link tks))
    by (unfold lexer.Tokenize; now rewrite E).
  split; [eauto|].
  unfold parser.ParseBytes. rewrite Ht.
  pose proof (ParserFacts.parse_has_fuel (link tks) m) as Hp.
  unfold parser.Parse.
  destruct (parser.parse (link tks) m); cbn; congruence.
Qed.

Lemma Tokenize_terminates_witness :
  (exists tks, lexer.Tokenize samples.badHeader = Some tks) /\
  parser.ParseBytes samples.badHeader 0%N <> parser.NoFuel.
Proof.
  apply (Tokenize_terminates samples.badHeader 0%N). vm_compute. reflexivity.
Defined.

Lemma bufferedToken_ok_tokens s ctx :
  tokens (snd (bufferedToken s ctx)) = tokens ctx.
Proof.
  unfold bufferedToken, ctx_bufferedToken.
  destruct (savedPos s); destruct (String.eqb (bufferedSrc ctx) EmptyString);
    reflexivity.
Qed.

(** ** The offset locates the value *)

Lemma str_app a b : str (a ++ b) = (str a ++ str b)%string.
Proof.
  unfold str. induction a as [|x a IH]; cbn; [reflexivity | now rewrite IH].
Qed.

Lemma bufferedToken_suffix s ctx t :
  (exists lead, obuf ctx = lead ++ buf ctx) ->
  fst (fst (bufferedToken s ctx)) = Some t -> originEndsInValue t.
Proof.
  intros [lead Hl]. unfold bufferedToken, ctx_bufferedToken, bufferedSrc.
  destruct (TrimLeft_suffix (buf ctx)) as [sp Hsp].
  assert (Ho : str (obuf ctx) =
               (str (lead ++ sp) ++ strings.TrimLeft (str (buf ctx)) " ")%string).
  { rewrite Hl.
    assert (Hb : str (buf ctx) =
                 (str sp ++ strings.TrimLeft (str (buf ctx)) " ")%string).
    { set (T := strings.TrimLeft (str (buf ctx)) " ") in *.
      rewrite Hsp, str_app. f_equal. apply string_of_list_ascii_of_string. }
    rewrite !str_app, Hb at 1.
    set (T := strings.TrimLeft (str (buf ctx)) " ").
    clearbody T. clear. induction (str lead) as [|x l IH]; cbn;
      [reflexivity | now rewrite IH]. }
  destruct (savedPos s);
    destruct (String.eqb (strings.TrimLeft (str (buf ctx)) " ") EmptyString);
    cbn [fst snd]; intros H; inversion H;
    exists (str (lead ++ sp)); exact Ho.
Qed.

Lemma flush_suffix s ctx :
  (exists lead, obuf ctx = lead ++ buf ctx) ->
  Forall originEndsInValue (tokens ctx) ->
  Forall originEndsInValue (tokens (snd (addBufferedTokenIfExists s ctx))).
Proof.
  intros Hb Ht. unfold addBufferedTokenIfExists.
  pose proof (bufferedToken_suffix s ctx) as Hs.
  pose proof (bufferedToken_ok_tokens s ctx) as Hk.
  destruct (bufferedToken s ctx) as [[tk s1] ctx1]. cbn [fst snd] in *.
  destruct tk as [t|]; cbn [addToken tokens with_tokens snd]; rewrite Hk.
  - apply Forall_app; split; [exact Ht|]. constructor; [|constructor].
    now apply Hs.
  - exact Ht.
Qed.

Lemma flush_buf s ctx :
  (exists lead, obuf ctx = lead ++ buf ctx) ->
  exists lead, obuf (snd (addBufferedTokenIfExists s ctx)) =
               lead ++ buf (snd (addBufferedTokenIfExists s ctx)).
Proof.
  intros Hb. unfold addBufferedTokenIfExists, bufferedToken, ctx_bufferedToken.
  destruct (savedPos s); destruct (String.eqb (bufferedSrc ctx) EmptyString);
    cbn; try exact Hb; now exists [].
Qed.

Lemma str_snoc l c : str (l ++ [c]) = (str l ++ String c EmptyString)%string.
Proof. apply str_app. Qed.

Ltac suffix_flush :=
  match goal with
  | Hb : exists lead, obuf ?c = lead ++ buf ?c,
    Ht : Forall originEndsInValue (tokens ?c)
    |- context [addBufferedTokenIfExists ?s ?c] =>
      let H := fresh "Hfl" in
      pose proof (flush_suffix s c Hb Ht) as H;
      destruct (addBufferedTokenIfExists s c) as [? ?];
      cbn [fst snd] in H
  end.

Ltac suffix_char :=
  repeat match goal with
  | E : Ascii.eqb ?c _ = true |- _ => apply Ascii.eqb_eq in E; subst c
  end.

Ltac suffix_done :=
  unfold progressColumn; cbn [finalTokens addToken tokens with_tokens progress
                              with_idx addOriginBuf with_obuf addBuf with_buf];
  try assumption;
  apply Forall_app; split; [assumption|];
  constructor; [|constructor];
  suffix_char;
  first [ exists EmptyString; reflexivity
        | eexists; cbn [Origin Value MappingStart MappingEnd SequenceStart
                        SequenceEnd CollectEntry SequenceEntry Anchor Alias mk
                        obuf with_obuf addOriginBuf];
          apply str_snoc ].

Lemma scanSwitch_suffix s ctx p c :
  (exists lead, obuf ctx = lead ++ buf ctx) ->
  Forall originEndsInValue (tokens ctx) ->
  simpleChar c = true ->
  Forall originEndsInValue (finalTokens (scanSwitch s ctx p c)).
Proof.
  intros Hb Ht Hs. unfold scanSwitch.
  rewrite (simpleChar_neq c "<" Hs), (simpleChar_neq c "|" Hs),
    (simpleChar_neq c ">" Hs), (simpleChar_neq c "!" Hs),
    (simpleChar_neq c "?" Hs), (simpleChar_neq c "#" Hs),
    (simpleChar_neq c squote Hs), (simpleChar_neq c dquote Hs),
    (simpleChar_neq c newline Hs) by (cbn; tauto).
  cbn [orb].
  repeat match goal with
  | |- Forall _ (finalTokens (if ?b then _ else _)) => destruct b eqn:?
  | |- Forall _ (finalTokens (scanDefault _ _ _)) => exact Ht
  end.
  all: try solve [suffix_done].
  all: try solve [suffix_flush; suffix_done].
  - exact Ht.
  - pose proof (bufferedToken_suffix s ctx) as Hsuf.
    pose proof (bufferedToken_ok_tokens s ctx) as Hk.
    destruct (bufferedToken s ctx) as [[tk s0] ctx0]. cbn [fst snd] in *.
    destruct tk as [t|]; unfold progressColumn;
      cbn [finalTokens addToken tokens with_tokens progress with_idx];
      rewrite Hk.
    + apply Forall_app; split;
        [apply Forall_app; split; [exact Ht | constructor; [auto | constructor]]|].
      constructor; [|constructor]. exists EmptyString. reflexivity.
    + apply Forall_app; split; [exact Ht|].
      constructor; [|constructor]. exists EmptyString. reflexivity.
  - exact Ht.
  - exact Ht.
  - suffix_flush. exact Hfl.
Qed.

Lemma scanStep_suffix SRC b s ctx :
  Inv SRC b s ctx ->
  Forall originEndsInValue (tokens ctx) ->
  simpleChar (currentChar ctx) = true ->
  Forall originEndsInValue
    (finalTokens (scanStep s ctx (nextPos ctx) (currentChar ctx))).
Proof.
  intros H Ht Hs. unfold scanStep.
  set (c := currentChar ctx) in *.
  set (s1 := updateIndent s c). clearbody s1.
  pose proof (inv_buf _ _ _ _ H) as Hb.
  assert (Hplain : Forall originEndsInValue
                     (finalTokens (scanSwitch s1 ctx (nextPos ctx) c)))
    by now apply scanSwitch_suffix.
  assert (Hflush : forall f : Context -> Context,
    (forall x, buf (f x) = buf x /\ obuf (f x) = obuf x /\
               tokens (f x) = tokens x) ->
    Forall originEndsInValue
      (finalTokens
         (let '(s0, ctx0) := addBufferedTokenIfExists s1 ctx in
          scanSwitch s0 (f ctx0) (nextPos ctx) c))).
  { intros f Hf.
    pose proof (flush_suffix s1 ctx Hb Ht) as Hfl.
    pose proof (flush_buf s1 ctx Hb) as Hfb.
    destruct (addBufferedTokenIfExists s1 ctx) as [s2 ctx2].
    cbn [fst snd] in *. destruct (Hf ctx2) as (E1 & E2 & E3).
    apply scanSwitch_suffix; [| |exact Hs].
    - destruct Hfb as [lead Hl]. exists lead. congruence.
    - now rewrite E3. }
  destruct (isChangedToIndentStateDown s1).
  { apply (Hflush breakLiteral). intros x. repeat split. }
  pose proof (inv_mode _ _ _ _ H) as Hm. unfold isSaveIndentMode in Hm.
  rewrite Hm.
  destruct (isChangedToIndentStateEqual s1); [|exact Hplain].
  destruct (obuf ctx) as [|o l] eqn:Eo; [exact Hplain|].
  destruct (negb (Ascii.eqb o newline)); [|exact Hplain].
  rewrite <- Eo in *. apply (Hflush (fun x => x)). intros x. repeat split.
Qed.


Section OneLineValue.

Variable SRC : list ascii.
Hypothesis Hbound : Z.of_nat (List.length SRC) + 4 < 2 ^ 63.
Hypothesis Hsimple : Forall (fun c => simpleChar c = true) SRC.

Lemma scan_loop_suffix fuel : forall b s ctx p p' s' ctx',
  Inv SRC b s ctx ->
  Forall originEndsInValue (tokens ctx) ->
  scan_loop fuel s ctx p = Some (p', s', ctx') ->
  Forall originEndsInValue (tokens ctx').
Proof.
  induction fuel as [|fuel IH]; intros b s ctx p p' s' ctx' H Ht E.
  all: cbn [scan_loop] in E; unfold next in E.
  all: destruct (Nat.ltb_spec (idx ctx) (size ctx)) as [Hlt|Hge];
    try discriminate E.
  1,3: pose proof (flush_suffix s ctx (inv_buf _ _ _ _ H) Ht) as Hfl;
    destruct (addBufferedTokenIfExists s ctx) as [s1 ctx1];
    inversion E; subst; exact Hfl.
  pose proof (simple_current SRC Hsimple _ _ _ H Hlt) as Hc.
  pose proof (scanStep_ok SRC Hbound _ _ _ H Hlt Hc) as Hstep.
  pose proof (scanStep_suffix SRC b s ctx H Ht Hc) as Hsuf.
  destruct (scanStep s ctx (nextPos ctx) (currentChar ctx))
    as [s1 ctx1|p1 s1 ctx1]; cbn in Hstep, Hsuf.
  - destruct Hstep as [H' _]. exact (IH _ _ _ _ _ _ _ H' Hsuf E).
  - inversion E; subst. exact Hsuf.
Qed.

Lemma Scan_suffix b s tks e s' :
  Between SRC b s -> (b < List.length SRC)%nat ->
  Scan s = Some (Some tks, e, s') ->
  Forall originEndsInValue tks.
Proof.
  intros [[F1 F2 F3] Hle Ho Hs] Hlt. unfold Scan.
  rewrite F2, F3.
  destruct (Z.leb_spec (Z.of_nat (List.length SRC)) (Z.of_nat b)); [lia|].
  rewrite Nat2Z.id, F1.
  set (ctx := newContext (dropString b (str SRC))).
  assert (H0 : Inv SRC b s ctx).
  { constructor; cbn.
    - now constructor.
    - exact Hle.
    - apply dropString_str.
    - apply length_dropString.
    - lia.
    - rewrite Ho. lia.
    - exact Hs.
    - reflexivity.
    - now exists [].
    - exists (firstn (b + 0) SRC). now rewrite app_nil_r.
    - reflexivity.
    - constructor. }
  unfold scan.
  destruct (scan_loop (size ctx) s ctx 0) as [[[p1 s1] ctx1]|] eqn:E;
    [|discriminate].
  intros K; inversion K; subst.
  apply (scan_loop_suffix _ _ _ _ _ _ _ _ H0 (Forall_nil _) E).
Qed.

Lemma Tokenize_loop_suffix fuel : forall b s acc tks,
  Between SRC b s ->
  Forall originEndsInValue acc ->
  lexer.Tokenize_loop fuel s acc = Some tks ->
  Forall originEndsInValue tks.
Proof.
  induction fuel as [|fuel IH]; intros b s acc tks Hb Hacc E.
  all: pose proof (between_le _ _ _ Hb) as Hle.
  all: assert (Hc : b = List.length SRC \/ (b < List.length SRC)%nat) by lia.
  all: destruct Hc as [->|Hlt].
  1,3: cbn [lexer.Tokenize_loop] in E; rewrite (Scan_end _ _ Hb) in E;
    inversion E; subst; exact Hacc.
  all: destruct (Scan_ok SRC Hbound Hsimple _ _ Hb Hlt)
    as (tks0 & s' & b' & E0 & Hlt' & Hb' & _).
  all: pose proof (Scan_suffix _ _ _ _ _ Hb Hlt E0) as Hs0.
  all: cbn [lexer.Tokenize_loop] in E; rewrite E0 in E;
    try discriminate E.
  apply (IH b' s' (acc ++ tks0) tks Hb'); [|exact E].
  apply Forall_app. split; assumption.
Qed.

End OneLineValue.

Lemma list_of_string_app a b :
  list_ascii_of_string (a ++ b) =
  list_ascii_of_string a ++ list_ascii_of_string b.
Proof. induction a as [|x a IH]; cbn; [reflexivity | now rewrite IH]. Qed.

Lemma tokenOk_value SRC t :
  tokenOk SRC t -> originEndsInValue t -> valueAt (str SRC) t.
Proof.
  unfold tokenOk, originEndsInValue, valueAt.
  set (e := Offset (Position_ t) - 1 + strings.len (Value t)).
  intros (H1 & H2 & pre & Hp) [lead Hl].
  rewrite Hl, list_of_string_app, app_assoc in Hp.
  pose proof (f_equal (@List.length ascii) Hp) as Hn.
  rewrite length_firstn, !length_app, !length_list_of_string in Hn.
  unfold strings.len in *.
  unfold slice, strings.len. rewrite length_str.
  rewrite !(proj2 (Z.leb_le _ _)) by lia. cbn [andb]. f_equal.
  replace (Z.to_nat (Offset (Position_ t) - 1))
    with (List.length (pre ++ list_ascii_of_string lead))
    by (rewrite length_app, length_list_of_string; lia).
  replace (Z.to_nat (e - (Offset (Position_ t) - 1)))
    with (List.length (list_ascii_of_string (Value t)))
    by (rewrite length_list_of_string; lia).
  rewrite <- (firstn_skipn (Z.to_nat e) SRC), Hp, <- app_assoc.
  rewrite substring_mid. apply string_of_list_ascii_of_string.
Qed.

Lemma link_value src tks :
  Forall (fun t => originEndsInValue t /\ valueAt src t) tks ->
  Forall (fun t => originEndsInValue t /\ valueAt src t) (token.link tks).
Proof.
  induction 1 as [|t l Ht Hl IH]; [constructor|].
  destruct l as [|t' l']; [now repeat constructor|].
  cbn [token.link]. constructor; [exact Ht | exact IH].
Qed.




(** ** Tags *)

Lemma scanTag_loop_found s w t rest : forall i p ctx,
  ~ In " "%char w -> ~ In newline w ->
  t = " "%char \/ t = newline ->
  scanTag_loop s (w ++ t :: rest) i p ctx =
    let ctx' := with_obuf (obuf ctx ++ w ++ [t]) ctx in
    let value := source_ (idx ctx - 1) (idx ctx + (i + List.length w)) ctx in
    (Some (Tag value (str (obuf ctx')) (pos s)), strings.len value, ctx').
Proof.
  induction w as [|c w IH]; intros i p ctx Hs Hn Ht.
  - cbn [app scanTag_loop List.length].
    assert (E : (Ascii.eqb t " " || Ascii.eqb t newline)%bool = true)
      by (destruct Ht as [->| ->]; reflexivity).
    rewrite E, Nat.add_0_r. reflexivity.
  - cbn [app scanTag_loop].
    assert (E : (Ascii.eqb c " " || Ascii.eqb c newline)%bool = false).
    { apply orb_false_iff. split; apply Ascii.eqb_neq; intros ->;
        [apply Hs | apply Hn]; now left. }
    rewrite E.
    rewrite IH; [| intros H; apply Hs; now right
                  | intros H; apply Hn; now right | exact Ht].
    cbn [List.length]. unfold addOriginBuf. cbn [obuf with_obuf idx].
    rewrite <- !app_assoc. cbn [app].
    replace (S i + List.length w)%nat with (i + S (List.length w))%nat by lia.
    reflexivity.
Qed.

Lemma scanTag_loop_none s w : forall i p ctx,
  ~ In " "%char w -> ~ In newline w ->
  scanTag_loop s w i p ctx =
    (None,
     match w with
     | [] => p
     | _ :: _ => Int.add (Z.of_nat (i + List.length w - 1)) 1
     end,
     with_obuf (obuf ctx ++ w) ctx).
Proof.
  induction w as [|c w IH]; intros i p ctx Hs Hn.
  - cbn [scanTag_loop]. rewrite app_nil_r. now destruct ctx.
  - cbn [scanTag_loop].
    assert (E : (Ascii.eqb c " " || Ascii.eqb c newline)%bool = false).
    { apply orb_false_iff. split; apply Ascii.eqb_neq; intros ->;
        [apply Hs | apply Hn]; now left. }
    rewrite E.
    rewrite IH; [| intros H; apply Hs; now right
                  | intros H; apply Hn; now right].
    unfold addOriginBuf. cbn [obuf with_obuf]. rewrite <- app_assoc.
    cbn [app List.length].
    destruct w as [|d w].
    + cbn [List.length]. replace (i + 1 - 1)%nat with i by lia. reflexivity.
    + cbn [List.length].
      replace (S i + S (List.length w) - 1)%nat
        with (i + S (S (List.length w)) - 1)%nat by lia.
      reflexivity.
Qed.



End ScannerFacts.
